(** * dns-network-scanner: address enumeration, per-host scan task and
      bounded-concurrency scheduler of [main.go], embedded in Rocq.

    The definitions follow the layout of the program:
    - [net]: the parts of Go's [net] package the dispatch loop calls
      ([IP.To4], [IP.Mask], [IPNet.Contains], [CIDRMask]);
    - [inc] and the dispatch loop of [main] ([enumerate]);
    - the per-host task [queryDNS] with [performDNSQuery], [insertIntoDB]
      and [queryAdditionalDNS], written in a small free monad of the
      requests a task makes to the outside (DNS exchange, insert, log);
    - [main] and its goroutines as a step function under an arbitrary
      scheduler ([step], [exec], [reachable]).

    The libraries and the world outside the repository (token encoding,
    CIDR parsing, the resolvers, the database, the clock) are the fields of
    an environment [Env]; [Sample] holds small environments to run the
    model on.

    The properties come after the definitions: the enumeration of a block,
    the claims about one task, the scheduler's invariant, the number of
    records of a scan and the finiteness of every run. *)

From Stdlib Require Import String Ascii ZArith List Lia Bool Arith.
Import ListNotations.

Local Open Scope Z_scope.

(* ================================================================== *)
(** ** Bytes and byte slices *)

(** A Go [byte] is a [Z] in [0, 256); a slice of bytes is a list. *)
Definition is_byte (b : Z) : Prop := 0 <= b < 256.

(** [s[i] = v] on a slice; the program never writes out of range. *)
Fixpoint set_nth (i : nat) (v : Z) (s : list Z) : list Z :=
  match s, i with
  | [], _ => []
  | _ :: t, O => v :: t
  | h :: t, S j => h :: set_nth j v t
  end.

Definition list_Z_eqb (x y : list Z) : bool :=
  if list_eq_dec Z.eq_dec x y then true else false.

(* ================================================================== *)
(** ** Go's [net] package, as far as [main] uses it *)

Module net.

Definition IP := list Z.
Definition IPMask := list Z.

Record IPNet := mkIPNet { net_IP : IP; net_Mask : IPMask }.

Definition IPv4len : nat := 4.
Definition IPv6len : nat := 16.

Definition v4InV6Prefix : list Z := [0;0;0;0;0;0;0;0;0;0;255;255].

Definition allFF (b : list Z) : bool := forallb (Z.eqb 255) b.
Definition isZeros (b : list Z) : bool := forallb (Z.eqb 0) b.

(** [ip.To4()]; the nil slice is the empty list. *)
Definition To4 (ip : IP) : IP :=
  if Nat.eqb (length ip) IPv4len then ip
  else if Nat.eqb (length ip) IPv6len
          && isZeros (firstn 10 ip)
          && (nth 10 ip 0 =? 255) && (nth 11 ip 0 =? 255)
       then skipn 12 ip
       else [].

Definition is_nil (ip : list Z) : bool :=
  match ip with [] => true | _ => false end.

(** The loop [out[i] = ip[i] & mask[i]]. *)
Fixpoint and_bytes (ip mask : list Z) : list Z :=
  match ip, mask with
  | x :: ip', m :: mask' => Z.land x m :: and_bytes ip' mask'
  | _, _ => []
  end.

(** [ip.Mask(mask)]. *)
Definition Mask (ip : IP) (mask : IPMask) : IP :=
  let mask :=
    if Nat.eqb (length mask) IPv6len && Nat.eqb (length ip) IPv4len
       && allFF (firstn 12 mask)
    then skipn 12 mask else mask in
  let ip :=
    if Nat.eqb (length mask) IPv4len && Nat.eqb (length ip) IPv6len
       && list_Z_eqb (firstn 12 ip) v4InV6Prefix
    then skipn 12 ip else ip in
  if Nat.eqb (length ip) (length mask) then and_bytes ip mask else [].

(** [networkNumberAndMask(n)]; [(nil, nil)] is [([], [])]. *)
Definition networkNumberAndMask (n : IPNet) : IP * IPMask :=
  let ip4 := To4 (net_IP n) in
  if is_nil ip4 && negb (Nat.eqb (length (net_IP n)) IPv6len) then ([], [])
  else
    let ip := if is_nil ip4 then net_IP n else ip4 in
    let m := net_Mask n in
    if Nat.eqb (length m) IPv4len then
      if Nat.eqb (length ip) IPv4len then (ip, m) else ([], [])
    else if Nat.eqb (length m) IPv6len then
      (ip, if Nat.eqb (length ip) IPv4len then skipn 12 m else m)
    else ([], []).

(** The loop of [Contains]: false at the first index where
    [nn[i]&m[i] != ip[i]&m[i]]. *)
Fixpoint same_prefix (nn m ip : list Z) : bool :=
  match nn, m, ip with
  | n0 :: nn', m0 :: m', x0 :: ip' =>
      if Z.land n0 m0 =? Z.land x0 m0 then same_prefix nn' m' ip' else false
  | _, _, _ => true
  end.

(** [n.Contains(ip)]. *)
Definition Contains (n : IPNet) (ip : IP) : bool :=
  let '(nn, m) := networkNumberAndMask n in
  let ip := if is_nil (To4 ip) then ip else To4 ip in
  if Nat.eqb (length ip) (length nn) then same_prefix nn m ip else false.

(** [^byte(x)] on an 8-bit value. *)
Definition byte_not (x : Z) : Z := Z.lxor x 255.

(** The loop of [CIDRMask] over the [l] bytes of the mask, [n] the number
    of one bits still to place. *)
Fixpoint CIDRMask_loop (l : nat) (n : Z) : IPMask :=
  match l with
  | O => []
  | S l' =>
      if 8 <=? n then 255 :: CIDRMask_loop l' (n - 8)
      else byte_not (Z.shiftr 255 n) :: CIDRMask_loop l' 0
  end.

(** [CIDRMask(ones, bits)]. *)
Definition CIDRMask (ones bits : Z) : IPMask :=
  if negb (bits =? 32) && negb (bits =? 128) then []
  else if (ones <? 0) || (bits <? ones) then []
  else CIDRMask_loop (Z.to_nat (bits / 8)) ones.

(** What [ParseCIDR] returns for the IPv4 block [a.b.c.d/p]: the address
    in its 16-byte form and the network [{IP: ip.Mask(m), Mask: m}] with
    [m = CIDRMask(p, 32)]. *)
Definition cidr_v4 (a b c d p : Z) : IP * IPNet :=
  let m := CIDRMask p 32 in
  let ip := v4InV6Prefix ++ [a; b; c; d] in
  (ip, mkIPNet (Mask ip m) m).

End net.
Import net.

(* ================================================================== *)
(** ** [inc] and the dispatch loop of [main] *)

(** [inc(ip)]: the loop over [j = len(ip)-1 .. 0]; [n] is [j+1]. *)
Fixpoint inc_loop (n : nat) (ip : IP) : IP :=
  match n with
  | O => ip
  | S j =>
      if nth j ip 0 <? 255 then set_nth j (nth j ip 0 + 1) ip
      else inc_loop j (set_nth j 0 ip)
  end.

Definition inc (ip : IP) : IP := inc_loop (length ip) ip.

(** The loop [for ip := start; ipnet.Contains(ip); inc(ip)] of [main],
    returning the addresses handed to the goroutines (the copies
    [currentIP]), or [None] when [fuel] iterations do not reach the exit. *)
Fixpoint enumerate (fuel : nat) (ipnet : IPNet) (ip : IP) : option (list IP) :=
  match fuel with
  | O => None
  | S f =>
      if Contains ipnet ip
      then option_map (cons ip) (enumerate f ipnet (inc ip))
      else Some []
  end.

(** The first [k] addresses the loop visits when it is not stopped. *)
Fixpoint visited (k : nat) (ip : IP) : list IP :=
  match k with
  | O => []
  | S k' => ip :: visited k' (inc ip)
  end.

(** The loop's first address, [ip.Mask(ipnet.Mask)]. *)
Definition loop_start (c : IP * IPNet) : IP := Mask (fst c) (net_Mask (snd c)).

(** Numeric value of a 4-byte address, big endian, and its inverse. *)
Definition ip_val (ip : IP) : Z := fold_left (fun acc b => acc * 256 + b) ip 0.

Definition ip_of_val (v : Z) : IP :=
  [(v / 16777216) mod 256; (v / 65536) mod 256; (v / 256) mod 256; v mod 256].

Definition Zrange (base : Z) (n : nat) : list Z :=
  map (fun i => base + Z.of_nat i) (seq 0 n).

(** The bytes [CIDRMask] can produce: [k] leading one bits, [k = 0..8]. *)
Definition mask_bytes : list Z := [0; 128; 192; 224; 240; 248; 252; 254; 255].

(* ================================================================== *)
(** ** Strings: [strings.Split], [net.JoinHostPort], [IP.String] *)

Local Open Scope string_scope.

Definition LF : string := String (ascii_of_nat 10) EmptyString.

(** [strings.Split(s, sep)] for a one-byte separator: the substrings
    between the separators, empty ones included; the empty string gives one empty substring. *)
Fixpoint Split (s : string) (sep : ascii) : list string :=
  match s with
  | EmptyString => [EmptyString]
  | String c s' =>
      if Ascii.eqb c sep then EmptyString :: Split s' sep
      else match Split s' sep with
           | [] => [String c EmptyString]
           | h :: t => String c h :: t
           end
  end.

(** [bytealg.IndexByteString(s, c) >= 0]. *)
Fixpoint has_byte (c : ascii) (s : string) : bool :=
  match s with
  | EmptyString => false
  | String x s' => Ascii.eqb x c || has_byte c s'
  end.

(** [net.JoinHostPort(host, port)]: a host with a colon in it is taken
    for a literal IPv6 address and put in brackets. *)
Definition JoinHostPort (host port : string) : string :=
  if has_byte ":" host
  then "[" ++ host ++ "]:" ++ port
  else host ++ ":" ++ port.

Definition digit (n : Z) : ascii := ascii_of_nat (48 + Z.to_nat n).

(** Decimal text of a byte ([ubtoa] of Go's [net]). *)
Definition ubtoa (v : Z) : string :=
  if (v <? 10)%Z then String (digit v) EmptyString
  else if (v <? 100)%Z then String (digit (v / 10)) (String (digit (v mod 10)) EmptyString)
  else String (digit (v / 100))
         (String (digit ((v / 10) mod 10)) (String (digit (v mod 10)) EmptyString)).

Fixpoint dotted (p4 : list Z) : string :=
  match p4 with
  | [] => EmptyString
  | [x] => ubtoa x
  | x :: t => ubtoa x ++ "." ++ dotted t
  end.

(** [ip.String()]: dotted decimal for an IPv4 address; [other] is the text
    Go gives the remaining forms (IPv6 and malformed lengths). *)
Definition IP_String (other : IP -> string) (ip : IP) : string :=
  match ip with
  | [] => "<nil>"
  | _ => if Nat.eqb (List.length (To4 ip)) IPv4len then dotted (To4 ip)
         else other ip
  end.

(* ================================================================== *)
(** ** Data of the scanner *)

(** A Go [error]: [None] is [nil], [Some msg] an error with its message. *)
Definition error := option string.

(** A result returned next to an error: [(v, nil)] or [(_, err)]. *)
Inductive result (A : Type) : Type :=
| Ok (a : A)
| Err (e : string).
Arguments Ok {A} a.
Arguments Err {A} e.

(** [dns.Question], the fields [SetQuestion] fills in. *)
Record Question := mkQuestion { Name : string; Qtype : Z }.

Definition TypeA : Z := 1.

(** [dns.TypeToString] at the record types the program asks for. *)
Definition TypeToString (t : Z) : string := if (t =? TypeA)%Z then "A" else EmptyString.

(** A [dns.RR] of a response, by its [String()] text. *)
Definition RR := string.

(** [DnsQuery], a row of the table [dns_queries]. *)
Record DnsQuery := mkDnsQuery {
  Timestamp : Z;
  Ip : string;
  Domain : string;
  Query : string;
  Answer : string
}.

(** The command-line flags read by [main]. *)
Record Flags := mkFlags {
  flag_domain : string;
  flag_network : string;
  flag_timeout : Z;
  flag_domains : string;
  flag_db : string;
  flag_goroutines : Z
}.

(** What the program does to the outside, with the outcome it got. *)
Inductive Event : Type :=
| EvExchange (q : Question) (server : string) (r : result (list RR))
| EvInsert (ip domain query answer : string) (e : error)
| EvPrintf (msg : string).

(** The collaborators outside the repository: the libraries ([ipcipher],
    [miekg/dns], [net], [sqlx]) and the network, database and clock behind
    them, whose state is [World]. *)
Record Env := mkEnv {
  World : Type;
  EncodeIPAddress : IP -> list string -> string;
  IsFqdn : string -> bool;
  ip_String_other : IP -> string;
  ParseCIDR : string -> result (IP * IPNet);
  BuildDictionary : string -> result (list string);
  sqlx_Open : string -> error;
  Exec_schema : string -> error;
  client_Exchange : World -> Question -> string -> result (list RR) * World;
  db_Preparex : World -> error * World;
  stmt_Exec : World -> DnsQuery -> error * World;
  time_Now : World -> Z
}.

(* ================================================================== *)
(** ** The effects of a task, as a free monad *)

(** A task is a tree of requests to the outside: a DNS exchange, an insert
    into the table, a log line.  Each request is one atomic step of the
    goroutine that runs the task. *)
Inductive Prog (A : Type) : Type :=
| Ret (a : A)
| Exchange (q : Question) (server : string) (k : result (list RR) -> Prog A)
| InsertIntoDB (ip domain query answer : string) (k : error -> Prog A)
| Printf (msg : string) (k : Prog A).
Arguments Ret {A} a.
Arguments Exchange {A} q server k.
Arguments InsertIntoDB {A} ip domain query answer k.
Arguments Printf {A} msg k.

Fixpoint bind {A B : Type} (p : Prog A) (f : A -> Prog B) : Prog B :=
  match p with
  | Ret a => f a
  | Exchange q server k => Exchange q server (fun r => bind (k r) f)
  | InsertIntoDB ip domain query answer k =>
      InsertIntoDB ip domain query answer (fun e => bind (k e) f)
  | Printf msg k => Printf msg (bind k f)
  end.

Declare Scope prog_scope.
Delimit Scope prog_scope with prog.
Notation "x <- p ;; q" := (bind p (fun x => q))
  (at level 61, p at next level, right associativity) : prog_scope.
Notation "p ;;; q" := (bind p (fun _ => q))
  (at level 61, right associativity) : prog_scope.
Local Open Scope prog_scope.

(** [for _, x := range l { body }]. *)
Fixpoint for_range {A : Type} (l : list A) (body : A -> Prog unit) : Prog unit :=
  match l with
  | [] => Ret tt
  | x :: t => body x ;;; for_range t body
  end.

(* ================================================================== *)
(** ** The per-host task: [performDNSQuery], [insertIntoDB],
       [queryAdditionalDNS], [queryDNS] *)

Section Task.

Variable E : Env.

Definition ip_String (ip : IP) : string := IP_String (ip_String_other E) ip.

(** [dns.Fqdn(s)]. *)
Definition Fqdn (s : string) : string := if IsFqdn E s then s else s ++ ".".

(** [fmt.Sprintf("%s %s", q.Name, dns.TypeToString[q.Qtype])]. *)
Definition dnsQuestionToString (q : Question) : string :=
  Name q ++ " " ++ TypeToString (Qtype q).

(** Each record's text followed by a newline. *)
Fixpoint dnsRRToString (rr : list RR) : string :=
  match rr with
  | [] => EmptyString
  | r :: rest => r ++ LF ++ dnsRRToString rest
  end.

Definition performDNSQuery (fqdn : string) (ip : IP)
  : Prog (result (string * string)) :=
  let question := mkQuestion (Fqdn fqdn) TypeA in
  Exchange question (JoinHostPort (ip_String ip) "53") (fun resp =>
    match resp with
    | Err err => Ret (Err err)
    | Ok answers =>
        let query := dnsQuestionToString question in
        let answer := dnsRRToString answers in
        Ret (Ok (query, answer))
    end).

(** The task's call of [insertIntoDB]; what the call does to the
    database is [do_insertIntoDB] below. *)
Definition insertIntoDB (ip domain query answer : string) : Prog error :=
  InsertIntoDB ip domain query answer (fun e => Ret e).

Definition queryAdditionalDNS (ip : IP) (additionalDomain : string)
           (dictionary : list string) : Prog error :=
  r <- performDNSQuery additionalDomain ip ;;
  match r with
  | Err err => Ret (Some err)
  | Ok (query, answer) =>
      insertIntoDB (ip_String ip) additionalDomain query answer
  end.

(** The body of the loop over the additional domains. *)
Definition additional_body (ip : IP) (dictionary : list string)
           (additionalDomain : string) : Prog unit :=
  e <- queryAdditionalDNS ip additionalDomain dictionary ;;
  match e with
  | Some err => Printf ("Error querying additional DNS: " ++ err ++ LF) (Ret tt)
  | None => Ret tt
  end.

(** The loop over [strings.Split] of the [-domains] flag at [","], entered
    only when the flag is not the empty string. *)
Definition additional_loop (ip : IP) (domains : string)
           (dictionary : list string) : Prog unit :=
  if String.eqb domains EmptyString then Ret tt
  else for_range (Split domains ",") (additional_body ip dictionary).

Definition queryDNS (ip : IP) (domain domains : string)
           (dictionary : list string) : Prog error :=
  let subdomain := EncodeIPAddress E ip dictionary in
  let fqdn := subdomain ++ "." ++ domain in
  r <- performDNSQuery fqdn ip ;;
  match r with
  | Err err => Ret (Some ("query request failed: " ++ err))
  | Ok (query, answer) =>
      e <- insertIntoDB (ip_String ip) domain query answer ;;
      match e with
      | Some err => Ret (Some err)
      | None =>
          additional_loop ip domains dictionary ;;;
          Ret None
      end
  end.

(** The additional domains a run is configured with: the segments of the
    [-domains] flag, none when the flag is empty. *)
Definition additional_domains (domains : string) : list string :=
  if String.eqb domains EmptyString then [] else Split domains ",".

(* ---------------------------------------------------------------- *)
(** *** Running a task against the outside *)

(** The table, the state of the outside and what has happened so far. *)
Record Store := mkStore {
  world : World E;
  table : list DnsQuery;
  trace : list Event
}.

(** [insertIntoDB]: [db.Preparex], then [stmt.Exec(time.Now(), ...)];
    either error is returned as it is, and only a successful [Exec] adds
    the row. *)
Definition do_insertIntoDB (ip domain query answer : string) (s : Store)
  : error * Store :=
  let log e := (trace s ++ [EvInsert ip domain query answer e])%list in
  match db_Preparex E (world s) with
  | (Some err, w1) => (Some err, mkStore w1 (table s) (log (Some err)))
  | (None, w1) =>
      let row := mkDnsQuery (time_Now E w1) ip domain query answer in
      match stmt_Exec E w1 row with
      | (Some err, w2) => (Some err, mkStore w2 (table s) (log (Some err)))
      | (None, w2) => (None, mkStore w2 (table s ++ [row]) (log None))
      end
  end.

(** [client.Exchange(&msg, server)]. *)
Definition do_Exchange (q : Question) (server : string) (s : Store)
  : result (list RR) * Store :=
  let (r, w1) := client_Exchange E (world s) q server in
  (r, mkStore w1 (table s) (trace s ++ [EvExchange q server r])%list).

(** [log.Printf]. *)
Definition do_Printf (msg : string) (s : Store) : Store :=
  mkStore (world s) (table s) (trace s ++ [EvPrintf msg])%list.

(** One request of a task. *)
Definition step_prog {A : Type} (p : Prog A) (s : Store) : Prog A * Store :=
  match p with
  | Ret a => (Ret a, s)
  | Exchange q server k =>
      let (r, s1) := do_Exchange q server s in (k r, s1)
  | InsertIntoDB ip domain query answer k =>
      let (e, s1) := do_insertIntoDB ip domain query answer s in (k e, s1)
  | Printf msg k => (k, do_Printf msg s)
  end.

(** A task run to its end without interruption. *)
Fixpoint run {A : Type} (p : Prog A) (s : Store) : A * Store :=
  match p with
  | Ret a => (a, s)
  | Exchange q server k =>
      let (r, s1) := do_Exchange q server s in run (k r) s1
  | InsertIntoDB ip domain query answer k =>
      let (e, s1) := do_insertIntoDB ip domain query answer s in run (k e) s1
  | Printf msg k => run k (do_Printf msg s)
  end.

(** The exchanges of a trace: question name and server, in order. *)
Fixpoint exchanges (t : list Event) : list (string * string) :=
  match t with
  | [] => []
  | EvExchange q server _ :: t' => (Name q, server) :: exchanges t'
  | _ :: t' => exchanges t'
  end.

(** The calls of [insertIntoDB] in a trace, with their outcome. *)
Fixpoint inserts (t : list Event) : list (string * string * string * string * error) :=
  match t with
  | [] => []
  | EvInsert ip domain query answer e :: t' =>
      (ip, domain, query, answer, e) :: inserts t'
  | _ :: t' => inserts t'
  end.

(* ---------------------------------------------------------------- *)
(** *** [main]: start-up, dispatch loop, goroutines *)

Definition initializeDB (dbFile : string) : error :=
  match sqlx_Open E dbFile with
  | Some err => Some err
  | None => Exec_schema E dbFile
  end.

(** A goroutine started by [main]. *)
Inductive Goroutine : Type :=
| GQuery (p : Prog error)   (* inside queryDNS *)
| GRelease                  (* at the receive from semaphore *)
| GDone                     (* at the deferred wg.Done *)
| GExited.

(** Where [main] is. *)
Inductive MainPhase : Type :=
| MLoop (dictionary : list string) (ipnet : IPNet) (ip : IP)
| MWait
| MReturned
| MFatal (msg : string)
| MPanic.

Record State := mkState {
  pc : MainPhase;
  goroutines : list (IP * Goroutine);
  semaphore : Z;            (* len(semaphore) *)
  wg : Z;                   (* the counter of the WaitGroup *)
  store : Store
}.

(** [main] up to the dispatch loop.  [log.Fatalf] ends the program;
    [make(chan struct{}, n)] panics for a negative [n]. *)
Definition main_start (f : Flags) : MainPhase :=
  match BuildDictionary E "dictionary.txt" with
  | Err err => MFatal ("Error building dictionary: " ++ err ++ LF)
  | Ok dictionary =>
      match initializeDB (flag_db f) with
      | Some err => MFatal ("Error initializing database: " ++ err ++ LF)
      | None =>
          match ParseCIDR E (flag_network f) with
          | Err err => MFatal ("Error parsing CIDR: " ++ err ++ LF)
          | Ok (ip, ipnet) =>
              if (flag_goroutines f <? 0)%Z then MPanic
              else MLoop dictionary ipnet (Mask ip (net_Mask ipnet))
          end
      end
  end.

Definition main_init (f : Flags) (s0 : Store) : State :=
  mkState (main_start f) [] 0 0 s0.

(** One step of [main]: an iteration of the dispatch loop (blocked while
    the channel is full), the exit of the loop, or the return from
    [wg.Wait()] (blocked while the counter is not zero).  The goroutine
    gets [currentIP], a copy of the loop variable, so the [inc] that
    follows does not change the address it works on. *)
Definition step_main (f : Flags) (st : State) : option State :=
  match pc st with
  | MLoop dictionary ipnet ip =>
      if Contains ipnet ip then
        if (semaphore st <? flag_goroutines f)%Z then
          let currentIP := ip in
          let g := GQuery (queryDNS currentIP (flag_domain f) (flag_domains f)
                                    dictionary) in
          Some (mkState (MLoop dictionary ipnet (inc ip))
                        (goroutines st ++ [(currentIP, g)])%list
                        (semaphore st + 1) (wg st + 1) (store st))
        else None
      else Some (mkState MWait (goroutines st) (semaphore st) (wg st) (store st))
  | MWait =>
      if (wg st =? 0)%Z
      then Some (mkState MReturned (goroutines st) (semaphore st) (wg st) (store st))
      else None
  | _ => None
  end.

(** Replace the [i]-th goroutine. *)
Fixpoint set_goroutine (i : nat) (g : Goroutine) (l : list (IP * Goroutine))
  : list (IP * Goroutine) :=
  match l, i with
  | [], _ => []
  | (ip, _) :: t, O => (ip, g) :: t
  | h :: t, S j => h :: set_goroutine j g t
  end.

(** One step of the [i]-th goroutine: a request of [queryDNS], the log
    line after a failed [queryDNS], the receive from the channel (blocked
    on an empty channel), the deferred [wg.Done()]. *)
Definition step_goroutine (i : nat) (st : State) : option State :=
  match nth_error (goroutines st) i with
  | None => None
  | Some (_, g) =>
      let upd g' := set_goroutine i g' (goroutines st) in
      match g with
      | GQuery (Ret None) =>
          Some (mkState (pc st) (upd GRelease) (semaphore st) (wg st) (store st))
      | GQuery (Ret (Some err)) =>
          Some (mkState (pc st) (upd GRelease) (semaphore st) (wg st)
                        (do_Printf ("Error querying DNS: " ++ err ++ LF) (store st)))
      | GQuery p =>
          let (p', s1) := step_prog p (store st) in
          Some (mkState (pc st) (upd (GQuery p')) (semaphore st) (wg st) s1)
      | GRelease =>
          if (0 <? semaphore st)%Z
          then Some (mkState (pc st) (upd GDone) (semaphore st - 1) (wg st) (store st))
          else None
      | GDone =>
          Some (mkState (pc st) (upd GExited) (semaphore st) (wg st - 1) (store st))
      | GExited => None
      end
  end.

(** The scheduler's choice of who runs next. *)
Inductive Choice : Type :=
| RunMain
| RunGoroutine (i : nat).

Definition step (f : Flags) (c : Choice) (st : State) : option State :=
  match c with
  | RunMain => step_main f st
  | RunGoroutine i => step_goroutine i st
  end.

Fixpoint exec (f : Flags) (sched : list Choice) (st : State) : option State :=
  match sched with
  | [] => Some st
  | c :: cs =>
      match step f c st with
      | Some st' => exec f cs st'
      | None => None
      end
  end.

(** The states of the program: those some schedule reaches. *)
Definition reachable (f : Flags) (s0 : Store) (st : State) : Prop :=
  exists sched, exec f sched (main_init f s0) = Some st.

(** Goroutines inside [queryDNS]. *)
Definition is_querying (g : IP * Goroutine) : bool :=
  match snd g with GQuery _ => true | _ => false end.

Definition is_exited (g : IP * Goroutine) : bool :=
  match snd g with GExited => true | _ => false end.

Definition executing (st : State) : nat :=
  List.length (filter is_querying (goroutines st)).

(** The addresses handed to goroutines so far, in dispatch order. *)
Definition dispatched (st : State) : list IP := map fst (goroutines st).

End Task.

(* ================================================================== *)
(** ** A small outside to run the program against *)

Module Sample.

(** A reading of IPv4 CIDR strings [a.b.c.d/p] in the manner of
    [net.ParseCIDR]: four decimal fields of at most 255 without leading
    zero, a decimal prefix length of at most 32. *)
Definition digit_val (c : ascii) : option Z :=
  let n := Z.of_nat (nat_of_ascii c) in
  if (48 <=? n)%Z && (n <=? 57)%Z then Some (n - 48)%Z else None.

Fixpoint decimal (s : string) (acc : Z) : option Z :=
  match s with
  | EmptyString => Some acc
  | String c s' =>
      match digit_val c with
      | Some d => decimal s' (acc * 10 + d)%Z
      | None => None
      end
  end.

Definition parse_number (s : string) : option Z :=
  match s with
  | EmptyString => None
  | _ => decimal s 0
  end.

Definition parse_field (s : string) : option Z :=
  match s, parse_number s with
  | String "0" (String _ _), _ => None
  | _, Some v => if (v <=? 255)%Z then Some v else None
  | _, None => None
  end.

Definition parse_cidr (s : string) : result (IP * IPNet) :=
  let bad := Err ("invalid CIDR address: " ++ s) in
  match Split s "/" with
  | [addr; mask] =>
      match map parse_field (Split addr "."), parse_number mask with
      | [Some a; Some b; Some c; Some d], Some p =>
          if (p <=? 32)%Z then Ok (cidr_v4 a b c d p) else bad
      | _, _ => bad
      end
  | _ => bad
  end.

(** [dns.IsFqdn] on names without escapes: the name ends with a dot. *)
Fixpoint ends_with_dot (s : string) : bool :=
  match s with
  | EmptyString => false
  | String c EmptyString => Ascii.eqb c "."
  | String _ s' => ends_with_dot s'
  end.

(** What the sample resolvers and database do, by the number of requests
    seen so far ([World := nat]). *)
Definition sample_env
           (exchange : nat -> Question -> string -> result (list RR))
           (prepare : nat -> error)
           (exec_ : nat -> DnsQuery -> error) : Env :=
  mkEnv nat
        (fun ip _ => "tok-" ++ dotted ip)
        ends_with_dot
        (fun _ => "?")
        parse_cidr
        (fun _ => Ok [])
        (fun _ => None)
        (fun _ => None)
        (fun w q server => (exchange w q server, S w))
        (fun w => (prepare w, S w))
        (fun w row => (exec_ w row, S w))
        (fun w => Z.of_nat w).

(** Every resolver answers with one record, every insert succeeds. *)
Definition all_ok : Env :=
  sample_env (fun _ q _ => Ok [Name q ++ " 60 IN A 192.0.2.1"])
             (fun _ => None) (fun _ _ => None).

(** No resolver answers the question for a token name (name starting
    with [tok-]); every other question is answered. *)
Definition primary_times_out : Env :=
  sample_env (fun _ q _ =>
                if String.eqb (substring 0 4 (Name q)) "tok-"
                then Err "i/o timeout" else Ok [])
             (fun _ => None) (fun _ _ => None).

(** Every resolver answers; the first insert of the run fails. *)
Definition first_insert_fails : Env :=
  sample_env (fun _ _ _ => Ok [])
             (fun _ => None)
             (fun w _ => if Nat.eqb w 2 then Some "database is locked" else None).

(** Every resolver answers; the insert of the second record fails. *)
Definition second_insert_fails : Env :=
  sample_env (fun _ _ _ => Ok [])
             (fun _ => None)
             (fun w _ => if Nat.eqb w 5 then Some "database is locked" else None).

(** The resolver does not answer for [bad.example]. *)
Definition one_additional_times_out : Env :=
  sample_env (fun _ q _ =>
                if String.eqb (Name q) "bad.example."
                then Err "i/o timeout" else Ok [])
             (fun _ => None) (fun _ _ => None).

Definition store0 (E : Env) (w : World E) : Store E := mkStore E w [] [].

Definition flags (network domains : string) (n : Z) : Flags :=
  mkFlags "example.com" network 5 domains "dns.db" n.

(** The state a schedule leads to, the initial state when the schedule
    cannot be run. *)
Definition after (E : Env) (f : Flags) (w : World E) (sched : list Choice)
  : State E :=
  match exec E f sched (main_init E f (store0 E w)) with
  | Some st => st
  | None => main_init E f (store0 E w)
  end.

(** The schedule that runs every goroutine to its end right after it was
    dispatched: [main], then [k] steps of goroutine [i], for [i < n]. *)
Fixpoint one_by_one (n : nat) (k : nat) (i : nat) : list Choice :=
  match n with
  | O => []
  | S n' => RunMain :: repeat (RunGoroutine i) k ++ one_by_one n' k (S i)
  end%list.

(** A scan of 10.0.0.8/30 with one additional domain and two slots. *)
Definition scan30 : Flags := flags "10.0.0.8/30" "b.example" 2.

(** Two goroutines started, each one request into its task. *)
Definition two_started : State all_ok :=
  after all_ok scan30 0%nat [RunMain; RunMain; RunGoroutine 0; RunGoroutine 1].

(** The four tasks run one after the other, then [main] returns. *)
Definition finished : State all_ok :=
  after all_ok scan30 0%nat (one_by_one 4 7 0 ++ [RunMain; RunMain])%list.

(** A network flag [net.ParseCIDR] rejects. *)
Definition bad_network : Flags := flags "10.0.0.8/33" "b.example" 2.

End Sample.
(* ================================================================== *)
(** ** Vocabulary of the properties of a task *)

Section TaskSpec.

Variable E : Env.

(** The question and the server of the query for [name] against [ip]. *)
Definition question_of (name : string) : Question := mkQuestion (Fqdn E name) TypeA.
Definition server_of (ip : IP) : string := JoinHostPort (ip_String E ip) "53".

(** The name of the primary query. *)
Definition primary_name (ip : IP) (domain : string) (dictionary : list string)
  : string :=
  EncodeIPAddress E ip dictionary ++ "." ++ domain.

(** The first part of [queryDNS]: the primary query and the insert of
    its record, up to the test of the insert's error. *)
Definition primary_step (ip : IP) (domain : string) (dictionary : list string)
  : Prog error :=
  r <- performDNSQuery E (primary_name ip domain dictionary) ip ;;
  match r with
  | Err err => Ret (Some ("query request failed: " ++ err))
  | Ok (query, answer) => insertIntoDB (ip_String E ip) domain query answer
  end.

(** The events a run of [p] from [s] adds to the trace. *)
Definition events_of {A : Type} (p : Prog A) (s : Store E) : list Event :=
  skipn (List.length (trace E s)) (trace E (snd (run E p s))).

(** The rows a run of [p] from [s] adds to the table. *)
Definition rows_of {A : Type} (p : Prog A) (s : Store E) : list DnsQuery :=
  skipn (List.length (table E s)) (table E (snd (run E p s))).

(** The columns of a row other than the timestamp. *)
Definition fields (r : DnsQuery) : string * string * string * string :=
  (Ip r, Domain r, Query r, Answer r).

(** The inserts of a trace that succeeded. *)
Fixpoint stored (t : list Event) : list (string * string * string * string) :=
  match t with
  | [] => []
  | EvInsert ip domain query answer None :: t' =>
      (ip, domain, query, answer) :: stored t'
  | _ :: t' => stored t'
  end.

(** What the loop over the additional domains [ds] does for the host
    [ip]: domain after domain, the query for the domain as it was given,
    sent to [ip]; then the insert of the record, or a log line where the
    query or the insert failed. *)
Inductive additional_events (ip : IP) : list string -> list Event -> Prop :=
| ae_done : additional_events ip [] []
| ae_query_failed d ds err t :
    additional_events ip ds t ->
    additional_events ip (d :: ds)
      (EvExchange (question_of d) (server_of ip) (Err err)
       :: EvPrintf ("Error querying additional DNS: " ++ err ++ LF) :: t)
| ae_stored d ds answers t :
    additional_events ip ds t ->
    additional_events ip (d :: ds)
      (EvExchange (question_of d) (server_of ip) (Ok answers)
       :: EvInsert (ip_String E ip) d (dnsQuestionToString (question_of d))
                   (dnsRRToString answers) None :: t)
| ae_insert_failed d ds answers err t :
    additional_events ip ds t ->
    additional_events ip (d :: ds)
      (EvExchange (question_of d) (server_of ip) (Ok answers)
       :: EvInsert (ip_String E ip) d (dnsQuestionToString (question_of d))
                   (dnsRRToString answers) (Some err)
       :: EvPrintf ("Error querying additional DNS: " ++ err ++ LF) :: t).

(** [x] occurs in [s]. *)
Definition contains (s x : string) : Prop :=
  exists pre post, s = pre ++ x ++ post.

(** Claim C1 as the specification words it, at one task: when the primary
    query or the insert of its record fails, no record of the primary
    domain is stored and every additional domain is still queried. *)
Definition primary_failure_isolated (s : Store E) (ip : IP)
           (domain domains : string) (dictionary : list string) : Prop :=
  fst (run E (primary_step ip domain dictionary) s) <> None ->
  let t := events_of (queryDNS E ip domain domains dictionary) s in
  (forall query answer,
      ~ In (ip_String E ip, domain, query, answer) (stored t))
  /\ (forall d, In d (additional_domains domains) ->
                In (Fqdn E d, server_of ip) (exchanges t)).

(** Claim C5 as the specification words it, at one task: after an insert
    that failed, the queries that remain are still made, so every
    additional domain is queried. *)
Definition insert_failure_isolated (s : Store E) (ip : IP)
           (domain domains : string) (dictionary : list string) : Prop :=
  let t := events_of (queryDNS E ip domain domains dictionary) s in
  (exists i d q a err, In (i, d, q, a, Some err) (inserts t)) ->
  forall d, In d (additional_domains domains) ->
            In (Fqdn E d, server_of ip) (exchanges t).

(** Claim C6 as the specification words it, at one task: the additional
    domains are queried in the given order, each by its own name at the
    scanned address. *)
Definition additional_always_queried (s : Store E) (ip : IP)
           (domain domains : string) (dictionary : list string) : Prop :=
  let t := events_of (queryDNS E ip domain domains dictionary) s in
  exists first,
    exchanges t
    = (first :: map (fun d => (Fqdn E d, server_of ip))
                    (additional_domains domains))%list.

(** Claim C10 as the specification words it, at one task with the flag
    [-domains] set to [example.com,]: the host gets one more query, for
    the empty name. *)
Definition empty_segment_queried (s : Store E) (ip : IP)
           (domain : string) (dictionary : list string) : Prop :=
  let t := events_of (queryDNS E ip domain "example.com," dictionary) s in
  In (Fqdn E EmptyString, server_of ip) (exchanges t).

End TaskSpec.

(** The exchanges of a trace that got an answer. *)
Fixpoint answered (t : list Event) : nat :=
  match t with
  | [] => O
  | EvExchange _ _ (Ok _) :: t' => S (answered t')
  | _ :: t' => answered t'
  end.

(* ================================================================== *)
(** ** Vocabulary of the properties of the scheduler *)

Section SchedulerSpec.

Variable E : Env.

(** Goroutines that hold a slot of the channel: dispatched and not yet
    past the receive. *)
Definition holds_slot (g : IP * Goroutine) : bool :=
  match snd g with
  | GQuery _ | GRelease => true
  | _ => false
  end.

Definition alive (g : IP * Goroutine) : bool := negb (is_exited g).

Definition count (P : IP * Goroutine -> bool) (l : list (IP * Goroutine)) : Z :=
  Z.of_nat (List.length (filter P l)).

(** What holds of the program in every state of a run that got past the
    start-up with the network [ipnet] and the first address [start]. *)
Definition scheduler_inv (f : Flags) (ipnet : IPNet) (start : IP)
           (st : State E) : Prop :=
  semaphore E st = count holds_slot (goroutines E st)
  /\ wg E st = count alive (goroutines E st)
  /\ (semaphore E st <= Z.max 0 (flag_goroutines f))%Z
  /\ dispatched E st = visited (List.length (goroutines E st)) start
  /\ Forall (fun ip => Contains ipnet ip = true) (dispatched E st)
  /\ match pc E st with
     | MLoop _ ipnet' ip =>
         ipnet' = ipnet
         /\ ip = Nat.iter (List.length (goroutines E st)) inc start
     | MWait =>
         enumerate (S (List.length (goroutines E st))) ipnet start
         = Some (dispatched E st)
     | MReturned =>
         enumerate (S (List.length (goroutines E st))) ipnet start
         = Some (dispatched E st)
         /\ wg E st = 0%Z
     | _ => False
     end.

(** Every resolver answers and every insert succeeds, whatever the state
    of the outside. *)
Definition all_succeed : Prop :=
  (forall w q server, exists answers,
        fst (client_Exchange E w q server) = Ok answers)
  /\ (forall w, fst (db_Preparex E w) = None)
  /\ (forall w row, fst (stmt_Exec E w row) = None).

(** [inserts_left p n]: when every request succeeds, [p] still makes
    exactly [n] inserts. *)
Inductive inserts_left {A : Type} : Prog A -> nat -> Prop :=
| il_Ret a : inserts_left (Ret a) 0
| il_Exchange q server k n :
    (forall answers, inserts_left (k (Ok answers)) n) ->
    inserts_left (Exchange q server k) n
| il_Insert ip domain query answer k n :
    inserts_left (k None) n ->
    inserts_left (InsertIntoDB ip domain query answer k) (S n)
| il_Printf msg k n :
    inserts_left k n -> inserts_left (Printf msg k) n.

(** The inserts one goroutine still makes when every request succeeds. *)
Definition pending_of (g : Goroutine) (n : nat) : Prop :=
  match g with
  | GQuery p => inserts_left p n
  | _ => n = O
  end.

(** The inserts the goroutines of a state still make between them. *)
Inductive pending : list (IP * Goroutine) -> nat -> Prop :=
| pending_nil : pending [] 0
| pending_cons ip g n l m :
    pending_of g n -> pending l m -> pending ((ip, g) :: l) (n + m).

(** The number of additional domains a run is configured with. *)
Definition additional_count (f : Flags) : nat :=
  List.length (additional_domains (flag_domains f)).

Definition records_inv (f : Flags) (s0 : Store E) (st : State E) : Prop :=
  exists m,
    pending (goroutines E st) m
    /\ (List.length (table E (store E st)) + m
        = List.length (table E s0)
          + List.length (goroutines E st) * (1 + additional_count f))%nat.

(** [steps_left p n]: whatever the outside answers, [p] makes at most
    [n] more requests. *)
Inductive steps_left {A : Type} : Prog A -> nat -> Prop :=
| sl_Ret a n : steps_left (Ret a) n
| sl_Exchange q server k n :
    (forall r, steps_left (k r) n) -> steps_left (Exchange q server k) (S n)
| sl_Insert ip domain query answer k n :
    (forall e, steps_left (k e) n) ->
    steps_left (InsertIntoDB ip domain query answer k) (S n)
| sl_Printf msg k n :
    steps_left k n -> steps_left (Printf msg k) (S n).

(** A bound on the steps a goroutine still takes: its requests, the
    return from [queryDNS], the receive and [wg.Done()]. *)
Definition goroutine_bound (g : Goroutine) (n : nat) : Prop :=
  match g with
  | GQuery p => exists k, steps_left p k /\ n = (k + 3)%nat
  | GRelease => n = 2%nat
  | GDone => n = 1%nat
  | GExited => n = 0%nat
  end.

Inductive goroutines_bound : list (IP * Goroutine) -> nat -> Prop :=
| gb_nil : goroutines_bound [] 0
| gb_cons ip g n l m :
    goroutine_bound g n -> goroutines_bound l m ->
    goroutines_bound ((ip, g) :: l) (n + m).

(** The requests of one task: two for the primary domain, at most three
    for each additional domain. *)
Definition task_bound (f : Flags) : nat := (2 + 3 * additional_count f)%nat.

(** A bound on the steps [main] still takes, those of the goroutines it
    will start included. *)
Definition main_bound (f : Flags) (pc : MainPhase) (n : nat) : Prop :=
  match pc with
  | MLoop _ ipnet ip =>
      exists fuel l, enumerate fuel ipnet ip = Some l
                     /\ n = (List.length l * (task_bound f + 4) + 2)%nat
  | MWait => n = 1%nat
  | _ => n = 0%nat
  end.

(** [run_bound f st n]: no run from [st] has more than [n] steps. *)
Definition run_bound (f : Flags) (st : State E) (n : nat) : Prop :=
  exists a b, main_bound f (pc E st) a
              /\ goroutines_bound (goroutines E st) b
              /\ n = (a + b)%nat.

End SchedulerSpec.

(* ================================================================== *)
(** ** Vocabulary of the further properties *)

(** The newline byte written after each record by [dnsRRToString]. *)
Definition newline : ascii := ascii_of_nat 10.

(** The number of bytes [c] in [s]. *)
Fixpoint count_byte (c : ascii) (s : string) : nat :=
  match s with
  | EmptyString => O
  | String x s' => if Ascii.eqb x c then S (count_byte c s') else count_byte c s'
  end.

(** The segments put together again with [sep] between them. *)
Fixpoint join_with (sep : ascii) (segments : list string) : string :=
  match segments with
  | [] => EmptyString
  | [x] => x
  | x :: rest => x ++ String sep (join_with sep rest)
  end.

(** [only_inserts P p]: whatever the outside answers, every insert [p]
    still asks for has an address text and a domain that satisfy [P]. *)
Inductive only_inserts (P : string -> string -> Prop) {A : Type}
  : Prog A -> Prop :=
| oi_Ret a : only_inserts P (Ret a)
| oi_Exchange q server k :
    (forall r, only_inserts P (k r)) -> only_inserts P (Exchange q server k)
| oi_Insert ip domain query answer k :
    P ip domain -> (forall e, only_inserts P (k e)) ->
    only_inserts P (InsertIntoDB ip domain query answer k)
| oi_Printf msg k :
    only_inserts P k -> only_inserts P (Printf msg k).

(** The rows a scan may have written once the addresses [sent] have been
    handed to goroutines: the address is the text of one of them, the
    domain is the primary domain or one of the additional domains. *)
Definition row_of_scan (E : Env) (f : Flags) (sent : list IP)
           (ip domain : string) : Prop :=
  (exists a, In a sent /\ ip = ip_String E a)
  /\ (domain = flag_domain f \/ In domain (additional_domains (flag_domains f))).

(** A scan that went through the start-up of [main]. *)
Definition started (E : Env) (f : Flags) : Prop :=
  exists dictionary ipnet start, main_start E f = MLoop dictionary ipnet start.

(** [grows E P s s']: from [s] to [s'] the trace and the table were only
    added to, the rows added are those of the successful inserts added to
    the trace, and each has an address text and a domain that satisfy
    [P]. *)
Definition grows (E : Env) (P : string -> string -> Prop) (s s' : Store E) : Prop :=
  exists t rows,
    trace E s' = (trace E s ++ t)%list
    /\ table E s' = (table E s ++ rows)%list
    /\ map fields rows = stored t
    /\ Forall (fun r => P (Ip r) (Domain r)) rows.

(** What holds of the store and of the running tasks in every state of a
    scan: the store grew from [s0] by rows of this scan, and the tasks
    still to run ask only for such rows. *)
Definition scan_log_inv (E : Env) (f : Flags) (s0 : Store E) (st : State E) : Prop :=
  grows E (row_of_scan E f (dispatched E st)) s0 (store E st)
  /\ Forall (fun g => forall p, snd g = GQuery p ->
                                only_inserts (row_of_scan E f (dispatched E st)) p)
            (goroutines E st).

(* ================================================================== *)
(** ** Vocabulary of the properties of a whole scan *)

(** The events [t] hold the primary query of the task for [a]: the
    exchange for the token name of [a], sent to [a]. *)
Definition asked (E : Env) (f : Flags) (dictionary : list string)
           (t : list Event) (a : IP) : Prop :=
  exists r,
    In (EvExchange (question_of E (primary_name E a (flag_domain f) dictionary))
                   (server_of E a) r) t.

(** A goroutine works on the address it was started for: it is still at
    the call of [queryDNS] for that address, or the primary query for that
    address is among the events [t]. *)
Definition works_on_own_address (E : Env) (f : Flags) (dictionary : list string)
           (t : list Event) (g : IP * Goroutine) : Prop :=
  snd g = GQuery (queryDNS E (fst g) (flag_domain f) (flag_domains f) dictionary)
  \/ asked E f dictionary t (fst g).

(** What holds of the goroutines in every state of a scan that read the
    dictionary [dictionary]: each works on its own address, with [t] the
    events since the start of the scan. *)
Definition own_address_inv (E : Env) (f : Flags) (s0 : Store E)
           (dictionary : list string) (st : State E) : Prop :=
  (exists t,
      trace E (store E st) = (trace E s0 ++ t)%list
      /\ Forall (works_on_own_address E f dictionary t) (goroutines E st))
  /\ match pc E st with
     | MLoop dictionary' _ _ => dictionary' = dictionary
     | _ => True
     end.

(** The line a goroutine logs when [queryDNS] returned the error [e]. *)
Definition goroutine_log (e : error) : list Event :=
  match e with
  | Some err => [EvPrintf ("Error querying DNS: " ++ err ++ LF)]
  | None => []
  end.

(* ---------------------------------------------------------------- *)
(** *** [main] statement by statement

    [step_main] takes an iteration of the dispatch loop as one step.  Here
    the send to the channel, [wg.Add(1)] and the [go] statement are three
    steps of [main], and the goroutines may run between them. *)

Inductive Stage : Type :=
| AtSend    (* at the loop test and the send [semaphore <- struct{}{}] *)
| AtAdd     (* the token is sent; at [wg.Add(1)] *)
| AtGo.     (* the counter is raised; at the [go] statement *)

Record FineState (E : Env) : Type := mkFine {
  stage : Stage;
  at_state : State E
}.

Definition fine_init (E : Env) (f : Flags) (s0 : Store E) : FineState E :=
  mkFine E AtSend (main_init E f s0).

Definition step_main_fine (E : Env) (f : Flags) (fs : FineState E)
  : option (FineState E) :=
  let st := at_state E fs in
  match pc E st with
  | MLoop dictionary ipnet ip =>
      match stage E fs with
      | AtSend =>
          if Contains ipnet ip then
            if (semaphore E st <? flag_goroutines f)%Z then
              Some (mkFine E AtAdd
                      (mkState E (pc E st) (goroutines E st)
                               (semaphore E st + 1) (wg E st) (store E st)))
            else None
          else Some (mkFine E AtSend
                       (mkState E MWait (goroutines E st) (semaphore E st)
                                (wg E st) (store E st)))
      | AtAdd =>
          Some (mkFine E AtGo
                  (mkState E (pc E st) (goroutines E st) (semaphore E st)
                           (wg E st + 1) (store E st)))
      | AtGo =>
          let currentIP := ip in
          let g := GQuery (queryDNS E currentIP (flag_domain f) (flag_domains f)
                                    dictionary) in
          Some (mkFine E AtSend
                  (mkState E (MLoop dictionary ipnet (inc ip))
                           (goroutines E st ++ [(currentIP, g)])%list
                           (semaphore E st) (wg E st) (store E st)))
      end
  | MWait =>
      if (wg E st =? 0)%Z
      then Some (mkFine E AtSend
                   (mkState E MReturned (goroutines E st) (semaphore E st)
                            (wg E st) (store E st)))
      else None
  | _ => None
  end.

Definition step_fine (E : Env) (f : Flags) (c : Choice) (fs : FineState E)
  : option (FineState E) :=
  match c with
  | RunMain => step_main_fine E f fs
  | RunGoroutine i =>
      match step_goroutine E i (at_state E fs) with
      | Some st' => Some (mkFine E (stage E fs) st')
      | None => None
      end
  end.

Fixpoint exec_fine (E : Env) (f : Flags) (sched : list Choice) (fs : FineState E)
  : option (FineState E) :=
  match sched with
  | [] => Some fs
  | c :: cs =>
      match step_fine E f c fs with
      | Some fs' => exec_fine E f cs fs'
      | None => None
      end
  end.

Definition reachable_fine (E : Env) (f : Flags) (s0 : Store E) (fs : FineState E)
  : Prop :=
  exists sched, exec_fine E f sched (fine_init E f s0) = Some fs.

(** Tokens sent and counts added by [main] for a goroutine it has not
    started yet. *)
Definition sent_ahead (s : Stage) : Z :=
  match s with AtSend => 0 | _ => 1 end.

Definition added_ahead (s : Stage) : Z :=
  match s with AtGo => 1 | _ => 0 end.

(** What holds of the channel and the wait group in every state of the
    statement-level model. *)
Definition accounting_inv (E : Env) (f : Flags) (fs : FineState E) : Prop :=
  let st := at_state E fs in
  semaphore E st = (count holds_slot (goroutines E st) + sent_ahead (stage E fs))%Z
  /\ wg E st = (count alive (goroutines E st) + added_ahead (stage E fs))%Z
  /\ (semaphore E st <= Z.max 0 (flag_goroutines f))%Z
  /\ match pc E st with
     | MLoop _ _ _ => True
     | MReturned => stage E fs = AtSend /\ wg E st = 0%Z
     | _ => stage E fs = AtSend
     end.

(** The sample scan of 10.0.0.8/30 after the first send of [main]: the
    token is in the channel and no goroutine is started yet. *)
Definition sample_token_sent : FineState Sample.all_ok :=
  match exec_fine Sample.all_ok Sample.scan30 [RunMain]
                  (fine_init Sample.all_ok Sample.scan30
                             (Sample.store0 Sample.all_ok 0%nat)) with
  | Some fs => fs
  | None => fine_init Sample.all_ok Sample.scan30 (Sample.store0 Sample.all_ok 0%nat)
  end.

(* ================================================================== *)
(** * The model at work *)

Example inc_carries : inc [10; 0; 255; 255] = [10; 1; 0; 0].
Proof. reflexivity. Qed.

Example inc_wraps_around : inc [255; 255; 255; 255] = [0; 0; 0; 0].
Proof. reflexivity. Qed.

Example CIDRMask_20 : CIDRMask 20 32 = [255; 255; 240; 0].
Proof. reflexivity. Qed.

Example enumerate_slash30 :
  enumerate 5 (snd (cidr_v4 10 0 0 9 30)) (loop_start (cidr_v4 10 0 0 9 30))
  = Some [[10; 0; 0; 8]; [10; 0; 0; 9]; [10; 0; 0; 10]; [10; 0; 0; 11]].
Proof. reflexivity. Qed.

Example enumerate_slash32 :
  enumerate 2 (snd (cidr_v4 255 255 255 255 32))
            (loop_start (cidr_v4 255 255 255 255 32))
  = Some [[255; 255; 255; 255]].
Proof. reflexivity. Qed.

Example enumerate_top_slash24 :
  option_map (@List.length IP)
             (enumerate 257 (snd (cidr_v4 255 255 255 7 24))
                        (loop_start (cidr_v4 255 255 255 7 24)))
  = Some 256%nat.
Proof. reflexivity. Qed.

Example Split_keeps_empty_segments :
  Split "a.example,,b.example," ","
  = ["a.example"; EmptyString; "b.example"; EmptyString]%string.
Proof. reflexivity. Qed.

Example Split_of_the_empty_string : Split EmptyString "," = [EmptyString].
Proof. reflexivity. Qed.

Example JoinHostPort_v4 :
  JoinHostPort (ip_String Sample.all_ok [1; 2; 3; 4]) "53" = "1.2.3.4:53"%string.
Proof. reflexivity. Qed.

Example JoinHostPort_v6 : JoinHostPort "::1" "53" = "[::1]:53"%string.
Proof. reflexivity. Qed.

Example parse_cidr_valid :
  Sample.parse_cidr "192.168.1.77/24" = Ok (cidr_v4 192 168 1 77 24).
Proof. reflexivity. Qed.

Example parse_cidr_malformed :
  map Sample.parse_cidr ["10.0.0.0"; "10.0.0.0/33"; "10.0.0/24"; "10.0.0.256/24";
                         "10.0.0.01/24"; "ten.0.0.0/8"; EmptyString]
  = map (fun s => Err ("invalid CIDR address: " ++ s))
        ["10.0.0.0"; "10.0.0.0/33"; "10.0.0/24"; "10.0.0.256/24";
         "10.0.0.01/24"; "ten.0.0.0/8"; EmptyString].
Proof. reflexivity. Qed.

(** A task whose queries are all answered: one row per domain. *)
Example task_rows :
  map fields
      (rows_of Sample.all_ok
         (queryDNS Sample.all_ok [1; 2; 3; 4] "example.com" "a.example" [])
         (Sample.store0 Sample.all_ok 0%nat))
  = [("1.2.3.4", "example.com", "tok-1.2.3.4.example.com. A",
      "tok-1.2.3.4.example.com. 60 IN A 192.0.2.1" ++ LF);
     ("1.2.3.4", "a.example", "a.example. A",
      "a.example. 60 IN A 192.0.2.1" ++ LF)]%string.
Proof. reflexivity. Qed.

(** A task whose primary query is not answered: one exchange, an error. *)
Example task_primary_timeout :
  run Sample.primary_times_out
      (queryDNS Sample.primary_times_out [1; 2; 3; 4] "example.com" "a.example" [])
      (Sample.store0 Sample.primary_times_out 0%nat)
  = (Some "query request failed: i/o timeout"%string,
     mkStore Sample.primary_times_out 1%nat []
             [EvExchange (mkQuestion "tok-1.2.3.4.example.com." 1) "1.2.3.4:53"
                         (Err "i/o timeout")]).
Proof. reflexivity. Qed.

(** With one slot the second dispatch waits for the first goroutine's
    receive from the channel. *)
Example one_slot_blocks_main :
  let f := Sample.flags "10.0.0.8/30" EmptyString 1 in
  let st0 := main_init Sample.all_ok f (Sample.store0 Sample.all_ok 0%nat) in
  exec Sample.all_ok f [RunMain; RunMain] st0 = None
  /\ option_map (pc Sample.all_ok)
       (exec Sample.all_ok f
             [RunMain; RunGoroutine 0; RunGoroutine 0; RunGoroutine 0;
              RunGoroutine 0; RunMain] st0)
     = Some (MLoop [] (snd (cidr_v4 10 0 0 8 30)) [10; 0; 0; 10]).
Proof. split; reflexivity. Qed.

(** Without a slot nothing is ever dispatched. *)
Example no_slot_blocks_main :
  let f := Sample.flags "10.0.0.8/30" EmptyString 0 in
  step Sample.all_ok f RunMain
       (main_init Sample.all_ok f (Sample.store0 Sample.all_ok 0%nat))
  = None.
Proof. reflexivity. Qed.

(* ================================================================== *)
(** * Properties of the address enumeration *)

Local Open Scope list_scope.
Local Open Scope Z_scope.

Lemma list4_eq (a b c d a' b' c' d' : Z) :
  a = a' -> b = b' -> c = c' -> d = d' -> [a; b; c; d] = [a'; b'; c'; d'].
Proof. congruence. Qed.

Ltac bytes4_arith :=
  apply list4_eq; Z.to_euclidean_division_equations; lia.

Lemma ip_of_val_bytes v : Forall is_byte (ip_of_val v).
Proof.
  unfold ip_of_val, is_byte.
  repeat constructor; apply Z.mod_pos_bound; lia.
Qed.

Lemma ip_val_of_val v : 0 <= v < 4294967296 -> ip_val (ip_of_val v) = v.
Proof.
  intros Hv. unfold ip_val, ip_of_val. cbn [fold_left].
  Z.to_euclidean_division_equations. lia.
Qed.

Lemma ip_of_val_val a b c d :
  is_byte a -> is_byte b -> is_byte c -> is_byte d ->
  ip_of_val (ip_val [a; b; c; d]) = [a; b; c; d].
Proof.
  unfold is_byte, ip_val, ip_of_val. cbn [fold_left]. intros.
  bytes4_arith.
Qed.

Lemma inc_bytes4 a b c d :
  inc [a; b; c; d] =
  if d <? 255 then [a; b; c; d + 1]
  else if c <? 255 then [a; b; c + 1; 0]
  else if b <? 255 then [a; b + 1; 0; 0]
  else if a <? 255 then [a + 1; 0; 0; 0]
  else [0; 0; 0; 0].
Proof.
  unfold inc. cbn [length inc_loop nth set_nth].
  destruct (d <? 255); [reflexivity|].
  destruct (c <? 255); [reflexivity|].
  destruct (b <? 255); [reflexivity|].
  destruct (a <? 255); reflexivity.
Qed.

Lemma inc_val4 a b c d :
  is_byte a -> is_byte b -> is_byte c -> is_byte d ->
  inc [a; b; c; d] = ip_of_val (ip_val [a; b; c; d] + 1).
Proof.
  unfold is_byte. intros Ha Hb Hc Hd.
  rewrite inc_bytes4. unfold ip_val, ip_of_val. cbn [fold_left].
  destruct (Z.ltb_spec d 255); [bytes4_arith|].
  destruct (Z.ltb_spec c 255); [bytes4_arith|].
  destruct (Z.ltb_spec b 255); [bytes4_arith|].
  destruct (Z.ltb_spec a 255); [bytes4_arith|].
  assert (a = 255) by lia. assert (b = 255) by lia.
  assert (c = 255) by lia. assert (d = 255) by lia. subst. reflexivity.
Qed.

Lemma inc_ip_of_val v :
  0 <= v < 4294967296 -> inc (ip_of_val v) = ip_of_val (v + 1).
Proof.
  intros Hv.
  pose proof (ip_of_val_bytes v) as Hb.
  pose proof (ip_val_of_val v Hv) as Hval.
  unfold ip_of_val in Hb, Hval |- * at 1.
  inversion_clear Hb as [|? ? Ha Hb']. inversion_clear Hb' as [|? ? Hb Hc'].
  inversion_clear Hc' as [|? ? Hc Hd']. inversion_clear Hd' as [|? ? Hd _].
  rewrite inc_val4 by assumption. rewrite Hval. reflexivity.
Qed.

(** A boolean property checked on the 256 byte values holds of every byte. *)
Lemma byte_forall (P : Z -> bool) :
  forallb P (map Z.of_nat (seq 0 256)) = true ->
  forall x, is_byte x -> P x = true.
Proof.
  intros H x Hx. rewrite forallb_forall in H. apply H.
  apply in_map_iff. exists (Z.to_nat x). split; [unfold is_byte in Hx; lia|].
  apply in_seq. unfold is_byte in Hx. lia.
Qed.

Lemma land_mask_byte x m :
  is_byte x -> In m mask_bytes -> Z.land x m = x / (256 - m) * (256 - m).
Proof.
  intros Hx Hm.
  assert (H : forallb (fun m => Z.land x m =? x / (256 - m) * (256 - m))
                      mask_bytes = true).
  { apply (byte_forall
             (fun x => forallb (fun m => Z.land x m =? x / (256 - m) * (256 - m))
                               mask_bytes)); [vm_compute; reflexivity | exact Hx]. }
  rewrite forallb_forall in H. apply Z.eqb_eq, H, Hm.
Qed.

Lemma Mask_v4 a b c d m0 m1 m2 m3 :
  Mask (v4InV6Prefix ++ [a; b; c; d]) [m0; m1; m2; m3]
  = [Z.land a m0; Z.land b m1; Z.land c m2; Z.land d m3].
Proof. reflexivity. Qed.

Lemma Contains_v4 n0 n1 n2 n3 m0 m1 m2 m3 x0 x1 x2 x3 :
  Contains (mkIPNet [n0; n1; n2; n3] [m0; m1; m2; m3]) [x0; x1; x2; x3]
  = (Z.land n0 m0 =? Z.land x0 m0) && (Z.land n1 m1 =? Z.land x1 m1)
    && (Z.land n2 m2 =? Z.land x2 m2) && (Z.land n3 m3 =? Z.land x3 m3).
Proof.
  unfold Contains. cbn.
  destruct (Z.land n0 m0 =? Z.land x0 m0); [|reflexivity].
  destruct (Z.land n1 m1 =? Z.land x1 m1); [|reflexivity].
  destruct (Z.land n2 m2 =? Z.land x2 m2); [|reflexivity].
  destruct (Z.land n3 m3 =? Z.land x3 m3); reflexivity.
Qed.

Lemma Z_in_range (n : nat) (p : Z) :
  0 <= p < Z.of_nat n -> In p (map Z.of_nat (seq 0 n)).
Proof.
  intros H. apply in_map_iff. exists (Z.to_nat p). split; [lia|].
  apply in_seq. lia.
Qed.

Ltac prefix_cases p :=
  let H := fresh "Hp" in
  assert (H : In p (map Z.of_nat (seq 0 33))) by (apply Z_in_range; lia);
  cbv [seq map In Z.of_nat Pos.of_succ_nat Pos.succ] in H;
  repeat (destruct H as [H | H]; [symmetry in H; subst p |]);
  [.. | contradiction].

Ltac land_to_div :=
  repeat match goal with
         | H : is_byte ?x |- context [Z.land ?x ?m] =>
             rewrite (land_mask_byte x m H) by (cbv; tauto);
             let v := eval vm_compute in (256 - m) in
             change (256 - m) with v
         end.

(** Shape of the network [ParseCIDR] builds, in terms of the address value:
    the loop starts at the block's base and [Contains] compares the top
    [p] bits. *)
Lemma cidr_v4_shape a b c d p :
  is_byte a -> is_byte b -> is_byte c -> is_byte d -> 0 <= p <= 32 ->
  let ipnet := snd (cidr_v4 a b c d p) in
  let size := 2 ^ (32 - p) in
  loop_start (cidr_v4 a b c d p) = ip_of_val (ip_val [a; b; c; d] / size * size)
  /\ forall x0 x1 x2 x3,
      is_byte x0 -> is_byte x1 -> is_byte x2 -> is_byte x3 ->
      Contains ipnet [x0; x1; x2; x3]
      = (ip_val [x0; x1; x2; x3] / size =? ip_val [a; b; c; d] / size).
Proof.
  intros Ha Hb Hc Hd Hp.
  prefix_cases p.
  all: cbv zeta; unfold loop_start, cidr_v4; cbn [fst snd net_Mask].
  all: match goal with
       | |- context [CIDRMask ?p 32] =>
           let m := eval vm_compute in (CIDRMask p 32) in
           change (CIDRMask p 32) with m
       end.
  all: rewrite !Mask_v4.
  all: match goal with
       | |- context [2 ^ ?e] =>
           let m := eval vm_compute in (2 ^ e) in
           change (2 ^ e) with m
       end.
  all: split; [| intros x0 x1 x2 x3 Hx0 Hx1 Hx2 Hx3; rewrite Contains_v4;
                 rewrite <- !Z.land_assoc, !Z.land_diag ].
  all: unfold ip_val, ip_of_val; cbn [fold_left].
  all: land_to_div.
  all: unfold is_byte in *.
  all: try bytes4_arith.
  all: apply eq_true_iff_eq;
       rewrite !andb_true_iff, !Z.eqb_eq;
       split; [intros (((? & ?) & ?) & ?) | intros ?; repeat split];
       Z.to_euclidean_division_equations; lia.
Qed.

Lemma ip_val_of_val_mod v : ip_val (ip_of_val v) = v mod 4294967296.
Proof.
  unfold ip_val, ip_of_val. cbn [fold_left].
  Z.to_euclidean_division_equations. lia.
Qed.

Lemma ip_of_val_mod v : ip_of_val (v mod 4294967296) = ip_of_val v.
Proof. unfold ip_of_val. bytes4_arith. Qed.

Lemma inc_ip_of_val_any v : 0 <= v -> inc (ip_of_val v) = ip_of_val (v + 1).
Proof.
  intros Hv. rewrite <- (ip_of_val_mod v), <- (ip_of_val_mod (v + 1)).
  rewrite inc_ip_of_val by (apply Z.mod_pos_bound; lia).
  rewrite <- (ip_of_val_mod (v mod _ + 1)). f_equal.
  Z.to_euclidean_division_equations. lia.
Qed.

Lemma Zrange_S base n : Zrange base (S n) = base :: Zrange (base + 1) n.
Proof.
  unfold Zrange. cbn [seq map]. f_equal; [lia|].
  rewrite <- seq_shift, map_map. apply map_ext. intros i. lia.
Qed.

Lemma Zrange_length base n : length (Zrange base n) = n.
Proof. unfold Zrange. rewrite length_map, length_seq. reflexivity. Qed.

Lemma Zrange_nth n : forall base i,
  (i < n)%nat -> nth i (Zrange base n) 0 = base + Z.of_nat i.
Proof.
  induction n as [|n IH]; intros base i Hi; [lia|].
  rewrite Zrange_S. destruct i as [|i]; cbn [nth]; [lia|].
  rewrite IH by lia. lia.
Qed.

Lemma enumerate_S f ipnet ip :
  enumerate (S f) ipnet ip
  = if Contains ipnet ip then option_map (cons ip) (enumerate f ipnet (inc ip))
    else Some [].
Proof. reflexivity. Qed.

(** The loop run from the address of value [v], without an exit test. *)
Lemma visited_ip_of_val k v :
  0 <= v -> visited k (ip_of_val v) = map ip_of_val (Zrange v k).
Proof.
  revert v. induction k as [|k IH]; intros v Hv; [reflexivity|].
  rewrite Zrange_S. cbn [visited map]. f_equal.
  rewrite inc_ip_of_val_any by exact Hv. apply IH. lia.
Qed.

Lemma block_size_pos p : 0 <= p <= 32 -> 0 < 2 ^ (32 - p).
Proof. intros Hp. apply Z.pow_pos_nonneg; lia. Qed.

Lemma block_size_split p : 0 <= p <= 32 -> 4294967296 = 2 ^ p * 2 ^ (32 - p).
Proof.
  intros Hp. rewrite <- Z.pow_add_r by lia.
  replace (p + (32 - p)) with 32 by lia. reflexivity.
Qed.

Section Block.

Variables a b c d p : Z.
Hypothesis Ha : is_byte a.
Hypothesis Hb : is_byte b.
Hypothesis Hc : is_byte c.
Hypothesis Hd : is_byte d.
Hypothesis Hp : 0 <= p <= 32.

Let ipnet := snd (cidr_v4 a b c d p).
Let size := 2 ^ (32 - p).
Let base := ip_val [a; b; c; d] / size * size.

Lemma ip_val_bound : 0 <= ip_val [a; b; c; d] < 4294967296.
Proof.
  unfold is_byte in *. unfold ip_val. cbn [fold_left]. lia.
Qed.

Lemma block_base_bounds : 0 <= base /\ base + size <= 4294967296.
Proof.
  pose proof (block_size_pos p Hp) as Hs; fold size in Hs. pose proof ip_val_bound as Hv.
  pose proof (block_size_split p Hp) as Hsplit; fold size in Hsplit.
  assert (Hq : 0 <= ip_val [a; b; c; d] / size) by (apply Z.div_pos; lia).
  assert (Hq2 : ip_val [a; b; c; d] / size < 2 ^ p).
  { apply Z.div_lt_upper_bound; lia. }
  unfold base. nia.
Qed.

Lemma block_Contains v :
  0 <= v < 4294967296 ->
  Contains ipnet (ip_of_val v) = (v / size =? ip_val [a; b; c; d] / size).
Proof.
  intros Hv.
  destruct (cidr_v4_shape a b c d p Ha Hb Hc Hd Hp) as [_ HC].
  pose proof (ip_of_val_bytes v) as HB.
  pose proof (ip_val_of_val v Hv) as HV.
  unfold ip_of_val in HB, HV |- *.
  inversion_clear HB as [|? ? H0 HB']. inversion_clear HB' as [|? ? H1 HB].
  inversion_clear HB as [|? ? H2 HB']. inversion_clear HB' as [|? ? H3 _].
  unfold ipnet, size. rewrite HC by assumption. rewrite HV. reflexivity.
Qed.

Lemma block_inside v :
  base <= v < base + size -> Contains ipnet (ip_of_val v) = true.
Proof.
  intros Hv. pose proof block_base_bounds as Hbb. pose proof (block_size_pos p Hp) as Hs; fold size in Hs.
  rewrite block_Contains by lia. apply Z.eqb_eq.
  unfold base in *.
  symmetry. apply (Z.div_unique _ _ _ (v - ip_val [a; b; c; d] / size * size)); lia.
Qed.

Lemma block_past_end :
  1 <= p -> Contains ipnet (ip_of_val (base + size)) = false.
Proof.
  intros Hp1. pose proof block_base_bounds as Hbb. pose proof (block_size_pos p Hp) as Hs; fold size in Hs.
  pose proof (block_size_split p Hp) as Hsplit; fold size in Hsplit.
  assert (Hq : 0 <= ip_val [a; b; c; d] / size)
    by (apply Z.div_pos; [apply ip_val_bound | lia]).
  rewrite <- ip_of_val_mod.
  rewrite block_Contains by (apply Z.mod_pos_bound; lia).
  apply Z.eqb_neq.
  destruct (Z.eq_dec (base + size) 4294967296) as [E | E].
  - rewrite E, Z.mod_same, Z.div_0_l by lia.
    assert (2 <= 2 ^ p) by (change 2 with (2 ^ 1) at 1; apply Z.pow_le_mono_r; lia).
    unfold base in E. nia.
  - rewrite Z.mod_small by lia.
    unfold base. replace (ip_val [a; b; c; d] / size * size + size)
      with ((ip_val [a; b; c; d] / size + 1) * size) by lia.
    rewrite Z.div_mul by lia. lia.
Qed.

Lemma enumerate_from k v :
  1 <= p -> base <= v -> v + Z.of_nat k = base + size ->
  enumerate (S k) ipnet (ip_of_val v) = Some (map ip_of_val (Zrange v k)).
Proof.
  intros Hp1. revert v. induction k as [|k IH]; intros v Hlo Hhi.
  - rewrite enumerate_S. replace v with (base + size) by lia.
    rewrite block_past_end by exact Hp1. reflexivity.
  - rewrite enumerate_S. rewrite block_inside by lia.
    pose proof block_base_bounds.
    rewrite inc_ip_of_val_any by lia.
    rewrite IH by lia. rewrite Zrange_S. reflexivity.
Qed.

(** For a prefix length of at least 1 the loop ends after [2^(32-p)]
    dispatches, having visited the block in ascending order. *)
Lemma enumerate_block :
  1 <= p ->
  enumerate (S (Z.to_nat size)) ipnet (loop_start (cidr_v4 a b c d p))
  = Some (map ip_of_val (Zrange base (Z.to_nat size))).
Proof.
  intros Hp1. pose proof (block_size_pos p Hp) as Hs; fold size in Hs.
  destruct (cidr_v4_shape a b c d p Ha Hb Hc Hd Hp) as [HS _].
  cbv zeta in HS. rewrite HS. apply enumerate_from; [exact Hp1 | lia |].
  fold size base. lia.
Qed.

End Block.

Lemma visited_snoc k : forall ip,
  visited (S k) ip = (visited k ip ++ [Nat.iter k inc ip])%list.
Proof.
  induction k as [|k IH]; intros ip; [reflexivity|].
  change (visited (S (S k)) ip) with (ip :: visited (S k) (inc ip)).
  rewrite IH. rewrite Nat.iter_succ_r. reflexivity.
Qed.

Lemma visited_length k : forall ip, List.length (visited k ip) = k.
Proof.
  induction k as [|k IH]; intros ip; cbn [visited List.length];
    [reflexivity | rewrite IH; reflexivity].
Qed.

(** When the loop leaves after [k] dispatches, the addresses it went
    through are what [enumerate] returns. *)
Lemma enumerate_visited ipnet k : forall start,
  Forall (fun ip => Contains ipnet ip = true) (visited k start) ->
  Contains ipnet (Nat.iter k inc start) = false ->
  enumerate (S k) ipnet start = Some (visited k start).
Proof.
  induction k as [|k IH]; intros start Hin Hout.
  - change (Nat.iter 0 inc start) with start in Hout.
    cbn [enumerate]. rewrite Hout. reflexivity.
  - cbn [visited] in Hin. inversion Hin as [|? ? Hs Hrest]; subst.
    rewrite Nat.iter_succ_r in Hout.
    rewrite enumerate_S, Hs, (IH (inc start) Hrest Hout). reflexivity.
Qed.

(** Conversely, what [enumerate] returns is what the loop went through. *)
Lemma enumerate_is_visited ipnet fuel : forall start l,
  enumerate fuel ipnet start = Some l ->
  l = visited (List.length l) start
  /\ Forall (fun ip => Contains ipnet ip = true) l
  /\ Contains ipnet (Nat.iter (List.length l) inc start) = false.
Proof.
  induction fuel as [|fuel IH]; intros start l H; [discriminate H|].
  rewrite enumerate_S in H. destruct (Contains ipnet start) eqn:HC.
  - destruct (enumerate fuel ipnet (inc start)) as [l'|] eqn:He; [|discriminate H].
    cbn [option_map] in H. injection H as <-.
    destruct (IH _ _ He) as (Hv & Hf & Hout).
    cbn [List.length visited]. rewrite Nat.iter_succ_r.
    repeat split; [f_equal; exact Hv | constructor; assumption | exact Hout].
  - injection H as <-. repeat split; [constructor | exact HC].
Qed.

(* ---------------------------------------------------------------- *)
(** *** The enumeration of a block *)

Lemma set_nth_length i v : forall s, List.length (set_nth i v s) = List.length s.
Proof.
  induction i as [|i IH]; intros [|h t]; cbn [set_nth List.length];
    try reflexivity.
  rewrite IH. reflexivity.
Qed.

Lemma inc_loop_length n : forall ip, List.length (inc_loop n ip) = List.length ip.
Proof.
  induction n as [|n IH]; intros ip; cbn [inc_loop]; [reflexivity|].
  destruct (nth n ip 0 <? 255).
  - apply set_nth_length.
  - rewrite IH. apply set_nth_length.
Qed.

Lemma inc_length ip : List.length (inc ip) = List.length ip.
Proof. apply inc_loop_length. Qed.

Lemma iter_inc_ip_of_val k : forall v,
  0 <= v -> Nat.iter k inc (ip_of_val v) = ip_of_val (v + Z.of_nat k).
Proof.
  induction k as [|k IH]; intros v Hv.
  - cbn [Nat.iter nat_rect]. f_equal. lia.
  - rewrite Nat.iter_succ_r, inc_ip_of_val_any, IH by lia. f_equal. lia.
Qed.

Lemma Zrange_NoDup base n : NoDup (Zrange base n).
Proof.
  unfold Zrange. apply NoDup_map_NoDup_ForallPairs; [|apply seq_NoDup].
  intros i j _ _ H. lia.
Qed.

Lemma Zrange_In base n v : In v (Zrange base n) -> base <= v < base + Z.of_nat n.
Proof.
  unfold Zrange. rewrite in_map_iff. intros (i & <- & Hi).
  apply in_seq in Hi. lia.
Qed.

(** For every IPv4 block [a.b.c.d/p] with [1 <= p <= 32] the dispatch
    loop ends after [2^(32-p)] iterations; the addresses it hands out are
    those of value [base], [base+1], ..., [base + 2^(32-p) - 1] in this
    order, [base] the value of the masked network address: ascending by
    one, without gap or repetition.  A /32 block gives the one address. *)
Theorem enumeration_of_a_block (a b c d p : Z) :
  is_byte a -> is_byte b -> is_byte c -> is_byte d -> 1 <= p <= 32 ->
  let size := 2 ^ (32 - p) in
  let base := ip_val [a; b; c; d] / size * size in
  exists addrs,
    enumerate (S (Z.to_nat size)) (snd (cidr_v4 a b c d p))
              (loop_start (cidr_v4 a b c d p)) = Some addrs
    /\ Z.of_nat (List.length addrs) = size
    /\ loop_start (cidr_v4 a b c d p) = ip_of_val base
    /\ (forall i, (i < List.length addrs)%nat ->
                  ip_val (nth i addrs []) = base + Z.of_nat i)
    /\ NoDup addrs
    /\ (p = 32 -> addrs = [[a; b; c; d]]).
Proof.
  intros Ha Hb Hc Hd Hp size base.
  assert (Hp' : 0 <= p <= 32) by lia.
  pose proof (block_size_pos p Hp') as Hsize. fold size in Hsize.
  destruct (block_base_bounds a b c d p Ha Hb Hc Hd Hp') as [Hb0 Hb1].
  fold size base in Hb0, Hb1.
  destruct (cidr_v4_shape a b c d p Ha Hb Hc Hd Hp') as [Hstart _].
  cbv zeta in Hstart. fold size base in Hstart.
  exists (map ip_of_val (Zrange base (Z.to_nat size))).
  assert (Hvals : map ip_val (map ip_of_val (Zrange base (Z.to_nat size)))
                  = Zrange base (Z.to_nat size)).
  { rewrite map_map. rewrite <- (map_id (Zrange base (Z.to_nat size))) at 2.
    apply map_ext_in. intros v Hv. apply Zrange_In in Hv.
    apply ip_val_of_val. lia. }
  split; [apply (enumerate_block a b c d p Ha Hb Hc Hd Hp'); lia|].
  split; [rewrite length_map, Zrange_length; lia|].
  split; [exact Hstart|]. split; [|split].
  - intros i Hi. rewrite length_map, Zrange_length in Hi.
    rewrite <- (Zrange_nth (Z.to_nat size) base i Hi).
    rewrite <- Hvals at 2.
    change 0 with (ip_val []).
    rewrite (map_nth ip_val). reflexivity.
  - apply (NoDup_map_inv ip_val). rewrite Hvals. apply Zrange_NoDup.
  - intros ->. unfold base, size. change (2 ^ (32 - 32)) with 1.
    rewrite Z.div_1_r, Z.mul_1_r. change (Z.to_nat 1) with 1%nat.
    unfold Zrange. cbn [seq map]. rewrite Z.add_0_r.
    rewrite (ip_of_val_val a b c d Ha Hb Hc Hd). reflexivity.
Qed.

Lemma enumeration_of_a_block_witness :
  exists addrs,
    enumerate (S (Z.to_nat (2 ^ (32 - 30)))) (snd (cidr_v4 10 0 0 9 30))
              (loop_start (cidr_v4 10 0 0 9 30)) = Some addrs
    /\ Z.of_nat (List.length addrs) = 4.
Proof.
  destruct (enumeration_of_a_block 10 0 0 9 30) as (addrs & Hen & Hlen & _);
    try (unfold is_byte; lia).
  exists addrs. split; [exact Hen | exact Hlen].
Defined.

(* ---------------------------------------------------------------- *)
(** *** The block of all addresses *)

(** In a /0 network [Contains] accepts every 4-byte address. *)
Lemma Contains_slash0 a b c d ip :
  List.length ip = 4%nat -> Contains (snd (cidr_v4 a b c d 0)) ip = true.
Proof.
  intros Hlen.
  destruct ip as [|x0 [|x1 [|x2 [|x3 [|x4 ip]]]]]; try discriminate Hlen.
  unfold cidr_v4. cbn [snd].
  change (CIDRMask 0 32) with [0; 0; 0; 0].
  rewrite Mask_v4, Contains_v4, !Z.land_0_r. reflexivity.
Qed.

Lemma loop_start_slash0 a b c d : loop_start (cidr_v4 a b c d 0) = [0; 0; 0; 0].
Proof.
  unfold loop_start, cidr_v4. cbn [fst snd net_Mask].
  change (CIDRMask 0 32) with [0; 0; 0; 0].
  rewrite Mask_v4, !Z.land_0_r. reflexivity.
Qed.

Lemma enumerate_slash0 a b c d fuel : forall ip,
  List.length ip = 4%nat -> enumerate fuel (snd (cidr_v4 a b c d 0)) ip = None.
Proof.
  induction fuel as [|fuel IH]; intros ip Hlen; [reflexivity|].
  rewrite enumerate_S, Contains_slash0 by exact Hlen.
  rewrite IH by (rewrite inc_length; exact Hlen). reflexivity.
Qed.

Lemma visited_slash0 a b c d k : forall ip,
  List.length ip = 4%nat ->
  Forall (fun x => Contains (snd (cidr_v4 a b c d 0)) x = true) (visited k ip).
Proof.
  induction k as [|k IH]; intros ip Hlen; cbn [visited]; constructor.
  - apply Contains_slash0, Hlen.
  - apply IH. rewrite inc_length. exact Hlen.
Qed.

(** C3 at the network 0.0.0.0/0 (more generally [a.b.c.d/0]): the loop
    does not hand out [2^32] addresses and stop.  However many iterations
    are allowed it has not left the loop; every address it visits is in the
    network, so each is dispatched; and after the [2^32] addresses from
    0.0.0.0 to 255.255.255.255 the next address it visits and dispatches is
    0.0.0.0 again. *)
Theorem whole_space_is_enumerated_again (a b c d : Z) :
  let ipnet := snd (cidr_v4 a b c d 0) in
  let start := loop_start (cidr_v4 a b c d 0) in
  let n := Z.to_nat 4294967296 in
  (forall fuel, enumerate fuel ipnet start = None)
  /\ (forall k, Forall (fun x => Contains ipnet x = true) (visited k start))
  /\ visited (S n) start
     = (map ip_of_val (Zrange 0 n) ++ [[0; 0; 0; 0]])%list
  /\ nth 0 (visited (S n) start) [] = nth n (visited (S n) start) [].
Proof.
  intros ipnet start n. unfold ipnet, start.
  rewrite loop_start_slash0.
  assert (Hn : Z.of_nat n = 4294967296) by (unfold n; lia).
  clearbody n.
  assert (Hv : visited (S n) [0; 0; 0; 0]
               = (map ip_of_val (Zrange 0 n) ++ [[0; 0; 0; 0]])%list).
  { rewrite visited_snoc.
    change [0; 0; 0; 0] with (ip_of_val 0) at 1 2.
    rewrite visited_ip_of_val, iter_inc_ip_of_val by lia.
    rewrite Z.add_0_l, Hn. reflexivity. }
  split; [intros fuel; apply enumerate_slash0; reflexivity|].
  split; [intros k; apply visited_slash0; reflexivity|].
  split; [exact Hv|].
  rewrite Hv at 2. rewrite app_nth2 by (rewrite length_map, Zrange_length; lia).
  rewrite length_map, Zrange_length, Nat.sub_diag. reflexivity.
Qed.

(** C4 at the network 0.0.0.0/0 (more generally [a.b.c.d/0]): [inc] takes
    255.255.255.255, the last address of the block, to 0.0.0.0, which
    [Contains] accepts, so the loop goes on into the block again; no number
    of iterations reaches the exit of the loop. *)
Theorem whole_space_loop_never_ends (a b c d : Z) :
  inc [255; 255; 255; 255] = [0; 0; 0; 0]
  /\ Contains (snd (cidr_v4 a b c d 0)) (inc [255; 255; 255; 255]) = true
  /\ forall fuel,
      enumerate fuel (snd (cidr_v4 a b c d 0)) (loop_start (cidr_v4 a b c d 0))
      = None.
Proof.
  split; [reflexivity|]. split; [apply Contains_slash0; reflexivity|].
  intros fuel. rewrite loop_start_slash0. apply enumerate_slash0. reflexivity.
Qed.
(* ================================================================== *)
(** * Properties of the per-host task *)

Local Open Scope string_scope.
Local Open Scope prog_scope.

Section TaskFacts.

Variable E : Env.

Lemma run_bind {A B : Type} (p : Prog A) (f : A -> Prog B) (s : Store E) :
  run E (bind p f) s = let (a, s1) := run E p s in run E (f a) s1.
Proof.
  revert s. induction p as [a | q srv k IH | i d q a k IH | m k IH]; intros s;
    cbn [bind run].
  - reflexivity.
  - destruct (do_Exchange E q srv s) as [r s1]. apply IH.
  - destruct (do_insertIntoDB E i d q a s) as [e s1]. apply IH.
  - apply IH.
Qed.

(** A run only appends to the trace and to the table, and the rows it
    appends are those of its successful inserts. *)
Lemma do_insertIntoDB_grows i d q a (s : Store E) :
  let (e, s1) := do_insertIntoDB E i d q a s in
  trace E s1 = (trace E s ++ [EvInsert i d q a e])%list
  /\ exists rows, table E s1 = (table E s ++ rows)%list
                  /\ map fields rows = stored [EvInsert i d q a e].
Proof.
  unfold do_insertIntoDB.
  destruct (db_Preparex E (world E s)) as [[err|] w1]; cbn [trace table].
  - split; [reflexivity|]. exists []. rewrite app_nil_r. split; reflexivity.
  - destruct (stmt_Exec E w1 _) as [[err|] w2]; cbn [trace table].
    + split; [reflexivity|]. exists []. rewrite app_nil_r. split; reflexivity.
    + split; [reflexivity|]. eexists. split; reflexivity.
Qed.

Lemma stored_app t1 t2 : stored (t1 ++ t2) = (stored t1 ++ stored t2)%list.
Proof.
  induction t1 as [|[q srv r | i d q a [err|] | m] t1 IH]; cbn [stored app];
    rewrite ?IH; reflexivity.
Qed.

Lemma exchanges_app t1 t2 :
  exchanges (t1 ++ t2) = (exchanges t1 ++ exchanges t2)%list.
Proof.
  induction t1 as [|[q srv r | i d q a e | m] t1 IH]; cbn [exchanges app];
    rewrite ?IH; reflexivity.
Qed.

Lemma inserts_app t1 t2 :
  inserts (t1 ++ t2) = (inserts t1 ++ inserts t2)%list.
Proof.
  induction t1 as [|[q srv r | i d q a e | m] t1 IH]; cbn [inserts app];
    rewrite ?IH; reflexivity.
Qed.

Lemma run_grows {A : Type} (p : Prog A) (s : Store E) :
  exists t rows,
    trace E (snd (run E p s)) = (trace E s ++ t)%list
    /\ table E (snd (run E p s)) = (table E s ++ rows)%list
    /\ map fields rows = stored t.
Proof.
  revert s. induction p as [a | q srv k IH | i d q a k IH | m k IH]; intros s;
    cbn [run].
  - exists [], []. cbn [snd]. rewrite !app_nil_r. repeat split; reflexivity.
  - unfold do_Exchange. destruct (client_Exchange E (world E s) q srv) as [r w1].
    destruct (IH r (mkStore E w1 (table E s)
                            (trace E s ++ [EvExchange q srv r])%list))
      as (t & rows & Ht & Hr & Hf).
    cbn [trace table] in Ht, Hr.
    exists (EvExchange q srv r :: t), rows.
    rewrite Ht, Hr, <- app_assoc. repeat split; assumption.
  - pose proof (do_insertIntoDB_grows i d q a s) as H.
    destruct (do_insertIntoDB E i d q a s) as [e s1].
    destruct H as (Ht1 & rows1 & Hr1 & Hf1).
    destruct (IH e s1) as (t & rows & Ht & Hr & Hf).
    exists (EvInsert i d q a e :: t), (rows1 ++ rows)%list.
    rewrite Ht, Hr, Ht1, Hr1, <- !app_assoc. repeat split.
    rewrite map_app, Hf1, Hf.
    change (EvInsert i d q a e :: t) with ([EvInsert i d q a e] ++ t)%list.
    rewrite stored_app. reflexivity.
  - destruct (IH (do_Printf E m s)) as (t & rows & Ht & Hr & Hf).
    cbn [do_Printf trace table] in Ht, Hr.
    exists (EvPrintf m :: t), rows.
    rewrite Ht, Hr, <- app_assoc. repeat split; assumption.
Qed.

Lemma skipn_length_app {X : Type} (l t : list X) :
  skipn (List.length l) (l ++ t) = t.
Proof. induction l as [|x l IH]; [reflexivity | exact IH]. Qed.

Lemma trace_run {A : Type} (p : Prog A) (s : Store E) :
  trace E (snd (run E p s)) = (trace E s ++ events_of E p s)%list.
Proof.
  destruct (run_grows p s) as (t & rows & Ht & _).
  unfold events_of. rewrite Ht, skipn_length_app. reflexivity.
Qed.

Lemma table_run {A : Type} (p : Prog A) (s : Store E) :
  table E (snd (run E p s)) = (table E s ++ rows_of E p s)%list
  /\ map fields (rows_of E p s) = stored (events_of E p s).
Proof.
  destruct (run_grows p s) as (t & rows & Ht & Hr & Hf).
  unfold rows_of, events_of. rewrite Ht, Hr, !skipn_length_app.
  split; [reflexivity | exact Hf].
Qed.

Lemma events_of_bind {A B : Type} (p : Prog A) (f : A -> Prog B) (s : Store E) :
  events_of E (bind p f) s
  = (events_of E p s
       ++ events_of E (f (fst (run E p s))) (snd (run E p s)))%list.
Proof.
  unfold events_of at 1. rewrite run_bind.
  pose proof (trace_run p s) as H1.
  destruct (run E p s) as [a s1]. cbn [fst snd] in *.
  rewrite trace_run, H1, <- app_assoc, skipn_length_app. reflexivity.
Qed.

(* ---------------------------------------------------------------- *)
(** *** The two parts of [queryDNS] *)

Variables (ip : IP) (domain domains : string) (dictionary : list string).

Let name1 := primary_name E ip domain dictionary.
Let q1 := question_of E name1.
Let srv := server_of E ip.

(** [queryDNS] is its primary step followed, when that step returned no
    error, by the loop over the additional domains. *)
Lemma queryDNS_run (s : Store E) :
  run E (queryDNS E ip domain domains dictionary) s
  = let (e, s1) := run E (primary_step E ip domain dictionary) s in
    match e with
    | Some err => (Some err, s1)
    | None => (None, snd (run E (additional_loop E ip domains dictionary) s1))
    end.
Proof.
  unfold queryDNS, primary_step, primary_name, performDNSQuery, insertIntoDB.
  cbn [bind run].
  destruct (do_Exchange E _ _ s) as [[answers | err] s1]; cbn [bind run];
    [| reflexivity].
  destruct (do_insertIntoDB E _ _ _ _ s1) as [[err |] s2]; cbn [bind run];
    [reflexivity |].
  rewrite run_bind. destruct (run E (additional_loop E ip domains dictionary) s2).
  reflexivity.
Qed.

Lemma queryDNS_events (s : Store E) :
  events_of E (queryDNS E ip domain domains dictionary) s
  = (events_of E (primary_step E ip domain dictionary) s
     ++ match fst (run E (primary_step E ip domain dictionary) s) with
        | Some _ => []
        | None => events_of E (additional_loop E ip domains dictionary)
                            (snd (run E (primary_step E ip domain dictionary) s))
        end)%list.
Proof.
  unfold events_of at 1. rewrite queryDNS_run.
  pose proof (trace_run (primary_step E ip domain dictionary) s) as H1.
  destruct (run E (primary_step E ip domain dictionary) s) as [[err|] s1];
    cbn [fst snd] in *.
  - rewrite H1, skipn_length_app, app_nil_r. reflexivity.
  - rewrite trace_run, H1, <- app_assoc, skipn_length_app. reflexivity.
Qed.

(** The primary step: one exchange, and one insert when it succeeded. *)
Lemma primary_step_shape (s : Store E) :
  (exists err,
      fst (client_Exchange E (world E s) q1 srv) = Err err
      /\ fst (run E (primary_step E ip domain dictionary) s)
         = Some ("query request failed: " ++ err)
      /\ events_of E (primary_step E ip domain dictionary) s
         = [EvExchange q1 srv (Err err)])
  \/ (exists answers,
         fst (client_Exchange E (world E s) q1 srv) = Ok answers
         /\ events_of E (primary_step E ip domain dictionary) s
            = [EvExchange q1 srv (Ok answers);
               EvInsert (ip_String E ip) domain (dnsQuestionToString q1)
                        (dnsRRToString answers)
                        (fst (run E (primary_step E ip domain dictionary) s))]).
Proof.
  unfold events_of, primary_step, performDNSQuery, insertIntoDB.
  cbn [bind run]. fold name1. unfold q1, srv, question_of, server_of.
  unfold do_Exchange.
  destruct (client_Exchange E (world E s) _ _) as [[answers | err] w1];
    cbn [bind run fst snd trace].
  - right. exists answers. split; [reflexivity|].
    match goal with |- context [do_insertIntoDB E ?i ?d ?q ?a ?s1] =>
      pose proof (do_insertIntoDB_grows i d q a s1) as H;
      destruct (do_insertIntoDB E i d q a s1) as [e s2] end.
    destruct H as [Ht _]. cbn [fst snd trace] in *.
    rewrite Ht, <- app_assoc, skipn_length_app. reflexivity.
  - left. exists err. repeat split. rewrite skipn_length_app. reflexivity.
Qed.

Lemma additional_body_events (d : string) (s : Store E) :
  exists t, events_of E (additional_body E ip dictionary d) s = t
            /\ additional_events E ip [d] t.
Proof.
  eexists. split; [reflexivity|].
  unfold events_of, additional_body, queryAdditionalDNS, performDNSQuery,
    insertIntoDB.
  cbn [bind run]. unfold do_Exchange.
  destruct (client_Exchange E (world E s) _ _) as [[answers | err] w1];
    cbn [bind run fst snd trace do_Printf].
  - match goal with |- context [do_insertIntoDB E ?i ?d ?q ?a ?s1] =>
      pose proof (do_insertIntoDB_grows i d q a s1) as H;
      destruct (do_insertIntoDB E i d q a s1) as [[err|] s2] end;
      destruct H as [Ht _]; cbn [bind run fst snd trace do_Printf] in *;
      rewrite Ht, <- !app_assoc, skipn_length_app; cbn [app].
    + apply ae_insert_failed, ae_done.
    + apply ae_stored, ae_done.
  - rewrite <- !app_assoc, skipn_length_app. cbn [app].
    apply ae_query_failed, ae_done.
Qed.

Lemma additional_events_app ds1 ds2 t1 t2 :
  additional_events E ip ds1 t1 -> additional_events E ip ds2 t2 ->
  additional_events E ip (ds1 ++ ds2) (t1 ++ t2).
Proof.
  induction 1; intros H2; cbn [app]; try constructor; auto.
Qed.

Lemma for_range_events (ds : list string) :
  forall s, additional_events E ip ds
              (events_of E (for_range ds (additional_body E ip dictionary)) s).
Proof.
  induction ds as [|d ds IH]; intros s.
  - unfold events_of. cbn [for_range run snd].
    rewrite <- (app_nil_r (trace E s)) at 2. rewrite skipn_length_app.
    constructor.
  - cbn [for_range]. rewrite events_of_bind.
    destruct (additional_body_events d s) as (t & Ht & Hd). rewrite Ht.
    apply (additional_events_app [d] ds); [exact Hd | apply IH].
Qed.

(** The loop over the additional domains queries all of them, in the
    order of the flag, whatever fails on the way. *)
Lemma additional_loop_events (s : Store E) :
  additional_events E ip (additional_domains domains)
                    (events_of E (additional_loop E ip domains dictionary) s).
Proof.
  unfold additional_loop, additional_domains.
  destruct (String.eqb domains EmptyString).
  - unfold events_of. cbn [run snd].
    rewrite <- (app_nil_r (trace E s)) at 2. rewrite skipn_length_app.
    constructor.
  - apply for_range_events.
Qed.

Lemma additional_events_exchanges ds t :
  additional_events E ip ds t ->
  exchanges t = map (fun d => (Fqdn E d, srv)) ds.
Proof.
  induction 1; cbn [exchanges map question_of Name]; rewrite ?IHadditional_events;
    reflexivity.
Qed.

End TaskFacts.
(* ================================================================== *)
(** * The claims about one task *)

Lemma string_app_assoc (a b c : string) : (a ++ b) ++ c = a ++ b ++ c.
Proof. induction a as [|x a IH]; cbn; [reflexivity | rewrite IH; reflexivity]. Qed.

Lemma has_byte_app c (a b : string) :
  has_byte c (a ++ b) = has_byte c a || has_byte c b.
Proof.
  induction a as [|x a IH]; cbn; [reflexivity|].
  rewrite IH, orb_assoc. reflexivity.
Qed.

Lemma ubtoa_digits x :
  is_byte x -> has_byte ":" (ubtoa x) = false /\ has_byte "%" (ubtoa x) = false.
Proof.
  intros Hx.
  assert (H : negb (has_byte ":" (ubtoa x)) && negb (has_byte "%" (ubtoa x)) = true)
    by (apply (byte_forall
                 (fun x => negb (has_byte ":" (ubtoa x))
                           && negb (has_byte "%" (ubtoa x))));
        [vm_compute; reflexivity | exact Hx]).
  apply andb_true_iff in H. destruct H as [H1 H2].
  apply negb_true_iff in H1, H2. split; assumption.
Qed.

(** The text of an IPv4 address is its dotted form, and the server the
    queries go to is that text followed by [:53]. *)
Lemma server_of_v4 (E : Env) a b c d :
  is_byte a -> is_byte b -> is_byte c -> is_byte d ->
  ip_String E [a; b; c; d] = dotted [a; b; c; d]
  /\ server_of E [a; b; c; d] = dotted [a; b; c; d] ++ ":53".
Proof.
  intros Ha Hb Hc Hd. split; [reflexivity|].
  unfold server_of, JoinHostPort.
  change (ip_String E [a; b; c; d]) with (dotted [a; b; c; d]).
  assert (H : has_byte ":" (dotted [a; b; c; d]) = false).
  { cbn [dotted]. rewrite !has_byte_app.
    rewrite (proj1 (ubtoa_digits a Ha)), (proj1 (ubtoa_digits b Hb)),
      (proj1 (ubtoa_digits c Hc)), (proj1 (ubtoa_digits d Hd)).
    reflexivity. }
  rewrite H. reflexivity.
Qed.

Lemma In_stored i d q a t :
  In (EvInsert i d q a None) t -> In (i, d, q, a) (stored t).
Proof.
  induction t as [|ev t IH]; cbn [In]; [intros [] |].
  intros [H | H].
  - subst ev. left. reflexivity.
  - destruct ev as [q0 srv r | i0 d0 q0 a0 [err|] | m]; cbn [stored];
      try right; auto.
Qed.

Lemma additional_events_split (E : Env) ip ds1 : forall ds2 t,
  additional_events E ip (ds1 ++ ds2) t ->
  exists t1 t2, t = (t1 ++ t2)%list
                /\ additional_events E ip ds1 t1
                /\ additional_events E ip ds2 t2.
Proof.
  induction ds1 as [|d ds1 IH]; intros ds2 t H.
  - exists [], t. repeat split; [constructor | exact H].
  - cbn [app] in H. inversion H as [| ? ? err t' H' | ? ? answers t' H'
                                    | ? ? answers err t' H']; subst;
      destruct (IH _ _ H') as (t1 & t2 & -> & H1 & H2).
    + exists (EvExchange (question_of E d) (server_of E ip) (Err err)
              :: EvPrintf ("Error querying additional DNS: " ++ err ++ LF) :: t1), t2.
      repeat split; [constructor; exact H1 | exact H2].
    + eexists (_ :: _ :: t1), t2.
      repeat split; [apply ae_stored; exact H1 | exact H2].
    + eexists (_ :: _ :: _ :: t1), t2.
      repeat split; [apply ae_insert_failed; exact H1 | exact H2].
Qed.

(** In the loop over the additional domains every answer obtained is
    handed to [insertIntoDB]. *)
Lemma additional_events_answered (E : Env) ip ds t :
  additional_events E ip ds t -> List.length (inserts t) = answered t.
Proof.
  induction 1; cbn [inserts answered List.length]; congruence.
Qed.

Lemma answered_app t1 t2 : answered (t1 ++ t2) = (answered t1 + answered t2)%nat.
Proof.
  induction t1 as [|[q srv [ans|err] | i d q a e | m] t1 IH];
    cbn [answered app]; rewrite ?IH; reflexivity.
Qed.

(** A failed primary step is all the task does: [queryDNS] returns its
    error, nothing is stored, and the primary query is the only one. *)
Lemma primary_failure_shape (E : Env) s ip domain domains dictionary err :
  fst (run E (primary_step E ip domain dictionary) s) = Some err ->
  run E (queryDNS E ip domain domains dictionary) s
  = run E (primary_step E ip domain dictionary) s
  /\ rows_of E (queryDNS E ip domain domains dictionary) s = []
  /\ exchanges (events_of E (queryDNS E ip domain domains dictionary) s)
     = [(Fqdn E (primary_name E ip domain dictionary), server_of E ip)]
  /\ List.length (inserts (events_of E (queryDNS E ip domain domains dictionary) s))
     = answered (events_of E (queryDNS E ip domain domains dictionary) s).
Proof.
  intros Hfail.
  assert (Hrun : run E (queryDNS E ip domain domains dictionary) s
                 = run E (primary_step E ip domain dictionary) s).
  { rewrite queryDNS_run.
    destruct (run E (primary_step E ip domain dictionary) s) as [e s1].
    cbn [fst] in Hfail. subst e. reflexivity. }
  assert (Hev : events_of E (queryDNS E ip domain domains dictionary) s
                = events_of E (primary_step E ip domain dictionary) s).
  { unfold events_of. rewrite Hrun. reflexivity. }
  split; [exact Hrun|].
  destruct (table_run E (queryDNS E ip domain domains dictionary) s) as [_ Hrows].
  rewrite Hev in *.
  destruct (primary_step_shape E ip domain dictionary s)
    as [(e & _ & _ & Ht) | (answers & _ & Ht)]; rewrite Ht in *.
  - cbn [stored] in Hrows. apply map_eq_nil in Hrows. repeat split; assumption.
  - rewrite Hfail in *. cbn [stored] in Hrows. apply map_eq_nil in Hrows.
    repeat split; assumption.
Qed.

(** After a primary step without error the task goes through all the
    additional domains. *)
Lemma primary_success_shape (E : Env) s ip domain domains dictionary :
  fst (run E (primary_step E ip domain dictionary) s) = None ->
  let q1 := question_of E (primary_name E ip domain dictionary) in
  fst (run E (queryDNS E ip domain domains dictionary) s) = None
  /\ exists answers t,
      events_of E (queryDNS E ip domain domains dictionary) s
      = (EvExchange q1 (server_of E ip) (Ok answers)
         :: EvInsert (ip_String E ip) domain (dnsQuestionToString q1)
                     (dnsRRToString answers) None :: t)
      /\ additional_events E ip (additional_domains domains) t.
Proof.
  intros Hok q1. split.
  - rewrite queryDNS_run.
    destruct (run E (primary_step E ip domain dictionary) s) as [e s1].
    cbn [fst] in Hok. subst e. reflexivity.
  - rewrite queryDNS_events, Hok.
    destruct (primary_step_shape E ip domain dictionary s)
      as [(e & _ & He & _) | (answers & _ & Ht)];
      [rewrite Hok in He; discriminate|].
    rewrite Ht, Hok. exists answers. eexists. split; [reflexivity|].
    apply additional_loop_events.
Qed.
(* ---------------------------------------------------------------- *)
(** *** C1: a failure of the primary query *)

(** C1, as worded, fails: in a run where no resolver answers the primary
    query and [a.example] is configured as additional domain, the task
    for 1.2.3.4 never queries [a.example]. *)
Lemma primary_failure_skips_additional :
  ~ primary_failure_isolated Sample.primary_times_out
      (Sample.store0 Sample.primary_times_out 0%nat)
      [1; 2; 3; 4] "example.com" "a.example" [].
Proof.
  intros H.
  assert (Hfail : fst (run Sample.primary_times_out
                           (primary_step Sample.primary_times_out [1; 2; 3; 4]
                                         "example.com" [])
                           (Sample.store0 Sample.primary_times_out 0%nat))
                  <> None) by (vm_compute; discriminate).
  destruct (H Hfail) as [_ Hq].
  specialize (Hq "a.example" (or_introl eq_refl)).
  vm_compute in Hq. destruct Hq as [Hq | []]. discriminate Hq.
Qed.

(** C1, amended: when the primary query or the insert of its record fails,
    [queryDNS] returns that error at once; no record of the address is
    stored, for the primary domain or any other, and the primary query is
    the only query the task makes: no additional domain is queried. *)
Theorem primary_failure_ends_task (E : Env) (s : Store E) (ip : IP)
        (domain domains : string) (dictionary : list string) (err : string) :
  fst (run E (primary_step E ip domain dictionary) s) = Some err ->
  fst (run E (queryDNS E ip domain domains dictionary) s) = Some err
  /\ table E (snd (run E (queryDNS E ip domain domains dictionary) s)) = table E s
  /\ stored (events_of E (queryDNS E ip domain domains dictionary) s) = []
  /\ exchanges (events_of E (queryDNS E ip domain domains dictionary) s)
     = [(Fqdn E (primary_name E ip domain dictionary), server_of E ip)].
Proof.
  intros Hfail.
  destruct (primary_failure_shape E s ip domain domains dictionary err Hfail)
    as (Hrun & Hrows & Hex & _).
  destruct (table_run E (queryDNS E ip domain domains dictionary) s) as [Ht Hs].
  rewrite Hrows in Ht, Hs. rewrite app_nil_r in Ht. cbn [map] in Hs.
  split; [rewrite Hrun; exact Hfail|].
  split; [exact Ht|]. split; [symmetry; exact Hs | exact Hex].
Qed.

Lemma primary_failure_ends_task_witness :
  fst (run Sample.primary_times_out
           (primary_step Sample.primary_times_out [1; 2; 3; 4] "example.com" [])
           (Sample.store0 Sample.primary_times_out 0%nat))
  = Some "query request failed: i/o timeout"
  /\ exchanges (events_of Sample.primary_times_out
                  (queryDNS Sample.primary_times_out [1; 2; 3; 4] "example.com"
                            "a.example,b.example" [])
                  (Sample.store0 Sample.primary_times_out 0%nat))
     = [("tok-1.2.3.4.example.com.", "1.2.3.4:53")].
Proof.
  split; [vm_compute; reflexivity|].
  apply (primary_failure_ends_task Sample.primary_times_out
           (Sample.store0 Sample.primary_times_out 0%nat) [1; 2; 3; 4]
           "example.com" "a.example,b.example" []
           "query request failed: i/o timeout").
  vm_compute. reflexivity.
Defined.

(* ---------------------------------------------------------------- *)
(** *** C5: a failure to write a record *)

(** C5, as worded, fails: when the insert of the primary record fails, the
    additional domain [a.example] is not queried. *)
Lemma primary_insert_failure_skips_additional :
  ~ insert_failure_isolated Sample.first_insert_fails
      (Sample.store0 Sample.first_insert_fails 0%nat)
      [1; 2; 3; 4] "example.com" "a.example" [].
Proof.
  intros H.
  assert (Hins : exists i d q a err,
             In (i, d, q, a, Some err)
                (inserts (events_of Sample.first_insert_fails
                            (queryDNS Sample.first_insert_fails [1; 2; 3; 4]
                                      "example.com" "a.example" [])
                            (Sample.store0 Sample.first_insert_fails 0%nat)))).
  { do 5 eexists. vm_compute. left. reflexivity. }
  specialize (H Hins "a.example" (or_introl eq_refl)).
  vm_compute in H. destruct H as [H | []]. discriminate H.
Qed.

(* ---------------------------------------------------------------- *)
(** *** C6: the additional domains *)

(** C6, as worded, fails: for an address whose primary query fails the
    additional domains are not queried at all. *)
Lemma additional_not_queried_after_primary_failure :
  ~ additional_always_queried Sample.primary_times_out
      (Sample.store0 Sample.primary_times_out 0%nat)
      [1; 2; 3; 4] "example.com" "a.example,b.example" [].
Proof.
  intros [first H]. vm_compute in H. discriminate H.
Qed.

(** C6, amended: for every address whose primary step did not fail, the
    primary record is stored and then the additional domains are gone
    through one after the other in the order of the flag: each is queried
    by its own name (no token in front) at the scanned address, port 53;
    an answer is inserted as a record of that domain; a failed query or
    insert leaves no record for that domain, is logged, and the loop goes
    on with the next domain. *)
Theorem additional_domains_in_order (E : Env) (s : Store E) (ip : IP)
        (domain domains : string) (dictionary : list string) :
  fst (run E (primary_step E ip domain dictionary) s) = None ->
  let q1 := question_of E (primary_name E ip domain dictionary) in
  exists answers t,
    events_of E (queryDNS E ip domain domains dictionary) s
    = (EvExchange q1 (server_of E ip) (Ok answers)
       :: EvInsert (ip_String E ip) domain (dnsQuestionToString q1)
                   (dnsRRToString answers) None :: t)
    /\ additional_events E ip (additional_domains domains) t
    /\ exchanges t
       = map (fun d => (Fqdn E d, JoinHostPort (ip_String E ip) "53"))
             (additional_domains domains)
    /\ map fields (rows_of E (queryDNS E ip domain domains dictionary) s)
       = ((ip_String E ip, domain, dnsQuestionToString q1, dnsRRToString answers)
          :: stored t)%list.
Proof.
  intros Hok q1.
  destruct (primary_success_shape E s ip domain domains dictionary Hok)
    as (_ & answers & t & Ht & Hadd).
  exists answers, t. repeat split; try assumption.
  - apply (additional_events_exchanges E ip _ _ Hadd).
  - destruct (table_run E (queryDNS E ip domain domains dictionary) s) as [_ Hs].
    rewrite Hs, Ht. reflexivity.
Qed.

Lemma additional_domains_in_order_witness :
  fst (run Sample.one_additional_times_out
           (primary_step Sample.one_additional_times_out [1; 2; 3; 4]
                         "example.com" [])
           (Sample.store0 Sample.one_additional_times_out 0%nat)) = None
  /\ exists t,
      additional_events Sample.one_additional_times_out [1; 2; 3; 4]
                        ["a.example"; "bad.example"; "c.example"] t
      /\ exchanges t = [("a.example.", "1.2.3.4:53");
                        ("bad.example.", "1.2.3.4:53");
                        ("c.example.", "1.2.3.4:53")]
      /\ stored t = [("1.2.3.4", "a.example", "a.example. A", EmptyString);
                     ("1.2.3.4", "c.example", "c.example. A", EmptyString)].
Proof.
  split; [vm_compute; reflexivity|].
  destruct (additional_domains_in_order Sample.one_additional_times_out
              (Sample.store0 Sample.one_additional_times_out 0%nat) [1; 2; 3; 4]
              "example.com" "a.example,bad.example,c.example" [])
    as (answers & t & Ht & Hadd & Hex & Hrows); [vm_compute; reflexivity|].
  exists t. split; [exact Hadd|]. split; [exact Hex|].
  vm_compute in Hrows. injection Hrows as _ Hst. symmetry. exact Hst.
Defined.

(* ---------------------------------------------------------------- *)
(** *** C7: the record of a successful primary query *)

(** C7: when the resolver at [ip] answers the primary query, the task has
    sent exactly that query, for the name [Encode(ip).domain] made fully
    qualified, to [ip] itself on port 53, and hands exactly one record to
    [insertIntoDB] for it: the text of [ip], the primary domain, the
    question's text, which contains [Encode(ip).domain], and the answers.
    What follows in the trace belongs to the additional domains; nothing
    follows when the insert failed. *)
Theorem primary_success_record (E : Env) (s : Store E) (ip : IP)
        (domain domains : string) (dictionary : list string)
        (answers : list RR) :
  fst (client_Exchange E (world E s)
         (question_of E (primary_name E ip domain dictionary)) (server_of E ip))
  = Ok answers ->
  let query := dnsQuestionToString (question_of E (primary_name E ip domain dictionary)) in
  (exists e t,
      events_of E (queryDNS E ip domain domains dictionary) s
      = (EvExchange (question_of E (primary_name E ip domain dictionary))
                    (JoinHostPort (ip_String E ip) "53") (Ok answers)
         :: EvInsert (ip_String E ip) domain query (dnsRRToString answers) e
         :: t)
      /\ match e with
         | None => additional_events E ip (additional_domains domains) t
         | Some _ => t = []
         end)
  /\ contains query (EncodeIPAddress E ip dictionary ++ "." ++ domain)
  /\ (forall a b c d,
         ip = [a; b; c; d] ->
         is_byte a -> is_byte b -> is_byte c -> is_byte d ->
         ip_String E ip = dotted [a; b; c; d]
         /\ JoinHostPort (ip_String E ip) "53" = dotted [a; b; c; d] ++ ":53").
Proof.
  intros Hans query. split; [|split].
  - rewrite queryDNS_events.
    destruct (primary_step_shape E ip domain dictionary s)
      as [(err & He & _) | (answers' & Ha & Ht)].
    + rewrite Hans in He. discriminate He.
    + rewrite Hans in Ha. injection Ha as <-. rewrite Ht.
      exists (fst (run E (primary_step E ip domain dictionary) s)).
      eexists. split; [reflexivity|].
      destruct (fst (run E (primary_step E ip domain dictionary) s));
        [reflexivity | apply additional_loop_events].
  - unfold query, dnsQuestionToString, question_of, primary_name, Fqdn.
    cbn [Name Qtype]. exists EmptyString.
    destruct (IsFqdn E _).
    + eexists. cbn [append]. reflexivity.
    + eexists. cbn [append]. rewrite !string_app_assoc. reflexivity.
  - intros a b c d -> Ha Hb Hc Hd. apply server_of_v4; assumption.
Qed.

Lemma primary_success_record_witness :
  exists e t,
    events_of Sample.all_ok
      (queryDNS Sample.all_ok [1; 2; 3; 4] "example.com" EmptyString [])
      (Sample.store0 Sample.all_ok 0%nat)
    = (EvExchange (mkQuestion "tok-1.2.3.4.example.com." 1) "1.2.3.4:53"
                  (Ok ["tok-1.2.3.4.example.com. 60 IN A 192.0.2.1"])
       :: EvInsert "1.2.3.4" "example.com" "tok-1.2.3.4.example.com. A"
                   ("tok-1.2.3.4.example.com. 60 IN A 192.0.2.1" ++ LF) e
       :: t).
Proof.
  destruct (primary_success_record Sample.all_ok
              (Sample.store0 Sample.all_ok 0%nat) [1; 2; 3; 4]
              "example.com" EmptyString []
              ["tok-1.2.3.4.example.com. 60 IN A 192.0.2.1"])
    as ((e & t & Ht & _) & _); [vm_compute; reflexivity|].
  exists e, t. exact Ht.
Defined.

(* ---------------------------------------------------------------- *)
(** *** C10: the empty flag and empty segments *)

Lemma Split_not_nil (s : string) (sep : ascii) : Split s sep <> [].
Proof.
  destruct s as [|c s]; cbn [Split]; [discriminate|].
  destruct (Ascii.eqb c sep); [discriminate|].
  destruct (Split s sep); discriminate.
Qed.

Lemma Split_trailing_sep (s : string) (sep : ascii) :
  Split (s ++ String sep EmptyString) sep = (Split s sep ++ [EmptyString])%list.
Proof.
  induction s as [|c s IH]; cbn [append Split].
  - rewrite Ascii.eqb_refl. reflexivity.
  - rewrite IH. destruct (Ascii.eqb c sep); [reflexivity|].
    pose proof (Split_not_nil s sep) as Hne.
    destruct (Split s sep); [contradiction | reflexivity].
Qed.

(** C10, as worded, fails: with [-domains example.com,] a host whose
    primary query is not answered gets no query for the empty name. *)
Lemma empty_segment_not_queried_after_primary_failure :
  ~ empty_segment_queried Sample.primary_times_out
      (Sample.store0 Sample.primary_times_out 0%nat)
      [1; 2; 3; 4] "example.com" [].
Proof.
  intros H. vm_compute in H. destruct H as [H | []]. discriminate H.
Qed.

(** C10, amended: with the empty flag the task makes exactly one query, the
    primary one, whatever its outcome.  [strings.Split] keeps empty
    segments (a trailing comma gives a last, empty segment), so for the
    flag [example.com,] every host whose primary step did not fail gets,
    after the query for [example.com], one more query for the empty name,
    and when that query is answered and the insert succeeds the table gets
    a row whose domain is the empty string. *)
Theorem empty_flag_and_empty_segment (E : Env) (s : Store E) (ip : IP)
        (domain : string) (dictionary : list string) :
  exchanges (events_of E (queryDNS E ip domain EmptyString dictionary) s)
  = [(Fqdn E (primary_name E ip domain dictionary), server_of E ip)]
  /\ (forall ds, Split (ds ++ ",") "," = (Split ds "," ++ [EmptyString])%list)
  /\ additional_domains "example.com," = ["example.com"; EmptyString]
  /\ (fst (run E (primary_step E ip domain dictionary) s) = None ->
      exists t0 t1 t2,
        events_of E (queryDNS E ip domain "example.com," dictionary) s
        = (t0 ++ t1 ++ t2)%list
        /\ additional_events E ip ["example.com"] t1
        /\ additional_events E ip [EmptyString] t2
        /\ In (Fqdn E EmptyString, server_of E ip) (exchanges t2)
        /\ forall i d q a,
            In (EvInsert i d q a None) t2 ->
            d = EmptyString
            /\ exists row,
                In row (rows_of E (queryDNS E ip domain "example.com," dictionary) s)
                /\ Domain row = EmptyString /\ Ip row = ip_String E ip).
Proof.
  split; [|split; [|split]].
  - rewrite queryDNS_events.
    assert (Hnone : forall s1,
               events_of E (additional_loop E ip EmptyString dictionary) s1 = []).
    { intros s1. pose proof (additional_loop_events E ip EmptyString dictionary s1) as H.
      inversion H. reflexivity. }
    destruct (primary_step_shape E ip domain dictionary s)
      as [(err & _ & _ & Ht) | (answers & _ & Ht)]; rewrite Ht;
      rewrite exchanges_app; cbn [exchanges question_of Name app];
      destruct (fst (run E (primary_step E ip domain dictionary) s));
      rewrite ?Hnone; reflexivity.
  - intros ds. apply Split_trailing_sep.
  - reflexivity.
  - intros Hok.
    destruct (primary_success_shape E s ip domain "example.com," dictionary Hok)
      as (_ & answers & t & Ht & Hadd).
    change (additional_domains "example.com,")
      with (["example.com"] ++ [EmptyString])%list in Hadd.
    destruct (additional_events_split E ip _ _ _ Hadd) as (t1 & t2 & -> & H1 & H2).
    eexists [_; _], t1, t2. split; [exact Ht|].
    split; [exact H1|]. split; [exact H2|]. split.
    + rewrite (additional_events_exchanges E ip _ _ H2). left. reflexivity.
    + intros i d q a Hin.
      assert (Hd : d = EmptyString /\ i = ip_String E ip).
      { inversion H2 as [| ? ? err t' H' | ? ? answers' t' H'
                         | ? ? answers' err t' H']; subst;
          inversion H'; subst; cbn [In] in Hin;
          repeat (destruct Hin as [Hin | Hin]; try discriminate Hin);
          try contradiction.
        inversion Hin. split; reflexivity. }
      destruct Hd as [-> ->]. split; [reflexivity|].
      destruct (table_run E (queryDNS E ip domain "example.com," dictionary) s)
        as [_ Hs].
      assert (Hst : In (ip_String E ip, EmptyString, q, a)
                       (map fields (rows_of E (queryDNS E ip domain "example.com,"
                                                        dictionary) s))).
      { rewrite Hs. apply In_stored. rewrite Ht.
        right. right. apply in_or_app. right. exact Hin. }
      apply in_map_iff in Hst. destruct Hst as (row & Hf & Hrow).
      exists row. unfold fields in Hf. injection Hf as Hi Hd Hq Ha.
      split; [exact Hrow | split; [exact Hd | exact Hi]].
Qed.

Lemma empty_flag_and_empty_segment_witness :
  fst (run Sample.all_ok
           (primary_step Sample.all_ok [1; 2; 3; 4] "example.com" [])
           (Sample.store0 Sample.all_ok 0%nat)) = None
  /\ exists t0 t1 t2,
      events_of Sample.all_ok
        (queryDNS Sample.all_ok [1; 2; 3; 4] "example.com" "example.com," [])
        (Sample.store0 Sample.all_ok 0%nat)
      = (t0 ++ t1 ++ t2)%list
      /\ In (".", "1.2.3.4:53") (exchanges t2).
Proof.
  split; [vm_compute; reflexivity|].
  destruct (empty_flag_and_empty_segment Sample.all_ok
              (Sample.store0 Sample.all_ok 0%nat) [1; 2; 3; 4]
              "example.com" [])
    as (_ & _ & _ & H).
  destruct H as (t0 & t1 & t2 & Ht & _ & _ & Hin & _); [vm_compute; reflexivity|].
  exists t0, t1, t2. split; [exact Ht | exact Hin].
Defined.
(* ================================================================== *)
(** * Properties of the scheduler *)

Section CountFacts.

Variable P : IP * Goroutine -> bool.

Lemma count_cons g l : count P (g :: l) = (Z.b2z (P g) + count P l)%Z.
Proof.
  unfold count. cbn [filter]. destruct (P g); cbn [List.length Z.b2z]; lia.
Qed.

Lemma count_app l1 l2 : count P (l1 ++ l2) = (count P l1 + count P l2)%Z.
Proof.
  unfold count. rewrite filter_app, length_app. lia.
Qed.

Lemma count_nonneg l : (0 <= count P l)%Z.
Proof. unfold count. lia. Qed.

Lemma count_set i g' : forall l a g,
  nth_error l i = Some (a, g) ->
  count P (set_goroutine i g' l)
  = (count P l - Z.b2z (P (a, g)) + Z.b2z (P (a, g')))%Z.
Proof.
  induction i as [|i IH]; intros [|[a0 g0] l] a g H; try discriminate H.
  - cbn in H. injection H as -> ->. cbn [set_goroutine].
    rewrite !count_cons. lia.
  - cbn [nth_error] in H. cbn [set_goroutine].
    rewrite !count_cons, (IH l a g H). lia.
Qed.

Lemma count_member l i a g :
  nth_error l i = Some (a, g) -> P (a, g) = true -> (1 <= count P l)%Z.
Proof.
  revert i. induction l as [|g0 l IH]; intros [|i] H HP; try discriminate H.
  - cbn in H. injection H as ->. rewrite count_cons, HP. pose proof (count_nonneg l).
    cbn [Z.b2z]. lia.
  - cbn [nth_error] in H. rewrite count_cons. specialize (IH i H HP).
    destruct (P g0); cbn [Z.b2z]; lia.
Qed.

Lemma count_pos_member l :
  (0 < count P l)%Z ->
  exists i a g, nth_error l i = Some (a, g) /\ P (a, g) = true.
Proof.
  induction l as [|[a0 g0] l IH]; intros H.
  - unfold count in H. cbn in H. lia.
  - rewrite count_cons in H. destruct (P (a0, g0)) eqn:HP.
    + exists O, a0, g0. split; [reflexivity | exact HP].
    + cbn [Z.b2z] in H. destruct IH as (i & a & g & Hi & Hg); [lia|].
      exists (S i), a, g. split; assumption.
Qed.

Lemma count_zero_none l :
  count P l = 0%Z -> forallb (fun g => negb (P g)) l = true.
Proof.
  induction l as [|g0 l IH]; intros H; [reflexivity|].
  rewrite count_cons in H. pose proof (count_nonneg l).
  cbn [forallb]. destruct (P g0); cbn [Z.b2z] in H; [lia|].
  cbn [negb andb]. apply IH. lia.
Qed.

End CountFacts.

Lemma set_goroutine_fst i g : forall l, map fst (set_goroutine i g l) = map fst l.
Proof.
  induction i as [|i IH]; intros [|[a0 g0] l]; cbn [set_goroutine map fst];
    try reflexivity.
  rewrite IH. reflexivity.
Qed.

Lemma set_goroutine_length i g : forall l,
  List.length (set_goroutine i g l) = List.length l.
Proof.
  induction i as [|i IH]; intros [|[a0 g0] l]; cbn [set_goroutine List.length];
    try reflexivity.
  rewrite IH. reflexivity.
Qed.

(** A schedule that can be run reaches the state [Sample.after] names. *)
Lemma after_reached (E : Env) (f : Flags) (w : World E) (sched : list Choice) :
  match exec E f sched (main_init E f (Sample.store0 E w)) with
  | Some _ => true
  | None => false
  end = true ->
  reachable E f (Sample.store0 E w) (Sample.after E f w sched).
Proof.
  intros H. exists sched. unfold Sample.after.
  destruct (exec E f sched (main_init E f (Sample.store0 E w)));
    [reflexivity | discriminate H].
Qed.

Section SchedulerFacts.

Variable E : Env.
Variable f : Flags.

(** What a step of a goroutine changes. *)
Lemma step_goroutine_cases i st st' :
  step_goroutine E i st = Some st' ->
  exists a g g',
    nth_error (goroutines E st) i = Some (a, g)
    /\ goroutines E st' = set_goroutine i g' (goroutines E st)
    /\ pc E st' = pc E st
    /\ ((exists p, g = GQuery p /\ (forall r, p <> Ret r)
                   /\ g' = GQuery (fst (step_prog E p (store E st)))
                   /\ store E st' = snd (step_prog E p (store E st))
                   /\ semaphore E st' = semaphore E st
                   /\ wg E st' = wg E st)
        \/ (exists r, g = GQuery (Ret r) /\ g' = GRelease
                      /\ table E (store E st') = table E (store E st)
                      /\ semaphore E st' = semaphore E st
                      /\ wg E st' = wg E st)
        \/ (g = GRelease /\ g' = GDone
            /\ store E st' = store E st
            /\ (0 < semaphore E st)%Z
            /\ semaphore E st' = (semaphore E st - 1)%Z
            /\ wg E st' = wg E st)
        \/ (g = GDone /\ g' = GExited
            /\ store E st' = store E st
            /\ semaphore E st' = semaphore E st
            /\ wg E st' = (wg E st - 1)%Z)).
Proof.
  unfold step_goroutine.
  destruct (nth_error (goroutines E st) i) as [[a g]|]; [|discriminate].
  intros H. exists a, g.
  destruct g as [p | | |].
  - destruct p as [[err|] | q srv k | ip d q an k | m k];
      cbv beta iota zeta in H.
    + injection H as H; subst st'. exists GRelease. cbn.
      repeat split. right. left. exists (Some err). repeat split.
    + injection H as H; subst st'. exists GRelease. cbn.
      repeat split. right. left. exists None. repeat split.
    + destruct (step_prog E (Exchange q srv k) (store E st)) as [p' s1] eqn:Hs.
      injection H as H; subst st'. exists (GQuery p'). cbn.
      repeat split. left. exists (Exchange q srv k).
      rewrite Hs. repeat split; discriminate.
    + destruct (step_prog E (InsertIntoDB ip d q an k) (store E st))
        as [p' s1] eqn:Hs.
      injection H as H; subst st'. exists (GQuery p'). cbn.
      repeat split. left. exists (InsertIntoDB ip d q an k).
      rewrite Hs. repeat split; discriminate.
    + destruct (step_prog E (Printf m k) (store E st)) as [p' s1] eqn:Hs.
      injection H as H; subst st'. exists (GQuery p'). cbn.
      repeat split. left. exists (Printf m k).
      rewrite Hs. repeat split; discriminate.
  - destruct (0 <? semaphore E st)%Z eqn:Hsem; [|discriminate].
    injection H as H; subst st'. exists GDone. cbn.
    repeat split. right. right. left. repeat split. apply Z.ltb_lt, Hsem.
  - injection H as H; subst st'. exists GExited. cbn.
    repeat split. right. right. right. repeat split.
  - discriminate.
Qed.

Variables (ipnet : IPNet) (start : IP).

Lemma inv_init dictionary s0 :
  main_start E f = MLoop dictionary ipnet start ->
  scheduler_inv E f ipnet start (main_init E f s0).
Proof.
  intros Hstart. unfold scheduler_inv, main_init. cbn. rewrite Hstart.
  repeat split; try reflexivity; try constructor. lia.
Qed.

Lemma inv_step_main st st' :
  scheduler_inv E f ipnet start st ->
  step_main E f st = Some st' ->
  scheduler_inv E f ipnet start st'.
Proof.
  intros (Hsem & Hwg & Hcap & Hdisp & Hin & Hpc) Hstep.
  unfold step_main in Hstep.
  destruct (pc E st) as [dictionary ipnet' ip | | | |] eqn:Hp;
    try discriminate Hstep.
  - destruct Hpc as [-> ->].
    destruct (Contains ipnet _) eqn:HC.
    + destruct (semaphore E st <? flag_goroutines f)%Z eqn:Hlt;
        [|discriminate Hstep].
      apply Z.ltb_lt in Hlt. injection Hstep as Hstep; subst st'.
      unfold scheduler_inv, dispatched in *. cbn [pc goroutines semaphore wg].
      rewrite !count_app, !map_app, length_app. cbn [map fst List.length].
      rewrite Nat.add_1_r, visited_snoc, <- Hdisp.
      unfold count at 2 4. cbn.
      repeat split; try lia.
      * apply Forall_app. split; [exact Hin | constructor; [exact HC | constructor]].
    + injection Hstep as Hstep; subst st'.
      unfold scheduler_inv, dispatched in *. cbn [pc goroutines semaphore wg].
      repeat split; try assumption.
      rewrite Hdisp. apply enumerate_visited; [rewrite <- Hdisp; exact Hin | exact HC].
  - destruct (wg E st =? 0)%Z eqn:Hz; [|discriminate Hstep].
    apply Z.eqb_eq in Hz. injection Hstep as Hstep; subst st'.
    unfold scheduler_inv, dispatched in *. cbn [pc goroutines semaphore wg].
    repeat split; assumption.
Qed.

Lemma inv_step_goroutine i st st' :
  scheduler_inv E f ipnet start st ->
  step_goroutine E i st = Some st' ->
  scheduler_inv E f ipnet start st'.
Proof.
  intros (Hsem & Hwg & Hcap & Hdisp & Hin & Hpc) Hstep.
  destruct (step_goroutine_cases i st st' Hstep)
    as (a & g & g' & Hi & Hgs & Hpc' & Hcase).
  assert (Hslot := count_set holds_slot i g' _ a g Hi).
  assert (Halive := count_set alive i g' _ a g Hi).
  assert (Hmem := fun HP => count_member alive _ i a g Hi HP).
  unfold scheduler_inv, dispatched in *.
  rewrite Hgs, Hpc', set_goroutine_fst, set_goroutine_length, Hslot, Halive.
  clear Hslot Halive.
  destruct Hcase as [(p & -> & _ & -> & _ & Hs' & Hw')
                    | [(r & -> & -> & _ & Hs' & Hw')
                      | [(-> & -> & _ & Hpos & Hs' & Hw')
                        | (-> & -> & _ & Hs' & Hw')]]];
    rewrite Hs', Hw'; cbn [holds_slot alive is_exited snd negb Z.b2z];
    specialize (Hmem eq_refl);
    (repeat split; try assumption; try lia);
    destruct (pc E st); try assumption;
    destruct Hpc as [He Hz]; split; try assumption; lia.
Qed.

Lemma inv_exec sched : forall st st',
  scheduler_inv E f ipnet start st ->
  exec E f sched st = Some st' ->
  scheduler_inv E f ipnet start st'.
Proof.
  induction sched as [|c sched IH]; intros st st' Hinv Hex.
  - injection Hex as Hex; subst st'. exact Hinv.
  - cbn [exec] in Hex. destruct (step E f c st) as [st1|] eqn:Hs;
      [|discriminate Hex].
    apply (IH st1 st'); [|exact Hex].
    destruct c as [|i]; cbn [step] in Hs.
    + apply (inv_step_main st); assumption.
    + apply (inv_step_goroutine i st); assumption.
Qed.

Lemma inv_reachable dictionary s0 st :
  main_start E f = MLoop dictionary ipnet start ->
  reachable E f s0 st ->
  scheduler_inv E f ipnet start st.
Proof.
  intros Hstart [sched Hex].
  apply (inv_exec sched _ _ (inv_init dictionary s0 Hstart) Hex).
Qed.

(** The goroutines inside [queryDNS] hold a slot each. *)
Lemma querying_le_slots l :
  (count is_querying l <= count holds_slot l)%Z.
Proof.
  induction l as [|[a g] l IH]; [unfold count; cbn; lia|].
  rewrite !count_cons. destruct g; cbn [is_querying holds_slot snd Z.b2z]; lia.
Qed.

(** When [main] has returned the loop had ended and every goroutine
    has exited. *)
Lemma inv_returned st :
  scheduler_inv E f ipnet start st ->
  pc E st = MReturned ->
  enumerate (S (List.length (goroutines E st))) ipnet start
  = Some (dispatched E st)
  /\ forallb is_exited (goroutines E st) = true.
Proof.
  intros (Hsem & Hwg & Hcap & Hdisp & Hin & Hpc) Hp.
  rewrite Hp in Hpc. destruct Hpc as [Hen Hz]. split; [exact Hen|].
  rewrite Hz in Hwg. symmetry in Hwg.
  apply count_zero_none in Hwg.
  rewrite forallb_forall in Hwg |- *. intros g Hg.
  specialize (Hwg g Hg). unfold alive in Hwg.
  rewrite negb_involutive in Hwg. exact Hwg.
Qed.

(** With a limit of at least one no state is stuck before [main]
    returns. *)
Lemma inv_progress st :
  (1 <= flag_goroutines f)%Z ->
  scheduler_inv E f ipnet start st ->
  pc E st <> MReturned ->
  exists c st', step E f c st = Some st'.
Proof.
  intros HN (Hsem & Hwg & Hcap & Hdisp & Hin & Hpc) Hnot.
  assert (Hrun : forall i a g,
             nth_error (goroutines E st) i = Some (a, g) ->
             alive (a, g) = true ->
             exists st', step E f (RunGoroutine i) st = Some st').
  { intros i a g Hi Ha. cbn [step]. unfold step_goroutine. rewrite Hi.
    destruct g as [p | | |].
    - destruct p as [[err|] | q srv k | ip d q an k | m k];
        try (eexists; reflexivity);
        match goal with
        | |- context [step_prog E ?p ?s] => destruct (step_prog E p s)
        end; eexists; reflexivity.
    - pose proof (count_member holds_slot _ i a GRelease Hi eq_refl) as H1.
      destruct (Z.ltb_spec 0 (semaphore E st)); [eexists; reflexivity | lia].
    - eexists; reflexivity.
    - discriminate Ha. }
  destruct (pc E st) as [dictionary ipnet' ip | | | |] eqn:Hp;
    try contradiction.
  - destruct (Contains ipnet' ip) eqn:HC.
    + destruct (Z.ltb_spec (semaphore E st) (flag_goroutines f)) as [Hlt | Hge].
      * exists RunMain. cbn [step]. unfold step_main. rewrite Hp, HC.
        apply Z.ltb_lt in Hlt. rewrite Hlt. eexists; reflexivity.
      * destruct (count_pos_member holds_slot (goroutines E st))
          as (i & a & g & Hi & Hg); [lia|].
        destruct (Hrun i a g Hi) as [st' Hst'].
        { destruct g; cbn in Hg |- *; congruence. }
        exists (RunGoroutine i), st'. exact Hst'.
    + exists RunMain. cbn [step]. unfold step_main. rewrite Hp, HC.
      eexists; reflexivity.
  - destruct (Z.eqb_spec (wg E st) 0) as [Hz | Hnz].
    + exists RunMain. cbn [step]. unfold step_main. rewrite Hp.
      apply Z.eqb_eq in Hz. rewrite Hz. eexists; reflexivity.
    + pose proof (count_nonneg alive (goroutines E st)).
      destruct (count_pos_member alive (goroutines E st))
        as (i & a & g & Hi & Hg); [lia|].
      destruct (Hrun i a g Hi Hg) as [st' Hst'].
      exists (RunGoroutine i), st'. exact Hst'.
Qed.

End SchedulerFacts.
(* ---------------------------------------------------------------- *)
(** *** C9: a malformed network *)

(** C9: when [net.ParseCIDR] rejects the [-network] flag, [main] ends in
    [log.Fatalf] before the dispatch loop: with the dictionary and the
    database opened the message is the one of the CIDR error; no step can
    be taken from the initial state, so no goroutine is started, no query
    is sent and the table is left as it was. *)
Theorem malformed_network_is_fatal (E : Env) (f : Flags) (s0 : Store E)
        (err : string) :
  ParseCIDR E (flag_network f) = Err err ->
  (exists msg, main_start E f = MFatal msg)
  /\ (forall dictionary,
         BuildDictionary E "dictionary.txt" = Ok dictionary ->
         initializeDB E (flag_db f) = None ->
         main_start E f = MFatal ("Error parsing CIDR: " ++ err ++ LF))
  /\ (forall c, step E f c (main_init E f s0) = None)
  /\ (forall st, reachable E f s0 st ->
                 goroutines E st = []
                 /\ trace E (store E st) = trace E s0
                 /\ table E (store E st) = table E s0).
Proof.
  intros Hparse.
  assert (Hfatal : exists msg, main_start E f = MFatal msg).
  { unfold main_start. rewrite Hparse.
    destruct (BuildDictionary E "dictionary.txt"); [|eexists; reflexivity].
    destruct (initializeDB E (flag_db f)); eexists; reflexivity. }
  assert (Hstuck : forall c, step E f c (main_init E f s0) = None).
  { destruct Hfatal as [msg Hm]. intros [|i]; cbn [step].
    - unfold step_main, main_init. cbn [pc]. rewrite Hm. reflexivity.
    - unfold step_goroutine, main_init. cbn [goroutines].
      destruct i; reflexivity. }
  split; [exact Hfatal|]. split; [|split; [exact Hstuck|]].
  - intros dictionary Hd Hdb. unfold main_start. rewrite Hd, Hdb, Hparse.
    reflexivity.
  - intros st [[|c sched] Hex].
    + injection Hex as Hex. subst st. repeat split.
    + cbn [exec] in Hex. rewrite Hstuck in Hex. discriminate Hex.
Qed.

Lemma malformed_network_is_fatal_witness :
  main_start Sample.all_ok Sample.bad_network
  = MFatal ("Error parsing CIDR: invalid CIDR address: 10.0.0.8/33" ++ LF)
  /\ step Sample.all_ok Sample.bad_network RunMain
          (main_init Sample.all_ok Sample.bad_network
                     (Sample.store0 Sample.all_ok 0%nat))
     = None.
Proof.
  destruct (malformed_network_is_fatal Sample.all_ok Sample.bad_network
              (Sample.store0 Sample.all_ok 0%nat)
              "invalid CIDR address: 10.0.0.8/33")
    as (_ & Hmsg & Hstuck & _).
  - vm_compute. reflexivity.
  - split; [apply (Hmsg []); vm_compute; reflexivity | apply Hstuck].
Defined.

(* ---------------------------------------------------------------- *)
(** *** Counting the records of a scan *)

Lemma inserts_left_bind {A B : Type} (p : Prog A) (g : A -> Prog B) n m :
  inserts_left p n -> (forall a, inserts_left (g a) m) ->
  inserts_left (bind p g) (n + m).
Proof.
  intros Hp Hg. induction Hp; cbn [bind Nat.add].
  - apply Hg.
  - constructor. auto.
  - constructor. auto.
  - constructor. auto.
Qed.

Section RecordCount.

Variable E : Env.

Lemma additional_body_inserts ip dictionary d :
  inserts_left (additional_body E ip dictionary d) 1.
Proof.
  unfold additional_body, queryAdditionalDNS, performDNSQuery, insertIntoDB.
  cbn [bind]. constructor. intros answers. cbn [bind].
  constructor. cbn [bind]. constructor.
Qed.

Lemma for_range_inserts ip dictionary ds :
  inserts_left (for_range ds (additional_body E ip dictionary)) (List.length ds).
Proof.
  induction ds as [|d ds IH]; cbn [for_range List.length]; [constructor|].
  apply (inserts_left_bind _ _ 1 (List.length ds));
    [apply additional_body_inserts | intros _; exact IH].
Qed.

Lemma additional_loop_inserts ip domains dictionary :
  inserts_left (additional_loop E ip domains dictionary)
               (List.length (additional_domains domains)).
Proof.
  unfold additional_loop, additional_domains.
  destruct (String.eqb domains EmptyString); [constructor|].
  apply for_range_inserts.
Qed.

(** When every request succeeds a task makes one insert for the primary
    domain and one for each additional domain. *)
Lemma queryDNS_inserts ip domain domains dictionary :
  inserts_left (queryDNS E ip domain domains dictionary)
               (1 + List.length (additional_domains domains)).
Proof.
  unfold queryDNS, performDNSQuery, insertIntoDB.
  cbn [bind]. constructor. intros answers. cbn [bind Nat.add].
  constructor. cbn [bind].
  rewrite <- (Nat.add_0_r (List.length (additional_domains domains))).
  apply inserts_left_bind; [apply additional_loop_inserts | intros _; constructor].
Qed.

Hypothesis Hok : all_succeed E.

Lemma step_prog_inserts {A : Type} (p : Prog A) (s : Store E) n :
  inserts_left p n ->
  exists n',
    inserts_left (fst (step_prog E p s)) n'
    /\ (List.length (table E (snd (step_prog E p s))) + n'
        = List.length (table E s) + n)%nat.
Proof.
  destruct Hok as (Hex & Hprep & Hexec).
  intros Hp. destruct Hp as [a | q srv k n Hk | ip d q an k n Hk | m k n Hk];
    cbn [step_prog].
  - exists O. split; [constructor | reflexivity].
  - unfold do_Exchange. destruct (Hex (world E s) q srv) as [answers Ha].
    destruct (client_Exchange E (world E s) q srv) as [r w1].
    cbn [fst] in Ha. subst r. cbn [fst snd table].
    exists n. split; [apply Hk | reflexivity].
  - unfold do_insertIntoDB.
    pose proof (Hprep (world E s)) as H1.
    destruct (db_Preparex E (world E s)) as [e1 w1]. cbn [fst] in H1. subst e1.
    match goal with
    | |- context [stmt_Exec E w1 ?row] =>
        pose proof (Hexec w1 row) as H2;
        destruct (stmt_Exec E w1 row) as [e2 w2]
    end.
    cbn [fst] in H2. subst e2. cbn [fst snd table].
    exists n. split; [exact Hk|]. rewrite length_app. cbn [List.length]. lia.
  - cbn [fst snd do_Printf table]. exists n. split; [exact Hk | reflexivity].
Qed.

Lemma pending_app l1 m1 : forall l2 m2,
  pending l1 m1 -> pending l2 m2 -> pending (l1 ++ l2) (m1 + m2).
Proof.
  intros l2 m2 H1 H2. induction H1 as [|a g n l m Hg Hl IH]; [exact H2|].
  cbn [app]. rewrite <- Nat.add_assoc. constructor; assumption.
Qed.

(** Replacing one goroutine changes the pending inserts by the
    difference of the two. *)
Lemma pending_set i : forall l m a g,
  pending l m ->
  nth_error l i = Some (a, g) ->
  exists n rest,
    m = (n + rest)%nat /\ pending_of g n
    /\ forall g' n', pending_of g' n' ->
                     pending (set_goroutine i g' l) (n' + rest).
Proof.
  induction i as [|i IH]; intros l m a g Hp Hi;
    destruct Hp as [|a0 g0 n l m Hg Hl]; try discriminate Hi.
  - cbn in Hi. injection Hi as -> ->.
    exists n, m. split; [reflexivity|]. split; [exact Hg|].
    intros g' n' Hg'. cbn [set_goroutine]. constructor; assumption.
  - cbn [nth_error] in Hi.
    destruct (IH l m a g Hl Hi) as (n1 & rest & -> & Hg1 & Hset).
    exists n1, (n + rest)%nat. split; [lia|]. split; [exact Hg1|].
    intros g' n' Hg'. cbn [set_goroutine].
    replace (n' + (n + rest))%nat with (n + (n' + rest))%nat by lia.
    constructor; [exact Hg | apply Hset; exact Hg'].
Qed.

Lemma pending_all_exited l m :
  pending l m -> forallb is_exited l = true -> m = O.
Proof.
  induction 1 as [|a g n l m Hg Hl IH]; intros Hall; [reflexivity|].
  cbn [forallb] in Hall. apply andb_true_iff in Hall. destruct Hall as [H1 H2].
  destruct g; try discriminate H1. cbn in Hg. subst n. apply IH. exact H2.
Qed.

Variable f : Flags.
Variable s0 : Store E.

Lemma records_init : records_inv E f s0 (main_init E f s0).
Proof.
  exists O. split; [constructor|]. cbn. lia.
Qed.

Lemma records_step c st st' :
  records_inv E f s0 st -> step E f c st = Some st' -> records_inv E f s0 st'.
Proof.
  intros (m & Hp & Hcount) Hstep. destruct c as [|i]; cbn [step] in Hstep.
  - unfold step_main in Hstep.
    destruct (pc E st) as [dictionary ipnet ip | | | |]; try discriminate Hstep.
    + destruct (Contains ipnet ip).
      * destruct (semaphore E st <? flag_goroutines f)%Z; [|discriminate Hstep].
        injection Hstep as Hstep; subst st'.
        exists (m + (1 + additional_count f + 0))%nat.
        cbn [goroutines store]. split.
        -- apply pending_app; [exact Hp|].
           constructor; [apply queryDNS_inserts | constructor].
        -- rewrite length_app. cbn [List.length]. nia.
      * injection Hstep as Hstep; subst st'. exists m. split; assumption.
    + destruct (wg E st =? 0)%Z; [|discriminate Hstep].
      injection Hstep as Hstep; subst st'. exists m. split; assumption.
  - destruct (step_goroutine_cases E i st st' Hstep)
      as (a & g & g' & Hi & Hgs & _ & Hcase).
    destruct (pending_set i _ _ a g Hp Hi) as (n & rest & -> & Hg & Hset).
    unfold records_inv. rewrite Hgs, set_goroutine_length.
    destruct Hcase as [(p & -> & _ & -> & Hs' & _)
                      | [(r & -> & -> & Ht' & _)
                        | [(-> & -> & Hs' & _) | (-> & -> & Hs' & _)]]].
    + destruct (step_prog_inserts p (store E st) n Hg) as (n' & Hn' & Hlen).
      exists (n' + rest)%nat. split; [apply Hset; exact Hn'|].
      rewrite Hs'. lia.
    + cbn in Hg. inversion Hg; subst.
      exists (0 + rest)%nat. split; [apply Hset; reflexivity|].
      rewrite Ht'. lia.
    + cbn in Hg. subst n.
      exists (0 + rest)%nat. split; [apply Hset; reflexivity|].
      rewrite Hs'. lia.
    + cbn in Hg. subst n.
      exists (0 + rest)%nat. split; [apply Hset; reflexivity|].
      rewrite Hs'. lia.
Qed.

Lemma records_reachable st :
  reachable E f s0 st -> records_inv E f s0 st.
Proof.
  intros [sched Hex]. revert Hex. generalize records_init.
  generalize (main_init E f s0). induction sched as [|c sched IH];
    intros st1 Hinv Hex.
  - injection Hex as Hex; subst st. exact Hinv.
  - cbn [exec] in Hex. destruct (step E f c st1) as [st2|] eqn:Hs;
      [|discriminate Hex].
    apply (IH st2); [apply (records_step c st1); assumption | exact Hex].
Qed.

End RecordCount.

(* ---------------------------------------------------------------- *)
(** *** A goroutine left to run comes to its exit *)

Lemma set_goroutine_twice i g1 g2 : forall l,
  set_goroutine i g2 (set_goroutine i g1 l) = set_goroutine i g2 l.
Proof.
  induction i as [|i IH]; intros [|[a0 g0] l]; cbn [set_goroutine];
    try reflexivity.
  rewrite IH. reflexivity.
Qed.

Lemma nth_error_set_goroutine i g' : forall l a g,
  nth_error l i = Some (a, g) ->
  nth_error (set_goroutine i g' l) i = Some (a, g').
Proof.
  induction i as [|i IH]; intros [|[a0 g0] l] a g H; try discriminate H.
  - cbn in H. injection H as -> ->. reflexivity.
  - cbn [nth_error set_goroutine] in *. apply (IH l a g H).
Qed.

Lemma enumerate_more_fuel ipnet fuel : forall k ip l,
  enumerate fuel ipnet ip = Some l -> enumerate (fuel + k) ipnet ip = Some l.
Proof.
  induction fuel as [|fuel IH]; intros k ip l H; [discriminate H|].
  change (S fuel + k)%nat with (S (fuel + k)). rewrite enumerate_S in H |- *.
  destruct (Contains ipnet ip); [|exact H].
  destruct (enumerate fuel ipnet (inc ip)) as [l'|] eqn:He; [|discriminate H].
  rewrite (IH k _ _ He). exact H.
Qed.

(** The result of the loop does not depend on the fuel. *)
Lemma enumerate_unique ipnet f1 f2 ip l1 l2 :
  enumerate f1 ipnet ip = Some l1 -> enumerate f2 ipnet ip = Some l2 -> l1 = l2.
Proof.
  intros H1 H2.
  apply (enumerate_more_fuel _ _ f2) in H1.
  apply (enumerate_more_fuel _ _ f1) in H2.
  rewrite Nat.add_comm in H2. congruence.
Qed.

Section Completion.

Variable E : Env.
Variable f : Flags.

Lemma exec_app s1 : forall s2 st,
  exec E f (s1 ++ s2) st
  = match exec E f s1 st with
    | Some st1 => exec E f s2 st1
    | None => None
    end.
Proof.
  induction s1 as [|c s1 IH]; intros s2 st; [reflexivity|].
  cbn [app exec]. destruct (step E f c st); [apply IH | reflexivity].
Qed.

(** A goroutine inside [queryDNS] that is left to run reaches its exit:
    it finishes the task, gives its slot back and reports to the wait
    group. *)
Lemma goroutine_runs_to_exit i a (p : Prog error) : forall st,
  nth_error (goroutines E st) i = Some (a, GQuery p) ->
  (0 < semaphore E st)%Z ->
  exists n st',
    exec E f (repeat (RunGoroutine i) n) st = Some st'
    /\ pc E st' = pc E st
    /\ goroutines E st' = set_goroutine i GExited (goroutines E st)
    /\ semaphore E st' = (semaphore E st - 1)%Z
    /\ wg E st' = (wg E st - 1)%Z.
Proof.
  assert (Hend : forall st,
             nth_error (goroutines E st) i = Some (a, GRelease) ->
             (0 < semaphore E st)%Z ->
             exists st',
               exec E f (repeat (RunGoroutine i) 2) st = Some st'
               /\ pc E st' = pc E st
               /\ goroutines E st' = set_goroutine i GExited (goroutines E st)
               /\ semaphore E st' = (semaphore E st - 1)%Z
               /\ wg E st' = (wg E st - 1)%Z).
  { intros st Hi Hsem. cbn [repeat exec step]. unfold step_goroutine at 1.
    rewrite Hi. apply Z.ltb_lt in Hsem. rewrite Hsem.
    unfold step_goroutine. cbn [goroutines].
    rewrite (nth_error_set_goroutine i GDone _ a GRelease Hi).
    eexists. split; [reflexivity|]. cbn.
    rewrite set_goroutine_twice. repeat split. }
  induction p as [r | q srv k IH | ip d q an k IH | m k IH]; intros st Hi Hsem.
  - assert (Hstep : exists st1,
               step E f (RunGoroutine i) st = Some st1
               /\ pc E st1 = pc E st
               /\ goroutines E st1 = set_goroutine i GRelease (goroutines E st)
               /\ semaphore E st1 = semaphore E st /\ wg E st1 = wg E st).
    { cbn [step]. unfold step_goroutine. rewrite Hi.
      destruct r; eexists; (split; [reflexivity|]); repeat split. }
    destruct Hstep as (st1 & Hs1 & Hpc1 & Hg1 & Hsem1 & Hwg1).
    destruct (Hend st1) as (st' & Hex & Hpc' & Hg' & Hsem' & Hwg').
    { rewrite Hg1. apply (nth_error_set_goroutine i GRelease _ a _ Hi). }
    { lia. }
    exists 3%nat, st'. cbn [repeat exec]. rewrite Hs1.
    split; [exact Hex|].
    rewrite Hpc', Hg', Hsem', Hwg', Hg1, set_goroutine_twice.
    repeat split; congruence.
  - destruct (do_Exchange E q srv (store E st)) as [r s1] eqn:Hd.
    set (st1 := mkState E (pc E st)
                        (set_goroutine i (GQuery (k r)) (goroutines E st))
                        (semaphore E st) (wg E st) s1).
    assert (Hs1 : step E f (RunGoroutine i) st = Some st1).
    { cbn [step]. unfold step_goroutine. rewrite Hi. cbn [step_prog].
      rewrite Hd. reflexivity. }
    destruct (IH r st1) as (n & st' & Hex & Hpc' & Hg' & Hsem' & Hwg').
    { apply (nth_error_set_goroutine i _ _ a _ Hi). }
    { exact Hsem. }
    exists (S n), st'. cbn [repeat exec]. rewrite Hs1.
    split; [exact Hex|]. rewrite Hpc', Hg', Hsem', Hwg'.
    cbn [st1 pc goroutines semaphore wg]. rewrite set_goroutine_twice.
    repeat split.
  - destruct (do_insertIntoDB E ip d q an (store E st)) as [e s1] eqn:Hd.
    set (st1 := mkState E (pc E st)
                        (set_goroutine i (GQuery (k e)) (goroutines E st))
                        (semaphore E st) (wg E st) s1).
    assert (Hs1 : step E f (RunGoroutine i) st = Some st1).
    { cbn [step]. unfold step_goroutine. rewrite Hi. cbn [step_prog].
      rewrite Hd. reflexivity. }
    destruct (IH e st1) as (n & st' & Hex & Hpc' & Hg' & Hsem' & Hwg').
    { apply (nth_error_set_goroutine i _ _ a _ Hi). }
    { exact Hsem. }
    exists (S n), st'. cbn [repeat exec]. rewrite Hs1.
    split; [exact Hex|]. rewrite Hpc', Hg', Hsem', Hwg'.
    cbn [st1 pc goroutines semaphore wg]. rewrite set_goroutine_twice.
    repeat split.
  - set (st1 := mkState E (pc E st)
                        (set_goroutine i (GQuery k) (goroutines E st))
                        (semaphore E st) (wg E st)
                        (do_Printf E m (store E st))).
    assert (Hs1 : step E f (RunGoroutine i) st = Some st1).
    { cbn [step]. unfold step_goroutine. rewrite Hi. reflexivity. }
    destruct (IH st1) as (n & st' & Hex & Hpc' & Hg' & Hsem' & Hwg').
    { apply (nth_error_set_goroutine i _ _ a _ Hi). }
    { exact Hsem. }
    exists (S n), st'. cbn [repeat exec]. rewrite Hs1.
    split; [exact Hex|]. rewrite Hpc', Hg', Hsem', Hwg'.
    cbn [st1 pc goroutines semaphore wg]. rewrite set_goroutine_twice.
    repeat split.
Qed.

End Completion.


(* ---------------------------------------------------------------- *)
(** *** Every run of a scan is finite *)

Lemma steps_left_mono {A : Type} (p : Prog A) n :
  steps_left p n -> forall m, (n <= m)%nat -> steps_left p m.
Proof.
  induction 1 as [a n | q srv k n Hk IH | ip d q an k n Hk IH | msg k n Hk IH];
    intros m Hm.
  - constructor.
  - destruct m as [|m]; [lia|]. constructor. intros r. apply IH. lia.
  - destruct m as [|m]; [lia|]. constructor. intros e. apply IH. lia.
  - destruct m as [|m]; [lia|]. constructor. apply IH. lia.
Qed.

Lemma steps_left_bind {A B : Type} (p : Prog A) (g : A -> Prog B) n m :
  steps_left p n -> (forall a, steps_left (g a) m) ->
  steps_left (bind p g) (n + m).
Proof.
  intros Hp Hg.
  induction Hp as [a n | q srv k n Hk IH | ip d q an k n Hk IH | msg k n Hk IH];
    cbn [bind Nat.add].
  - apply (steps_left_mono _ m); [apply Hg | lia].
  - constructor. intros r. apply IH.
  - constructor. intros e. apply IH.
  - constructor. apply IH.
Qed.

Section Termination.

Variable E : Env.
Variable f : Flags.

Lemma additional_body_steps ip dictionary d :
  steps_left (additional_body E ip dictionary d) 3.
Proof.
  unfold additional_body, queryAdditionalDNS, performDNSQuery, insertIntoDB.
  cbn [bind]. constructor. intros [answers | err]; cbn [bind].
  - constructor. intros [err |]; cbn [bind]; repeat constructor.
  - repeat constructor.
Qed.

Lemma for_range_steps ip dictionary ds :
  steps_left (for_range ds (additional_body E ip dictionary))
             (3 * List.length ds).
Proof.
  induction ds as [|d ds IH]; cbn [for_range List.length]; [constructor|].
  replace (3 * S (List.length ds))%nat with (3 + 3 * List.length ds)%nat by lia.
  apply steps_left_bind; [apply additional_body_steps | intros _; exact IH].
Qed.

Lemma queryDNS_steps ip dictionary :
  steps_left (queryDNS E ip (flag_domain f) (flag_domains f) dictionary)
             (task_bound f).
Proof.
  unfold queryDNS, performDNSQuery, insertIntoDB, task_bound, additional_count.
  cbn [bind Nat.add]. constructor. intros [answers | err]; cbn [bind];
    [|constructor].
  constructor. intros [err |]; cbn [bind]; [constructor|].
  rewrite <- (Nat.add_0_r (3 * _)).
  apply steps_left_bind; [|intros _; constructor].
  unfold additional_loop, additional_domains.
  destruct (String.eqb (flag_domains f) EmptyString);
    [constructor | apply for_range_steps].
Qed.

Lemma goroutines_bound_app l1 m1 : forall l2 m2,
  goroutines_bound l1 m1 -> goroutines_bound l2 m2 ->
  goroutines_bound (l1 ++ l2) (m1 + m2).
Proof.
  intros l2 m2 H1 H2. induction H1 as [|a g n l m Hg Hl IH]; [exact H2|].
  cbn [app]. rewrite <- Nat.add_assoc. constructor; assumption.
Qed.

Lemma goroutines_bound_set i : forall l m a g,
  goroutines_bound l m ->
  nth_error l i = Some (a, g) ->
  exists n rest,
    m = (n + rest)%nat /\ goroutine_bound g n
    /\ forall g' n', goroutine_bound g' n' ->
                     goroutines_bound (set_goroutine i g' l) (n' + rest).
Proof.
  induction i as [|i IH]; intros l m a g Hb Hi;
    destruct Hb as [|a0 g0 n l m Hg Hl]; try discriminate Hi.
  - cbn in Hi. injection Hi as -> ->.
    exists n, m. split; [reflexivity|]. split; [exact Hg|].
    intros g' n' Hg'. cbn [set_goroutine]. constructor; assumption.
  - cbn [nth_error] in Hi.
    destruct (IH l m a g Hl Hi) as (n1 & rest & -> & Hg1 & Hset).
    exists n1, (n + rest)%nat. split; [lia|]. split; [exact Hg1|].
    intros g' n' Hg'. cbn [set_goroutine].
    replace (n' + (n + rest))%nat with (n + (n' + rest))%nat by lia.
    constructor; [exact Hg | apply Hset; exact Hg'].
Qed.

(** One request of a task uses up one of the requests it has left. *)
Lemma step_prog_steps {A : Type} (p : Prog A) (s : Store E) k :
  steps_left p k -> (forall r, p <> Ret r) ->
  exists k', steps_left (fst (step_prog E p s)) k' /\ (k' < k)%nat.
Proof.
  intros Hp Hnot.
  destruct Hp as [a n | q srv c n Hk | ip d q an c n Hk | msg c n Hk];
    cbn [step_prog].
  - exfalso. apply (Hnot a). reflexivity.
  - destruct (do_Exchange E q srv s) as [r s1]. exists n.
    split; [apply Hk | lia].
  - destruct (do_insertIntoDB E ip d q an s) as [e s1]. exists n.
    split; [apply Hk | lia].
  - exists n. split; [exact Hk | lia].
Qed.

(** Every step lowers the bound. *)
Lemma run_bound_step c st st' n :
  run_bound E f st n -> step E f c st = Some st' ->
  exists n', run_bound E f st' n' /\ (n' < n)%nat.
Proof.
  intros (a & b & Ha & Hb & ->) Hstep. destruct c as [|i]; cbn [step] in Hstep.
  - unfold step_main in Hstep.
    destruct (pc E st) as [dictionary ipnet ip | | | |] eqn:Hpc;
      try discriminate Hstep; cbn [main_bound] in Ha.
    + destruct Ha as (fuel & l & Hen & ->).
      destruct fuel as [|fuel]; [discriminate Hen|].
      rewrite enumerate_S in Hen.
      destruct (Contains ipnet ip).
      * destruct (semaphore E st <? flag_goroutines f)%Z; [|discriminate Hstep].
        injection Hstep as Hstep; subst st'.
        destruct (enumerate fuel ipnet (inc ip)) as [l'|] eqn:He;
          [|discriminate Hen].
        injection Hen as <-.
        exists (List.length l' * (task_bound f + 4) + 2
                + (b + (task_bound f + 3 + 0)))%nat.
        split; [|cbn [List.length]; lia].
        exists (List.length l' * (task_bound f + 4) + 2)%nat,
               (b + (task_bound f + 3 + 0))%nat.
        cbn [pc goroutines main_bound].
        split; [exists fuel, l'; split; [exact He | reflexivity]|].
        split; [|reflexivity].
        apply goroutines_bound_app; [exact Hb|].
        constructor; [|constructor].
        exists (task_bound f). split; [apply queryDNS_steps | reflexivity].
      * injection Hstep as Hstep; subst st'. injection Hen as <-.
        exists (1 + b)%nat. split; [|cbn [List.length]; lia].
        exists 1%nat, b. cbn [pc goroutines main_bound]. repeat split. exact Hb.
    + destruct (wg E st =? 0)%Z; [|discriminate Hstep].
      injection Hstep as Hstep; subst st'. subst a.
      exists (0 + b)%nat. split; [|lia].
      exists 0%nat, b. cbn [pc goroutines main_bound]. repeat split. exact Hb.
  - destruct (step_goroutine_cases E i st st' Hstep)
      as (ad & g & g' & Hi & Hgs & Hpc' & Hcase).
    destruct (goroutines_bound_set i _ _ ad g Hb Hi) as (n & rest & -> & Hg & Hset).
    assert (Hnew : forall n', goroutine_bound g' n' -> (n' < n)%nat ->
                              exists m, run_bound E f st' m
                                        /\ (m < a + (n + rest))%nat).
    { intros n' Hg' Hlt. exists (a + (n' + rest))%nat. split; [|lia].
      exists a, (n' + rest)%nat. rewrite Hpc', Hgs.
      split; [exact Ha|]. split; [apply Hset; exact Hg' | reflexivity]. }
    destruct Hcase as [(p & -> & Hnot & -> & _)
                      | [(r & -> & -> & _)
                        | [(-> & -> & _) | (-> & -> & _)]]];
      cbn [goroutine_bound] in Hg.
    + destruct Hg as (k & Hk & ->).
      destruct (step_prog_steps p (store E st) k Hk Hnot) as (k' & Hk' & Hlt).
      apply (Hnew (k' + 3)%nat); [|lia].
      exists k'. split; [exact Hk' | reflexivity].
    + destruct Hg as (k & _ & ->). apply (Hnew 2%nat); [reflexivity | lia].
    + subst n. apply (Hnew 1%nat); [reflexivity | lia].
    + subst n. apply (Hnew 0%nat); [reflexivity | lia].
Qed.

Lemma run_bound_exec sched : forall st st' n,
  run_bound E f st n -> exec E f sched st = Some st' ->
  (List.length sched <= n)%nat.
Proof.
  induction sched as [|c sched IH]; intros st st' n Hb Hex; cbn [List.length];
    [lia|].
  cbn [exec] in Hex. destruct (step E f c st) as [st1|] eqn:Hs;
    [|discriminate Hex].
  destruct (run_bound_step c st st1 n Hb Hs) as (n1 & Hb1 & Hlt).
  specialize (IH st1 st' n1 Hb1 Hex). lia.
Qed.

Lemma run_bound_init (s0 : Store E) dictionary ipnet start fuel addrs :
  main_start E f = MLoop dictionary ipnet start ->
  enumerate fuel ipnet start = Some addrs ->
  run_bound E f (main_init E f s0)
            (List.length addrs * (task_bound f + 4) + 2).
Proof.
  intros Hstart Hen.
  exists (List.length addrs * (task_bound f + 4) + 2)%nat, 0%nat.
  cbn [main_init pc goroutines]. rewrite Hstart. cbn [main_bound].
  split; [exists fuel, addrs; split; [exact Hen | reflexivity]|].
  split; [constructor | lia].
Qed.

(** A scan of a network whose enumeration ends cannot run for ever: no
    schedule has more steps than the bound of the initial state. *)
Theorem every_run_is_finite (s0 : Store E) dictionary ipnet start fuel addrs
        sched st :
  main_start E f = MLoop dictionary ipnet start ->
  enumerate fuel ipnet start = Some addrs ->
  exec E f sched (main_init E f s0) = Some st ->
  (List.length sched
   <= List.length addrs * (3 * additional_count f + 6) + 2)%nat.
Proof.
  intros Hstart Hen Hex.
  pose proof (run_bound_exec sched _ _ _
                (run_bound_init s0 dictionary ipnet start fuel addrs Hstart Hen)
                Hex) as H.
  unfold task_bound in H. lia.
Qed.

(** Every state of such a scan has a bound. *)
Lemma run_bound_reachable (s0 : Store E) dictionary ipnet start fuel addrs st :
  main_start E f = MLoop dictionary ipnet start ->
  enumerate fuel ipnet start = Some addrs ->
  reachable E f s0 st ->
  exists n, run_bound E f st n.
Proof.
  intros Hstart Hen [sched0 Hex0]. revert Hex0.
  generalize (run_bound_init s0 dictionary ipnet start fuel addrs Hstart Hen).
  generalize (List.length addrs * (task_bound f + 4) + 2)%nat.
  generalize (main_init E f s0).
  induction sched0 as [|c sched0 IH]; intros st0 n0 Hb0 Hex0.
  - injection Hex0 as Hex0; subst st. exists n0. exact Hb0.
  - cbn [exec] in Hex0. destruct (step E f c st0) as [st1|] eqn:Hs;
      [|discriminate Hex0].
    destruct (run_bound_step c st0 st1 n0 Hb0 Hs) as (n1 & Hb1 & _).
    apply (IH st1 n1 Hb1 Hex0).
Qed.

(** From a state that has a bound, taking steps for as long as one is
    enabled ends with the return of [main]. *)
Lemma run_completes ipnet start :
  (1 <= flag_goroutines f)%Z ->
  forall n st,
    scheduler_inv E f ipnet start st -> run_bound E f st n ->
    exists sched st', exec E f sched st = Some st' /\ pc E st' = MReturned.
Proof.
  intros HN n. induction n as [n IH] using lt_wf_ind. intros st Hinv Hb.
  assert (Hdec : pc E st = MReturned \/ pc E st <> MReturned)
    by (destruct (pc E st); auto; right; discriminate).
  destruct Hdec as [Hret | Hnot].
  - exists [], st. split; [reflexivity | exact Hret].
  - destruct (inv_progress E f ipnet start st HN Hinv Hnot) as (c & st1 & Hs).
    destruct (run_bound_step c st st1 n Hb Hs) as (n1 & Hb1 & Hlt).
    assert (Hinv1 : scheduler_inv E f ipnet start st1).
    { apply (inv_exec E f ipnet start [c] st st1 Hinv).
      cbn [exec]. rewrite Hs. reflexivity. }
    destruct (IH n1 Hlt st1 Hinv1 Hb1) as (sched & st' & Hex & Hret).
    exists (c :: sched), st'. cbn [exec]. rewrite Hs. split; assumption.
Qed.

(** And from every state of such a scan, taking steps for as long as one
    is enabled ends with the return of [main]. *)
Theorem every_run_can_be_completed (s0 : Store E) dictionary ipnet start
        fuel addrs st :
  (1 <= flag_goroutines f)%Z ->
  main_start E f = MLoop dictionary ipnet start ->
  enumerate fuel ipnet start = Some addrs ->
  reachable E f s0 st ->
  exists sched st', exec E f sched st = Some st' /\ pc E st' = MReturned.
Proof.
  intros HN Hstart Hen Hreach.
  destruct (run_bound_reachable s0 dictionary ipnet start fuel addrs st
              Hstart Hen Hreach) as [n Hb].
  apply (run_completes ipnet start HN n st); [|exact Hb].
  apply (inv_reachable E f ipnet start dictionary s0 st Hstart Hreach).
Qed.

End Termination.

(* ================================================================== *)
(** * Further properties of the program *)

(* ---------------------------------------------------------------- *)
(** *** [inc] on addresses of any length *)

Local Open Scope list_scope.
Local Open Scope Z_scope.

Lemma ip_val_snoc pre x : ip_val (pre ++ [x]) = ip_val pre * 256 + x.
Proof. unfold ip_val. rewrite fold_left_app. reflexivity. Qed.

Lemma ip_val_bounds ip :
  Forall is_byte ip -> 0 <= ip_val ip < 256 ^ Z.of_nat (List.length ip).
Proof.
  induction ip as [|x pre IH] using rev_ind; intros Hb.
  - cbn. lia.
  - apply Forall_app in Hb. destruct Hb as [Hpre Hx].
    inversion_clear Hx as [|? ? Hx' _]. unfold is_byte in Hx'.
    specialize (IH Hpre).
    rewrite ip_val_snoc, length_app. cbn [List.length].
    rewrite Nat2Z.inj_add, Z.pow_add_r by lia.
    change (256 ^ Z.of_nat 1) with 256. nia.
Qed.

Lemma nth_middle_Z (pre suf : list Z) x : nth (List.length pre) (pre ++ x :: suf) 0 = x.
Proof. induction pre as [|h pre IH]; [reflexivity | exact IH]. Qed.

Lemma set_nth_middle (pre suf : list Z) x v :
  set_nth (List.length pre) v (pre ++ x :: suf) = pre ++ v :: suf.
Proof.
  induction pre as [|h pre IH]; [reflexivity|].
  cbn [List.length app set_nth]. rewrite IH. reflexivity.
Qed.

(** The loop of [inc] started at index [len(pre)-1] leaves what follows
    [pre] alone. *)
Lemma inc_loop_prefix pre : forall suf,
  inc_loop (List.length pre) (pre ++ suf) = inc_loop (List.length pre) pre ++ suf.
Proof.
  induction pre as [|x pre IH] using rev_ind; intros suf; [reflexivity|].
  rewrite length_app, Nat.add_1_r. cbn [inc_loop].
  rewrite <- app_assoc. cbn [app].
  rewrite !nth_middle_Z, !set_nth_middle.
  destruct (x <? 255).
  - rewrite <- app_assoc. reflexivity.
  - rewrite (IH (0 :: suf)), (IH [0]), <- app_assoc. reflexivity.
Qed.

Lemma inc_snoc pre x :
  inc (pre ++ [x]) = if x <? 255 then pre ++ [x + 1] else inc pre ++ [0].
Proof.
  unfold inc. rewrite length_app, Nat.add_1_r. cbn [inc_loop].
  rewrite nth_middle_Z, !set_nth_middle.
  destruct (x <? 255); [reflexivity | apply inc_loop_prefix].
Qed.

(** [inc] adds one to the big-endian value of the address, modulo
    [256^len]: it keeps the length, keeps every byte a byte, and the
    address of all 255 goes to the address of all 0. *)
Theorem inc_adds_one (ip : IP) :
  Forall is_byte ip ->
  List.length (inc ip) = List.length ip
  /\ Forall is_byte (inc ip)
  /\ ip_val (inc ip) = (ip_val ip + 1) mod 256 ^ Z.of_nat (List.length ip).
Proof.
  intros Hb. split; [apply inc_length|].
  induction ip as [|x pre IH] using rev_ind.
  - split; [constructor | reflexivity].
  - apply Forall_app in Hb. destruct Hb as [Hpre Hx].
    destruct (IH Hpre) as [IHb IHv].
    inversion_clear Hx as [|? ? Hx' _]. unfold is_byte in Hx'.
    pose proof (ip_val_bounds pre Hpre) as Hbound.
    rewrite inc_snoc, length_app. cbn [List.length].
    rewrite Nat2Z.inj_add, Z.pow_add_r by lia.
    change (256 ^ Z.of_nat 1) with 256.
    destruct (Z.ltb_spec x 255).
    + split.
      * apply Forall_app. split; [exact Hpre|].
        constructor; [unfold is_byte; lia | constructor].
      * rewrite !ip_val_snoc. rewrite Z.mod_small; [lia | nia].
    + split.
      * apply Forall_app. split; [exact IHb|].
        constructor; [unfold is_byte; lia | constructor].
      * rewrite !ip_val_snoc, IHv.
        replace (ip_val pre * 256 + x + 1) with ((ip_val pre + 1) * 256) by lia.
        rewrite Z.mul_mod_distr_r by lia. lia.
Qed.

Lemma inc_adds_one_witness :
  ip_val (inc [192; 168; 255; 255]) = (ip_val [192; 168; 255; 255] + 1) mod 256 ^ 4.
Proof.
  apply (inc_adds_one [192; 168; 255; 255]).
  repeat constructor; unfold is_byte; lia.
Defined.

(* ---------------------------------------------------------------- *)
(** *** The first address of the dispatch loop *)

(** For every IPv4 block, the /0 block included, the address the loop
    starts with and the address written in the CIDR both belong to the
    network: the loop is entered, and no scan is empty. *)
Theorem block_contains_its_addresses (a b c d p : Z) :
  is_byte a -> is_byte b -> is_byte c -> is_byte d -> 0 <= p <= 32 ->
  Contains (snd (cidr_v4 a b c d p)) (loop_start (cidr_v4 a b c d p)) = true
  /\ Contains (snd (cidr_v4 a b c d p)) [a; b; c; d] = true
  /\ forall fuel, enumerate fuel (snd (cidr_v4 a b c d p))
                            (loop_start (cidr_v4 a b c d p)) <> Some [].
Proof.
  intros Ha Hb Hc Hd Hp.
  pose proof (block_size_pos p Hp) as Hsize.
  destruct (cidr_v4_shape a b c d p Ha Hb Hc Hd Hp) as [Hstart _].
  cbv zeta in Hstart.
  pose proof (ip_val_bound a b c d p Ha Hb Hc Hd Hp) as Hv.
  assert (Hbase : ip_val [a; b; c; d] / 2 ^ (32 - p) * 2 ^ (32 - p)
                  <= ip_val [a; b; c; d]
                  < ip_val [a; b; c; d] / 2 ^ (32 - p) * 2 ^ (32 - p)
                    + 2 ^ (32 - p)).
  { pose proof (Z.mul_div_le (ip_val [a; b; c; d]) _ Hsize).
    pose proof (Z.mul_succ_div_gt (ip_val [a; b; c; d]) _ Hsize). lia. }
  assert (H1 : Contains (snd (cidr_v4 a b c d p)) (loop_start (cidr_v4 a b c d p))
               = true).
  { rewrite Hstart. apply (block_inside a b c d p Ha Hb Hc Hd Hp). lia. }
  split; [exact H1|]. split.
  - rewrite <- (ip_of_val_val a b c d Ha Hb Hc Hd).
    apply (block_inside a b c d p Ha Hb Hc Hd Hp). exact Hbase.
  - intros [|fuel]; [discriminate|].
    rewrite enumerate_S, H1.
    destruct (enumerate fuel _ _); discriminate.
Qed.

Lemma block_contains_its_addresses_witness :
  Contains (snd (cidr_v4 10 1 2 3 0)) [10; 1; 2; 3] = true.
Proof.
  apply (block_contains_its_addresses 10 1 2 3 0); unfold is_byte; lia.
Defined.

(* ---------------------------------------------------------------- *)
(** *** The text of the answers *)

Local Open Scope string_scope.
Local Open Scope prog_scope.

Lemma Split_app_sep (r rest : string) (sep : ascii) :
  has_byte sep r = false ->
  Split (r ++ String sep rest) sep = r :: Split rest sep.
Proof.
  induction r as [|c r IH]; cbn [append Split has_byte]; intros H.
  - rewrite Ascii.eqb_refl. reflexivity.
  - apply orb_false_iff in H. destruct H as [Hc Hr].
    rewrite Hc, (IH Hr). reflexivity.
Qed.

Lemma count_byte_app c (a b : string) :
  count_byte c (a ++ b) = (count_byte c a + count_byte c b)%nat.
Proof.
  induction a as [|x a IH]; cbn [append count_byte]; [reflexivity|].
  rewrite IH. destruct (Ascii.eqb x c); reflexivity.
Qed.

Lemma count_byte_absent c (s : string) :
  has_byte c s = false -> count_byte c s = O.
Proof.
  induction s as [|x s IH]; cbn [has_byte count_byte]; intros H; [reflexivity|].
  apply orb_false_iff in H. destruct H as [Hx Hs]. rewrite Hx. apply IH, Hs.
Qed.

Lemma dnsRRToString_cons (r : RR) (rest : list RR) :
  dnsRRToString (r :: rest) = r ++ String newline (dnsRRToString rest).
Proof. reflexivity. Qed.

Lemma dnsRRToString_app (a b : list RR) :
  dnsRRToString (a ++ b) = dnsRRToString a ++ dnsRRToString b.
Proof.
  induction a as [|r a IH]; [reflexivity|].
  cbn [app]. rewrite !dnsRRToString_cons, IH, string_app_assoc. reflexivity.
Qed.

(** [dnsRRToString] writes one line per record: when no record's text
    has a newline in it, splitting the answer at the newlines gives back
    the records (and a last, empty segment, for the final newline), and
    the answer has as many newlines as there are records.  The answer of
    two lists put together is the two answers put together; it is empty
    only for a response without records. *)
Theorem dnsRRToString_lines (rr : list RR) :
  Forall (fun r => has_byte newline r = false) rr ->
  Split (dnsRRToString rr) newline = (rr ++ [EmptyString])%list
  /\ count_byte newline (dnsRRToString rr) = List.length rr
  /\ (forall more, dnsRRToString (rr ++ more)
                   = dnsRRToString rr ++ dnsRRToString more)
  /\ (dnsRRToString rr = EmptyString <-> rr = []).
Proof.
  intros Hrr. split; [|split; [|split]].
  - induction Hrr as [|r rest Hr Hrest IH]; [reflexivity|].
    rewrite dnsRRToString_cons, (Split_app_sep _ _ _ Hr), IH. reflexivity.
  - induction Hrr as [|r rest Hr Hrest IH]; [reflexivity|].
    rewrite dnsRRToString_cons, count_byte_app, (count_byte_absent _ _ Hr).
    cbn [count_byte List.length Nat.add]. rewrite Ascii.eqb_refl, IH. reflexivity.
  - intros more. apply dnsRRToString_app.
  - split.
    + destruct rr as [|r rest]; [reflexivity|].
      rewrite dnsRRToString_cons. destruct r; discriminate.
    + intros ->. reflexivity.
Qed.

Lemma dnsRRToString_lines_witness :
  Split (dnsRRToString ["a.example. 60 IN A 192.0.2.1"; "a.example. 60 IN A 192.0.2.2"])
        newline
  = ["a.example. 60 IN A 192.0.2.1"; "a.example. 60 IN A 192.0.2.2"; EmptyString].
Proof.
  apply (dnsRRToString_lines
           ["a.example. 60 IN A 192.0.2.1"; "a.example. 60 IN A 192.0.2.2"]).
  repeat constructor.
Defined.

(* ---------------------------------------------------------------- *)
(** *** The additional domains and the commas of the flag *)

Lemma Split_join (s : string) (sep : ascii) : join_with sep (Split s sep) = s.
Proof.
  induction s as [|c s IH]; [reflexivity|].
  cbn [Split]. pose proof (Split_not_nil s sep) as Hne.
  destruct (Ascii.eqb_spec c sep) as [-> | Hc].
  - destruct (Split s sep) as [|h t]; [contradiction|].
    cbn [join_with append]. cbn [join_with] in IH. rewrite IH. reflexivity.
  - destruct (Split s sep) as [|h [|x t]]; [contradiction | |].
    + cbn [join_with] in *. rewrite IH. reflexivity.
    + cbn [join_with append] in *. rewrite IH. reflexivity.
Qed.

Lemma Split_length (s : string) (sep : ascii) :
  List.length (Split s sep) = S (count_byte sep s).
Proof.
  induction s as [|c s IH]; [reflexivity|].
  cbn [Split count_byte]. pose proof (Split_not_nil s sep) as Hne.
  destruct (Ascii.eqb c sep).
  - cbn [List.length]. rewrite IH. reflexivity.
  - destruct (Split s sep) as [|h t]; [contradiction | exact IH].
Qed.

Lemma Split_segments (s : string) (sep : ascii) :
  Forall (fun seg => has_byte sep seg = false) (Split s sep).
Proof.
  induction s as [|c s IH]; [repeat constructor|].
  cbn [Split]. pose proof (Split_not_nil s sep) as Hne.
  destruct (Ascii.eqb c sep) eqn:Hc.
  - constructor; [reflexivity | exact IH].
  - destruct (Split s sep) as [|h t]; [contradiction|].
    inversion_clear IH as [|? ? Hh Ht].
    constructor; [|exact Ht]. cbn [has_byte]. rewrite Hc, Hh. reflexivity.
Qed.

(** The additional domains are the segments of the [-domains] flag
    between its commas: for a flag that is not empty, putting them together
    with commas gives the flag back, none of them has a comma in it, and a
    task whose primary step did not fail sends one query for the primary
    domain and one for each segment, that is, two more queries than the
    flag has commas. *)
Theorem additional_queries_follow_the_commas (E : Env) (s : Store E) (ip : IP)
        (domain domains : string) (dictionary : list string) :
  domains <> EmptyString ->
  join_with "," (additional_domains domains) = domains
  /\ Forall (fun d => has_byte "," d = false) (additional_domains domains)
  /\ List.length (additional_domains domains) = S (count_byte "," domains)
  /\ (fst (run E (primary_step E ip domain dictionary) s) = None ->
      List.length (exchanges (events_of E (queryDNS E ip domain domains dictionary) s))
      = (2 + count_byte "," domains)%nat).
Proof.
  intros Hne. unfold additional_domains.
  apply String.eqb_neq in Hne. rewrite Hne.
  split; [apply Split_join|]. split; [apply Split_segments|].
  split; [apply Split_length|].
  intros Hok.
  destruct (primary_success_shape E s ip domain domains dictionary Hok)
    as (_ & answers & t & Ht & Hadd).
  rewrite Ht. cbn [exchanges List.length].
  rewrite (additional_events_exchanges E ip _ _ Hadd), length_map.
  unfold additional_domains. rewrite Hne, Split_length. reflexivity.
Qed.

Lemma additional_queries_follow_the_commas_witness :
  List.length
    (exchanges (events_of Sample.all_ok
                  (queryDNS Sample.all_ok [1; 2; 3; 4] "example.com"
                            "a.example,,b.example" [])
                  (Sample.store0 Sample.all_ok 0%nat)))
  = 4%nat.
Proof.
  destruct (additional_queries_follow_the_commas Sample.all_ok
              (Sample.store0 Sample.all_ok 0%nat) [1; 2; 3; 4] "example.com"
              "a.example,,b.example" [])
    as (_ & _ & _ & H); [discriminate|].
  apply H. reflexivity.
Defined.

(* ---------------------------------------------------------------- *)
(** *** The queries and the rows of one task *)

Lemma additional_events_stored (E : Env) ip ds t :
  additional_events E ip ds t ->
  Forall (fun r => exists d answers,
              In d ds
              /\ r = (ip_String E ip, d, Fqdn E d ++ " A", dnsRRToString answers))
         (stored t).
Proof.
  induction 1 as [| d ds err t H IH | d ds answers t H IH
                  | d ds answers err t H IH]; cbn [stored].
  - constructor.
  - eapply Forall_impl; [|exact IH].
    intros r (d' & a' & Hin & Hr). exists d', a'. split; [right; exact Hin | exact Hr].
  - constructor.
    + exists d, answers. split; [left; reflexivity | reflexivity].
    + eapply Forall_impl; [|exact IH].
      intros r (d' & a' & Hin & Hr). exists d', a'.
      split; [right; exact Hin | exact Hr].
  - eapply Forall_impl; [|exact IH].
    intros r (d' & a' & Hin & Hr). exists d', a'. split; [right; exact Hin | exact Hr].
Qed.

Lemma additional_events_stored_length (E : Env) ip ds t :
  additional_events E ip ds t -> (List.length (stored t) <= List.length ds)%nat.
Proof.
  induction 1; cbn [stored List.length]; lia.
Qed.

(** Whatever the resolvers and the database do, a task asks nobody but
    the scanned address, on port 53: its first query is the primary one,
    and it sends either that query alone (the primary step failed) or one
    more for each segment of the additional-domains flag, in the order of
    the flag; it calls [insertIntoDB] once for each answer it got, so
    never more often than it sent queries. *)
Theorem task_queries_only_its_host (E : Env) (s : Store E) (ip : IP)
        (domain domains : string) (dictionary : list string) :
  let t := events_of E (queryDNS E ip domain domains dictionary) s in
  let primary := (Fqdn E (primary_name E ip domain dictionary),
                  JoinHostPort (ip_String E ip) "53") in
  Forall (fun x => snd x = JoinHostPort (ip_String E ip) "53") (exchanges t)
  /\ (exchanges t = [primary]
      \/ exchanges t
         = (primary :: map (fun d => (Fqdn E d, JoinHostPort (ip_String E ip) "53"))
                           (additional_domains domains))%list)
  /\ List.length (inserts t) = answered t
  /\ (answered t <= List.length (exchanges t))%nat.
Proof.
  intros t primary.
  assert (Hshape :
            (exchanges t = [primary]
             \/ exchanges t
                = (primary :: map (fun d => (Fqdn E d, JoinHostPort (ip_String E ip) "53"))
                                  (additional_domains domains))%list)
            /\ List.length (inserts t) = answered t).
  { destruct (fst (run E (primary_step E ip domain dictionary) s)) as [err|] eqn:He.
    - destruct (primary_failure_shape E s ip domain domains dictionary err He)
        as (_ & _ & Hex & Hans).
      split; [left; exact Hex | exact Hans].
    - destruct (primary_success_shape E s ip domain domains dictionary He)
        as (_ & answers & t' & Ht & Hadd).
      fold t in Ht. split.
      + right. rewrite Ht. cbn [exchanges question_of Name].
        rewrite (additional_events_exchanges E ip _ _ Hadd). reflexivity.
      + rewrite Ht. cbn [inserts answered List.length].
        rewrite (additional_events_answered E ip _ _ Hadd). reflexivity. }
  destruct Hshape as [Hex Hans].
  split; [|split; [exact Hex | split; [exact Hans|]]].
  - destruct Hex as [-> | ->].
    + repeat constructor.
    + constructor; [reflexivity|]. apply Forall_forall.
      intros x Hx. apply in_map_iff in Hx. destruct Hx as (d & <- & _). reflexivity.
  - clear. induction t as [|[q srv [ans|err] | i d q a e | m] t IH];
      cbn [answered exchanges List.length]; lia.
Qed.

(** Whatever the resolvers and the database do, every row a task adds to
    the table carries the text of the task's address; the first row, if
    the primary record was stored, is the one of the primary domain with
    the token name as question, and every other row is the row of an
    additional domain with that domain's own name as question; no task
    adds more than one row for the primary domain and one per additional
    domain. *)
Theorem task_rows_are_its_own (E : Env) (s : Store E) (ip : IP)
        (domain domains : string) (dictionary : list string) :
  let rows := rows_of E (queryDNS E ip domain domains dictionary) s in
  table E (snd (run E (queryDNS E ip domain domains dictionary) s))
  = (table E s ++ rows)%list
  /\ Forall (fun row => Ip row = ip_String E ip) rows
  /\ (rows = []
      \/ exists row rest,
          rows = row :: rest
          /\ Domain row = domain
          /\ Query row = Fqdn E (primary_name E ip domain dictionary) ++ " A"
          /\ Forall (fun r => In (Domain r) (additional_domains domains)
                              /\ Query r = Fqdn E (Domain r) ++ " A") rest)
  /\ (List.length rows <= 1 + List.length (additional_domains domains))%nat.
Proof.
  intros rows.
  destruct (table_run E (queryDNS E ip domain domains dictionary) s) as [Htab Hf].
  fold rows in Htab, Hf.
  split; [exact Htab|].
  destruct (fst (run E (primary_step E ip domain dictionary) s)) as [err|] eqn:He.
  - destruct (primary_failure_shape E s ip domain domains dictionary err He)
      as (_ & Hrows & _).
    fold rows in Hrows. rewrite Hrows.
    split; [constructor|]. split; [left; reflexivity | cbn; lia].
  - destruct (primary_success_shape E s ip domain domains dictionary He)
      as (_ & answers & t & Ht & Hadd).
    rewrite Ht in Hf. cbn [stored] in Hf.
    destruct rows as [|row rest]; [discriminate Hf|].
    cbn [map] in Hf. injection Hf as Hi Hd Hq Ha Hrest.
    pose proof (additional_events_stored E ip _ _ Hadd) as Hst.
    pose proof (additional_events_stored_length E ip _ _ Hadd) as Hlen.
    rewrite <- Hrest in Hst, Hlen. rewrite length_map in Hlen.
    rewrite Forall_map in Hst.
    split; [|split].
    + constructor; [exact Hi|].
      eapply Forall_impl; [|exact Hst].
      intros r (d & a & _ & Hr). unfold fields in Hr. congruence.
    + right. exists row, rest. split; [reflexivity|].
      split; [exact Hd|]. split; [exact Hq|].
      eapply Forall_impl; [|exact Hst].
      intros r (d & a & Hin & Hr). unfold fields in Hr.
      injection Hr as _ Hd' Hq' _. subst d. split; assumption.
    + cbn [List.length]. lia.
Qed.

(* ---------------------------------------------------------------- *)
(** *** The start-up of [main] *)

Lemma main_start_cases (E : Env) (f : Flags) :
  started E f \/ (exists msg, main_start E f = MFatal msg) \/ main_start E f = MPanic.
Proof.
  unfold started, main_start.
  destruct (BuildDictionary E "dictionary.txt"); [|right; left; eexists; reflexivity].
  destruct (initializeDB E (flag_db f)); [right; left; eexists; reflexivity|].
  destruct (ParseCIDR E (flag_network f)) as [[ip ipnet]|];
    [|right; left; eexists; reflexivity].
  destruct (flag_goroutines f <? 0)%Z; [right; right; reflexivity|].
  left. do 3 eexists. reflexivity.
Qed.

(** [main] reaches its dispatch loop exactly when the dictionary was
    read, the database was opened and its schema executed, the network flag
    was parsed and the number of goroutines is not negative; the loop then
    starts at the masked address.  The steps are tried in this order: a
    dictionary that cannot be read is fatal whatever the other flags are,
    and [initializeDB] returns the error of [sqlx.Open] without executing
    the schema, else the error of the schema, either being fatal before the
    network flag is looked at.  A scan that did not get through the
    start-up takes no step at all. *)
Theorem startup_order (E : Env) (f : Flags) (s0 : Store E) :
  (forall dictionary ipnet start,
      main_start E f = MLoop dictionary ipnet start <->
      BuildDictionary E "dictionary.txt" = Ok dictionary
      /\ sqlx_Open E (flag_db f) = None
      /\ Exec_schema E (flag_db f) = None
      /\ (exists ip, ParseCIDR E (flag_network f) = Ok (ip, ipnet)
                     /\ start = Mask ip (net_Mask ipnet))
      /\ (0 <= flag_goroutines f)%Z)
  /\ (forall err, BuildDictionary E "dictionary.txt" = Err err ->
                  main_start E f = MFatal ("Error building dictionary: " ++ err ++ LF))
  /\ (forall dictionary err,
         BuildDictionary E "dictionary.txt" = Ok dictionary ->
         (sqlx_Open E (flag_db f) = Some err
          \/ (sqlx_Open E (flag_db f) = None /\ Exec_schema E (flag_db f) = Some err)) ->
         initializeDB E (flag_db f) = Some err
         /\ main_start E f = MFatal ("Error initializing database: " ++ err ++ LF))
  /\ (~ started E f ->
      forall st, reachable E f s0 st -> st = main_init E f s0).
Proof.
  split; [|split; [|split]].
  - intros dictionary ipnet start. unfold main_start, initializeDB.
    destruct (BuildDictionary E "dictionary.txt") as [dict | e0].
    2:{ split; [discriminate | intros (H & _); discriminate H]. }
    destruct (sqlx_Open E (flag_db f)) as [e1|].
    { split; [discriminate | intros (_ & H & _); discriminate H]. }
    destruct (Exec_schema E (flag_db f)) as [e2|].
    { split; [discriminate | intros (_ & _ & H & _); discriminate H]. }
    destruct (ParseCIDR E (flag_network f)) as [[ip0 ipnet0] | e3].
    2:{ split; [discriminate | intros (_ & _ & _ & (ip & H & _) & _); discriminate H]. }
    destruct (Z.ltb_spec (flag_goroutines f) 0) as [Hneg | Hpos].
    { split; [discriminate | intros (_ & _ & _ & _ & H); lia]. }
    split.
    + intros H. injection H as -> -> <-.
      repeat split; try assumption. exists ip0. split; reflexivity.
    + intros (Hd & _ & _ & (ip & Hp & ->) & _).
      injection Hd as ->. injection Hp as -> ->. reflexivity.
  - intros err H. unfold main_start. rewrite H. reflexivity.
  - intros dictionary err Hd Hdb.
    assert (Hinit : initializeDB E (flag_db f) = Some err).
    { unfold initializeDB. destruct Hdb as [H | [H1 H2]].
      - rewrite H. reflexivity.
      - rewrite H1. exact H2. }
    split; [exact Hinit|]. unfold main_start. rewrite Hd, Hinit. reflexivity.
  - intros Hnot st [sched Hex].
    assert (Hstuck : forall c, step E f c (main_init E f s0) = None).
    { intros [|i]; cbn [step].
      - unfold step_main, main_init. cbn [pc].
        destruct (main_start_cases E f) as [(d & n & a & Hm) | [[msg Hm] | Hm]];
          [exfalso; apply Hnot; exists d, n, a; exact Hm | |];
          rewrite Hm; reflexivity.
      - unfold step_goroutine, main_init. cbn [goroutines].
        destruct i; reflexivity. }
    destruct sched as [|c sched].
    + injection Hex as Hex. symmetry. exact Hex.
    + cbn [exec] in Hex. rewrite Hstuck in Hex. discriminate Hex.
Qed.

(* ---------------------------------------------------------------- *)
(** *** A scan without slots *)

(** With [-goroutines 0] the channel has no room: the first send of
    [main] can never complete, since only a goroutine started after it
    could receive.  No address is dispatched, no query is sent, and [main] does
    not return. *)
Theorem no_slot_no_scan (E : Env) (f : Flags) (s0 : Store E)
        (dictionary : list string) (ipnet : IPNet) (start : IP) :
  flag_goroutines f = 0%Z ->
  main_start E f = MLoop dictionary ipnet start ->
  Contains ipnet start = true ->
  (forall c, step E f c (main_init E f s0) = None)
  /\ forall st, reachable E f s0 st ->
                st = main_init E f s0
                /\ dispatched E st = []
                /\ trace E (store E st) = trace E s0
                /\ pc E st <> MReturned.
Proof.
  intros HN Hstart HC.
  assert (Hstuck : forall c, step E f c (main_init E f s0) = None).
  { intros [|i]; cbn [step].
    - unfold step_main, main_init. cbn [pc semaphore].
      rewrite Hstart, HC, HN. reflexivity.
    - unfold step_goroutine, main_init. cbn [goroutines].
      destruct i; reflexivity. }
  split; [exact Hstuck|].
  intros st [[|c sched] Hex].
  - injection Hex as Hex. subst st. repeat split.
    cbn [main_init pc]. rewrite Hstart. discriminate.
  - cbn [exec] in Hex. rewrite Hstuck in Hex. discriminate Hex.
Qed.

Lemma no_slot_no_scan_witness :
  step Sample.all_ok (Sample.flags "10.0.0.8/30" "b.example" 0) RunMain
       (main_init Sample.all_ok (Sample.flags "10.0.0.8/30" "b.example" 0)
                  (Sample.store0 Sample.all_ok 0%nat))
  = None.
Proof.
  apply (no_slot_no_scan Sample.all_ok (Sample.flags "10.0.0.8/30" "b.example" 0)
           (Sample.store0 Sample.all_ok 0%nat) []
           (snd (cidr_v4 10 0 0 8 30)) [10; 0; 0; 8]); reflexivity.
Defined.

(* ---------------------------------------------------------------- *)
(** *** The table during a scan *)

Lemma only_inserts_impl (P Q : string -> string -> Prop) {A : Type} (p : Prog A) :
  (forall i d, P i d -> Q i d) -> only_inserts P p -> only_inserts Q p.
Proof.
  intros HPQ Hp. induction Hp; constructor; auto.
Qed.

Lemma only_inserts_bind (P : string -> string -> Prop) {A B : Type}
      (p : Prog A) (g : A -> Prog B) :
  only_inserts P p -> (forall a, only_inserts P (g a)) -> only_inserts P (bind p g).
Proof.
  intros Hp Hg. induction Hp; cbn [bind]; try constructor; auto.
Qed.

Section ScanLog.

Variable E : Env.

Lemma grows_refl P s : grows E P s s.
Proof.
  exists [], []. rewrite !app_nil_r. repeat split. constructor.
Qed.

Lemma grows_trans P s1 s2 s3 :
  grows E P s1 s2 -> grows E P s2 s3 -> grows E P s1 s3.
Proof.
  intros (t1 & r1 & Ht1 & Hr1 & Hf1 & HP1) (t2 & r2 & Ht2 & Hr2 & Hf2 & HP2).
  exists (t1 ++ t2)%list, (r1 ++ r2)%list.
  rewrite Ht2, Hr2, Ht1, Hr1, <- !app_assoc, map_app, stored_app, Hf1, Hf2.
  repeat split. apply Forall_app. split; assumption.
Qed.

Lemma grows_impl (P Q : string -> string -> Prop) s s' :
  (forall i d, P i d -> Q i d) -> grows E P s s' -> grows E Q s s'.
Proof.
  intros HPQ (t & r & Ht & Hr & Hf & HP). exists t, r. repeat split; auto.
  eapply Forall_impl; [|exact HP]. intros x. apply HPQ.
Qed.

Lemma do_Printf_grows P msg s : grows E P s (do_Printf E msg s).
Proof.
  exists [EvPrintf msg], []. rewrite app_nil_r. repeat split. constructor.
Qed.

Lemma do_insertIntoDB_grows_with (P : string -> string -> Prop) i d q a s :
  P i d -> grows E P s (snd (do_insertIntoDB E i d q a s)).
Proof.
  intros HP. unfold do_insertIntoDB.
  destruct (db_Preparex E (world E s)) as [[err|] w1]; cbn [snd].
  - exists [EvInsert i d q a (Some err)], []. rewrite app_nil_r.
    repeat split. constructor.
  - destruct (stmt_Exec E w1 _) as [[err|] w2]; cbn [snd].
    + exists [EvInsert i d q a (Some err)], []. rewrite app_nil_r.
      repeat split. constructor.
    + eexists [EvInsert i d q a None], [_]. repeat split.
      constructor; [exact HP | constructor].
Qed.

(** One request of a task adds to the trace and the table, and leaves a
    task that still only asks for the inserts it may. *)
Lemma step_prog_grows (P : string -> string -> Prop) {A : Type}
      (p : Prog A) (s : Store E) :
  only_inserts P p ->
  only_inserts P (fst (step_prog E p s))
  /\ grows E P s (snd (step_prog E p s)).
Proof.
  intros Hp. destruct Hp as [a | q srv k Hk | i d q a k HP Hk | msg k Hk];
    cbn [step_prog].
  - split; [constructor | apply grows_refl].
  - unfold do_Exchange. destruct (client_Exchange E (world E s) q srv) as [r w1].
    cbn [fst snd]. split; [apply Hk|].
    exists [EvExchange q srv r], []. rewrite app_nil_r. repeat split. constructor.
  - pose proof (do_insertIntoDB_grows_with P i d q a s HP) as Hg.
    destruct (do_insertIntoDB E i d q a s) as [e s1]. cbn [fst snd] in *.
    split; [apply Hk | exact Hg].
  - cbn [fst snd]. split; [exact Hk | apply do_Printf_grows].
Qed.

Lemma queryDNS_only_inserts (P : string -> string -> Prop) ip domain domains
      dictionary :
  P (ip_String E ip) domain ->
  (forall d, In d (additional_domains domains) -> P (ip_String E ip) d) ->
  only_inserts P (queryDNS E ip domain domains dictionary).
Proof.
  intros Hprim Hadd.
  assert (Hbody : forall d, P (ip_String E ip) d ->
                            only_inserts P (additional_body E ip dictionary d)).
  { intros d Hd.
    unfold additional_body, queryAdditionalDNS, performDNSQuery, insertIntoDB.
    cbn [bind]. constructor. intros [answers | err]; cbn [bind].
    - constructor; [exact Hd|]. intros [err|]; cbn [bind]; repeat constructor.
    - repeat constructor. }
  assert (Hloop : forall ds, (forall d, In d ds -> P (ip_String E ip) d) ->
                             only_inserts P (for_range ds (additional_body E ip dictionary))).
  { induction ds as [|d ds IH]; intros Hds; cbn [for_range]; [constructor|].
    apply only_inserts_bind; [apply Hbody, Hds; left; reflexivity|].
    intros _. apply IH. intros d' Hd'. apply Hds. right. exact Hd'. }
  unfold queryDNS, performDNSQuery, insertIntoDB.
  cbn [bind]. constructor. intros [answers | err]; cbn [bind]; [|constructor].
  constructor; [exact Hprim|]. intros [err|]; cbn [bind]; [constructor|].
  apply only_inserts_bind; [|intros _; constructor].
  unfold additional_loop. unfold additional_domains in Hadd.
  destruct (String.eqb domains EmptyString); [constructor | apply Hloop, Hadd].
Qed.

(** What a step of a goroutine does to the store. *)
Lemma step_goroutine_store i st st' :
  step_goroutine E i st = Some st' ->
  (exists a p, nth_error (goroutines E st) i = Some (a, GQuery p)
               /\ store E st' = snd (step_prog E p (store E st)))
  \/ (exists msg, store E st' = do_Printf E msg (store E st))
  \/ store E st' = store E st.
Proof.
  unfold step_goroutine.
  destruct (nth_error (goroutines E st) i) as [[a g]|]; [|discriminate].
  intros H. destruct g as [p | | |].
  - destruct p as [[err|] | q srv k | ip d q an k | m k];
      cbv beta iota zeta in H.
    + injection H as H; subst st'. right. left. eexists. reflexivity.
    + injection H as H; subst st'. right. right. reflexivity.
    + left. exists a, (Exchange q srv k). split; [reflexivity|].
      destruct (step_prog E (Exchange q srv k) (store E st)) as [p' s1].
      injection H as H; subst st'. reflexivity.
    + left. exists a, (InsertIntoDB ip d q an k). split; [reflexivity|].
      destruct (step_prog E (InsertIntoDB ip d q an k) (store E st)) as [p' s1].
      injection H as H; subst st'. reflexivity.
    + left. exists a, (Printf m k). split; [reflexivity|].
      destruct (step_prog E (Printf m k) (store E st)) as [p' s1].
      injection H as H; subst st'. reflexivity.
  - destruct (0 <? semaphore E st)%Z; [|discriminate].
    injection H as H; subst st'. right. right. reflexivity.
  - injection H as H; subst st'. right. right. reflexivity.
  - discriminate.
Qed.

Lemma Forall_set_goroutine (Q : IP * Goroutine -> Prop) i g' : forall l a g,
  nth_error l i = Some (a, g) -> Forall Q l -> Q (a, g') ->
  Forall Q (set_goroutine i g' l).
Proof.
  induction i as [|i IH]; intros [|[a0 g0] l] a g Hi Hl Hq; try discriminate Hi.
  - cbn in Hi. injection Hi as -> ->. inversion_clear Hl.
    cbn [set_goroutine]. constructor; assumption.
  - cbn [nth_error] in Hi. inversion_clear Hl as [|? ? H0 Hl'].
    cbn [set_goroutine]. constructor; [exact H0 | apply (IH l a g); assumption].
Qed.

Variable f : Flags.
Variable s0 : Store E.

Lemma row_of_scan_mono l l' i d :
  incl l l' -> row_of_scan E f l i d -> row_of_scan E f l' i d.
Proof.
  intros Hincl [(a & Ha & Hi) Hd]. split; [|exact Hd].
  exists a. split; [apply Hincl, Ha | exact Hi].
Qed.

Lemma scan_log_step c st st' :
  scan_log_inv E f s0 st -> step E f c st = Some st' -> scan_log_inv E f s0 st'.
Proof.
  intros [Hg Hall] Hstep. destruct c as [|i]; cbn [step] in Hstep.
  - unfold step_main in Hstep.
    destruct (pc E st) as [dictionary ipnet ip | | | |]; try discriminate Hstep.
    + destruct (Contains ipnet ip).
      * destruct (semaphore E st <? flag_goroutines f)%Z; [|discriminate Hstep].
        injection Hstep as Hstep; subst st'.
        unfold scan_log_inv, dispatched in *. cbn [goroutines store].
        rewrite map_app. cbn [map fst].
        assert (Hincl : incl (map fst (goroutines E st))
                             (map fst (goroutines E st) ++ [ip]))
          by (apply incl_appl, incl_refl).
        split.
        -- eapply grows_impl; [|exact Hg].
           intros i0 d0. apply row_of_scan_mono, Hincl.
        -- apply Forall_app. split.
           ++ eapply Forall_impl; [|exact Hall].
              intros g Hq p Hp. eapply only_inserts_impl; [|apply (Hq p Hp)].
              intros i0 d0. apply row_of_scan_mono, Hincl.
           ++ constructor; [|constructor].
              intros p Hp. cbn [snd] in Hp. injection Hp as <-.
              assert (Hin : exists a, In a (map fst (goroutines E st) ++ [ip])
                                      /\ ip_String E ip = ip_String E a).
              { exists ip. split; [apply in_or_app; right; left|]; reflexivity. }
              apply queryDNS_only_inserts.
              ** split; [exact Hin | left; reflexivity].
              ** intros d Hd. split; [exact Hin | right; exact Hd].
      * injection Hstep as Hstep; subst st'. split; assumption.
    + destruct (wg E st =? 0)%Z; [|discriminate Hstep].
      injection Hstep as Hstep; subst st'. split; assumption.
  - destruct (step_goroutine_cases E i st st' Hstep)
      as (a & g & g' & Hi & Hgs & _ & Hcase).
    pose proof (step_goroutine_store i st st' Hstep) as Hstore.
    assert (Hd : dispatched E st' = dispatched E st)
      by (unfold dispatched; rewrite Hgs; apply set_goroutine_fst).
    unfold scan_log_inv. rewrite Hd, Hgs. split.
    + apply (grows_trans _ _ _ _ Hg).
      destruct Hstore as [(a1 & p & Hi1 & ->) | [(msg & ->) | ->]].
      * rewrite Forall_forall in Hall.
        apply step_prog_grows, (Hall (a1, GQuery p));
          [apply (nth_error_In _ _ Hi1) | reflexivity].
      * apply do_Printf_grows.
      * apply grows_refl.
    + apply (Forall_set_goroutine _ i g' _ a g Hi Hall).
      intros p Hp. cbn [snd] in Hp.
      destruct Hcase as [(p0 & -> & _ & -> & _)
                        | [(r & _ & -> & _)
                          | [(_ & -> & _) | (_ & -> & _)]]];
        try discriminate Hp.
      injection Hp as <-. rewrite Forall_forall in Hall.
      apply step_prog_grows, (Hall (a, GQuery p0));
        [apply (nth_error_In _ _ Hi) | reflexivity].
Qed.

(** During a scan the table is only ever added to.  In every state
    reached, under every schedule and whatever fails, the table is the
    table the scan found followed by one row for each insert that
    succeeded so far, in the order of the trace; none of the rows that
    were there has been changed or removed; and each added row carries
    the text of an address already handed to a goroutine and, as domain,
    the primary domain or one of the additional domains. *)
Theorem table_is_append_only (st : State E) :
  reachable E f s0 st ->
  exists t rows,
    trace E (store E st) = (trace E s0 ++ t)%list
    /\ table E (store E st) = (table E s0 ++ rows)%list
    /\ map fields rows = stored t
    /\ Forall (fun r => row_of_scan E f (dispatched E st) (Ip r) (Domain r)) rows.
Proof.
  intros [sched Hex].
  assert (H0 : scan_log_inv E f s0 (main_init E f s0)).
  { split; [apply grows_refl | constructor]. }
  assert (Hok : scan_log_inv E f s0 st).
  { revert Hex H0. generalize (main_init E f s0).
    induction sched as [|c sched IH]; intros st1 Hex H1.
    - injection Hex as Hex; subst st. exact H1.
    - cbn [exec] in Hex. destruct (step E f c st1) as [st2|] eqn:Hs;
        [|discriminate Hex].
      apply (IH st2 Hex). apply (scan_log_step c st1); assumption. }
  exact (proj1 Hok).
Qed.

End ScanLog.

Lemma table_is_append_only_witness :
  exists t rows,
    table Sample.all_ok (store Sample.all_ok Sample.finished) = ([] ++ rows)%list
    /\ map fields rows = stored t
    /\ Forall (fun r => row_of_scan Sample.all_ok Sample.scan30
                                    (dispatched Sample.all_ok Sample.finished)
                                    (Ip r) (Domain r)) rows.
Proof.
  destruct (table_is_append_only Sample.all_ok Sample.scan30
              (Sample.store0 Sample.all_ok 0%nat) Sample.finished)
    as (t & rows & _ & Htab & Hf & HP).
  - apply after_reached. vm_compute. reflexivity.
  - exists t, rows. repeat split; assumption.
Defined.

(* ---------------------------------------------------------------- *)
(** *** Runs of a sample scan *)

Lemma after_exec (E : Env) (f : Flags) (w : World E) (sched : list Choice) :
  match exec E f sched (main_init E f (Sample.store0 E w)) with
  | Some _ => true
  | None => false
  end = true ->
  exec E f sched (main_init E f (Sample.store0 E w))
  = Some (Sample.after E f w sched).
Proof.
  intros H. unfold Sample.after.
  destruct (exec E f sched (main_init E f (Sample.store0 E w)));
    [reflexivity | discriminate H].
Qed.

Lemma every_run_is_finite_witness :
  (List.length (Sample.one_by_one 4 7 0 ++ [RunMain; RunMain])
   <= 4 * (3 * additional_count Sample.scan30 + 6) + 2)%nat.
Proof.
  apply (every_run_is_finite Sample.all_ok Sample.scan30
           (Sample.store0 Sample.all_ok 0%nat) []
           (snd (cidr_v4 10 0 0 8 30)) [10; 0; 0; 8] 5
           [[10; 0; 0; 8]; [10; 0; 0; 9]; [10; 0; 0; 10]; [10; 0; 0; 11]]
           (Sample.one_by_one 4 7 0 ++ [RunMain; RunMain])%list
           Sample.finished).
  - reflexivity.
  - reflexivity.
  - apply after_exec. vm_compute. reflexivity.
Defined.

Lemma every_run_can_be_completed_witness :
  exists sched st',
    exec Sample.all_ok Sample.scan30 sched Sample.two_started = Some st'
    /\ pc Sample.all_ok st' = MReturned.
Proof.
  apply (every_run_can_be_completed Sample.all_ok Sample.scan30
           (Sample.store0 Sample.all_ok 0%nat) []
           (snd (cidr_v4 10 0 0 8 30)) [10; 0; 0; 8] 5
           [[10; 0; 0; 8]; [10; 0; 0; 9]; [10; 0; 0; 10]; [10; 0; 0; 11]]
           Sample.two_started).
  - vm_compute. discriminate.
  - reflexivity.
  - reflexivity.
  - apply after_reached. vm_compute. reflexivity.
Defined.

(* ---------------------------------------------------------------- *)
(** *** The text of an address *)

Lemma ubtoa_read_back x :
  is_byte x -> Sample.parse_number (ubtoa x) = Some x.
Proof.
  intros Hx.
  assert (H : match Sample.parse_number (ubtoa x) with
              | Some w => (w =? x)%Z
              | None => false
              end = true)
    by (apply (byte_forall (fun x => match Sample.parse_number (ubtoa x) with
                                     | Some w => (w =? x)%Z
                                     | None => false
                                     end));
        [vm_compute; reflexivity | exact Hx]).
  destruct (Sample.parse_number (ubtoa x)) as [w|]; [|discriminate H].
  apply Z.eqb_eq in H. subst w. reflexivity.
Qed.

Lemma ubtoa_no_dot x : is_byte x -> has_byte "." (ubtoa x) = false.
Proof.
  intros Hx. apply negb_true_iff.
  apply (byte_forall (fun x => negb (has_byte "." (ubtoa x))));
    [vm_compute; reflexivity | exact Hx].
Qed.

Lemma Split_absent (s : string) (sep : ascii) :
  has_byte sep s = false -> Split s sep = [s].
Proof.
  induction s as [|c s IH]; cbn [has_byte Split]; intros H; [reflexivity|].
  apply orb_false_iff in H. destruct H as [Hc Hs].
  rewrite Hc, (IH Hs). reflexivity.
Qed.

Lemma Split_dotted (l : list Z) :
  l <> [] -> Forall is_byte l -> Split (dotted l) "." = map ubtoa l.
Proof.
  induction l as [|x l IH]; intros Hne Hl; [contradiction|].
  inversion_clear Hl as [|? ? Hx Hl'].
  destruct l as [|y l].
  - cbn [dotted map]. apply Split_absent, ubtoa_no_dot, Hx.
  - change (dotted (x :: y :: l)) with (ubtoa x ++ String "." (dotted (y :: l))).
    rewrite Split_app_sep by (apply ubtoa_no_dot, Hx).
    rewrite IH by (try discriminate; assumption). reflexivity.
Qed.

Lemma map_ubtoa_inj : forall x y : list Z,
  Forall is_byte x -> Forall is_byte y -> map ubtoa x = map ubtoa y -> x = y.
Proof.
  induction x as [|a x IH]; intros [|b y] Hx Hy H; try discriminate H;
    [reflexivity|].
  inversion_clear Hx as [|? ? Ha Hx']. inversion_clear Hy as [|? ? Hb Hy'].
  cbn [map] in H. injection H as Hab Hrest.
  assert (a = b).
  { pose proof (ubtoa_read_back a Ha) as Ra. rewrite Hab in Ra.
    rewrite (ubtoa_read_back b Hb) in Ra. injection Ra as Ra. symmetry. exact Ra. }
  subst b. f_equal. apply IH; assumption.
Qed.

Lemma v4_shape (x : IP) :
  List.length x = 4%nat -> Forall is_byte x ->
  exists a b c d, x = [a; b; c; d]
                  /\ is_byte a /\ is_byte b /\ is_byte c /\ is_byte d.
Proof.
  intros Hlen Hx.
  destruct x as [|a [|b [|c [|d [|e x]]]]]; try discriminate Hlen.
  inversion_clear Hx as [|? ? Ha Hx1]. inversion_clear Hx1 as [|? ? Hb Hx2].
  inversion_clear Hx2 as [|? ? Hc Hx3]. inversion_clear Hx3 as [|? ? Hd _].
  exists a, b, c, d.
  split; [reflexivity | repeat (split; [assumption|]); assumption].
Qed.

(** The text [ip.String()] gives an IPv4 address reads back as the four
    bytes, so two different addresses have different texts, and the
    server [net.JoinHostPort(ip.String(), "53")] a task sends its queries
    to is that of no other address: the text is followed by [:53],
    without brackets. *)
Theorem each_host_has_its_own_server (E : Env) (x y : IP) :
  List.length x = 4%nat -> List.length y = 4%nat ->
  Forall is_byte x -> Forall is_byte y ->
  Split (ip_String E x) "." = map ubtoa x
  /\ server_of E x = ip_String E x ++ ":53"
  /\ (ip_String E x = ip_String E y -> x = y)
  /\ (server_of E x = server_of E y -> x = y).
Proof.
  intros Lx Ly Hx Hy.
  destruct (v4_shape x Lx Hx) as (a & b & c & d & -> & Ha & Hb & Hc & Hd).
  destruct (v4_shape y Ly Hy) as (a' & b' & c' & d' & -> & Ha' & Hb' & Hc' & Hd').
  destruct (server_of_v4 E a b c d Ha Hb Hc Hd) as [Sx Vx].
  destruct (server_of_v4 E a' b' c' d' Ha' Hb' Hc' Hd') as [Sy Vy].
  assert (Htext : dotted [a; b; c; d] = dotted [a'; b'; c'; d'] ->
                  [a; b; c; d] = [a'; b'; c'; d']).
  { intros H. apply map_ubtoa_inj; try assumption.
    rewrite <- !Split_dotted by (try discriminate; assumption).
    rewrite H. reflexivity. }
  assert (Hcolon : forall l, List.length l = 4%nat -> Forall is_byte l ->
                             has_byte ":" (dotted l) = false).
  { intros l Ll Hl.
    destruct (v4_shape l Ll Hl) as (p & q & r & s & -> & Hp & Hq & Hr & Hs).
    cbn [dotted]. rewrite !has_byte_app.
    rewrite (proj1 (ubtoa_digits p Hp)), (proj1 (ubtoa_digits q Hq)),
      (proj1 (ubtoa_digits r Hr)), (proj1 (ubtoa_digits s Hs)). reflexivity. }
  rewrite Vx, Vy, Sx, Sy.
  split; [apply Split_dotted; [discriminate | assumption]|].
  split; [reflexivity|]. split; [exact Htext|].
  intros H. apply Htext.
  assert (H' : Split (dotted [a; b; c; d] ++ String ":" "53") ":"
               = Split (dotted [a'; b'; c'; d'] ++ String ":" "53") ":")
    by (f_equal; exact H).
  rewrite !Split_app_sep in H' by (apply Hcolon; [reflexivity | assumption]).
  injection H' as H'. exact H'.
Qed.

Lemma each_host_has_its_own_server_witness :
  server_of Sample.all_ok [10; 0; 0; 8] = "10.0.0.8:53"
  /\ (server_of Sample.all_ok [10; 0; 0; 8] = server_of Sample.all_ok [10; 0; 0; 8]
      -> [10; 0; 0; 8] = [10; 0; 0; 8]).
Proof.
  destruct (each_host_has_its_own_server Sample.all_ok [10; 0; 0; 8] [10; 0; 0; 8])
    as (_ & Hs & _ & Hinj).
  - reflexivity.
  - reflexivity.
  - repeat constructor; unfold is_byte; lia.
  - repeat constructor; unfold is_byte; lia.
  - split; [rewrite Hs; reflexivity | exact Hinj].
Defined.

(* ================================================================== *)
(** * Tasks inside the scan *)

(* ---------------------------------------------------------------- *)
(** *** A goroutine left to run its task *)

Lemma set_goroutine_same i : forall (l : list (IP * Goroutine)) a g,
  nth_error l i = Some (a, g) -> set_goroutine i g l = l.
Proof.
  induction i as [|i IH]; intros [|[a0 g0] l] a g H; try discriminate H.
  - cbn in H. injection H as -> ->. reflexivity.
  - cbn [nth_error] in H. cbn [set_goroutine]. rewrite (IH l a g H). reflexivity.
Qed.

(** A goroutine inside [queryDNS] that is given the steps comes to the
    return of [queryDNS] with the result, the table and the trace of the
    task run without interruption. *)
Lemma goroutine_runs_task (E : Env) (f : Flags) i a (p : Prog error) : forall st,
  nth_error (goroutines E st) i = Some (a, GQuery p) ->
  exists n st',
    exec E f (repeat (RunGoroutine i) n) st = Some st'
    /\ pc E st' = pc E st
    /\ goroutines E st'
       = set_goroutine i (GQuery (Ret (fst (run E p (store E st)))))
                       (goroutines E st)
    /\ semaphore E st' = semaphore E st
    /\ wg E st' = wg E st
    /\ store E st' = snd (run E p (store E st)).
Proof.
  induction p as [r | q srv k IH | ip d q an k IH | m k IH]; intros st Hi.
  - exists O, st. cbn [repeat exec run fst snd].
    rewrite (set_goroutine_same i _ a _ Hi). repeat split.
  - destruct (do_Exchange E q srv (store E st)) as [r s1] eqn:Hd.
    set (st1 := mkState E (pc E st)
                        (set_goroutine i (GQuery (k r)) (goroutines E st))
                        (semaphore E st) (wg E st) s1).
    assert (Hs1 : step E f (RunGoroutine i) st = Some st1).
    { cbn [step]. unfold step_goroutine. rewrite Hi. cbn [step_prog].
      rewrite Hd. reflexivity. }
    destruct (IH r st1) as (n & st' & Hex & Hpc' & Hg' & Hsem' & Hwg' & Hst').
    { apply (nth_error_set_goroutine i _ _ a _ Hi). }
    exists (S n), st'. cbn [repeat exec run]. rewrite Hs1, Hd.
    split; [exact Hex|]. rewrite Hpc', Hg', Hsem', Hwg', Hst'.
    cbn [st1 pc goroutines semaphore wg store]. rewrite set_goroutine_twice.
    repeat split.
  - destruct (do_insertIntoDB E ip d q an (store E st)) as [e s1] eqn:Hd.
    set (st1 := mkState E (pc E st)
                        (set_goroutine i (GQuery (k e)) (goroutines E st))
                        (semaphore E st) (wg E st) s1).
    assert (Hs1 : step E f (RunGoroutine i) st = Some st1).
    { cbn [step]. unfold step_goroutine. rewrite Hi. cbn [step_prog].
      rewrite Hd. reflexivity. }
    destruct (IH e st1) as (n & st' & Hex & Hpc' & Hg' & Hsem' & Hwg' & Hst').
    { apply (nth_error_set_goroutine i _ _ a _ Hi). }
    exists (S n), st'. cbn [repeat exec run]. rewrite Hs1, Hd.
    split; [exact Hex|]. rewrite Hpc', Hg', Hsem', Hwg', Hst'.
    cbn [st1 pc goroutines semaphore wg store]. rewrite set_goroutine_twice.
    repeat split.
  - set (st1 := mkState E (pc E st)
                        (set_goroutine i (GQuery k) (goroutines E st))
                        (semaphore E st) (wg E st)
                        (do_Printf E m (store E st))).
    assert (Hs1 : step E f (RunGoroutine i) st = Some st1).
    { cbn [step]. unfold step_goroutine. rewrite Hi. reflexivity. }
    destruct (IH st1) as (n & st' & Hex & Hpc' & Hg' & Hsem' & Hwg' & Hst').
    { apply (nth_error_set_goroutine i _ _ a _ Hi). }
    exists (S n), st'. cbn [repeat exec run]. rewrite Hs1.
    split; [exact Hex|]. rewrite Hpc', Hg', Hsem', Hwg', Hst'.
    cbn [st1 pc goroutines semaphore wg store]. rewrite set_goroutine_twice.
    repeat split.
Qed.

(** The step of a goroutine after the return of [queryDNS]: the error, if
    there is one, is logged, and the goroutine is at its receive. *)
Lemma goroutine_logs (E : Env) (f : Flags) i a (e : error) st :
  nth_error (goroutines E st) i = Some (a, GQuery (Ret e)) ->
  exists st',
    step E f (RunGoroutine i) st = Some st'
    /\ pc E st' = pc E st
    /\ goroutines E st' = set_goroutine i GRelease (goroutines E st)
    /\ semaphore E st' = semaphore E st
    /\ wg E st' = wg E st
    /\ world E (store E st') = world E (store E st)
    /\ table E (store E st') = table E (store E st)
    /\ trace E (store E st') = (trace E (store E st) ++ goroutine_log e)%list.
Proof.
  intros Hi. cbn [step]. unfold step_goroutine. rewrite Hi.
  destruct e as [err|]; eexists; (split; [reflexivity|]);
    cbn [pc goroutines semaphore wg store do_Printf world table trace goroutine_log];
    rewrite ?app_nil_r; repeat split.
Qed.

Lemma exec_snoc (E : Env) (f : Flags) sched c st st1 st2 :
  exec E f sched st = Some st1 -> step E f c st1 = Some st2 ->
  exec E f (sched ++ [c]) st = Some st2.
Proof.
  intros H1 H2. rewrite exec_app, H1. cbn [exec]. rewrite H2. reflexivity.
Qed.

(** In the loop over the additional domains a failed insert is followed
    at once by its log line. *)
Lemma additional_events_failed_insert (E : Env) ip ds t :
  additional_events E ip ds t ->
  forall pre i d q a err post,
    t = (pre ++ EvInsert i d q a (Some err) :: post)%list ->
    exists post',
      post = EvPrintf ("Error querying additional DNS: " ++ err ++ LF) :: post'.
Proof.
  induction 1 as [| d0 ds err0 t Ht IH | d0 ds answers t Ht IH
                 | d0 ds answers err0 t Ht IH];
    intros pre i d q a err post Heq.
  - destruct pre; discriminate Heq.
  - destruct pre as [|e1 [|e2 pre]]; try discriminate Heq.
    cbn [app] in Heq. injection Heq as _ _ Heq. apply (IH _ _ _ _ _ _ _ Heq).
  - destruct pre as [|e1 [|e2 pre]]; try discriminate Heq.
    cbn [app] in Heq. injection Heq as _ _ Heq. apply (IH _ _ _ _ _ _ _ Heq).
  - destruct pre as [|e1 [|e2 [|e3 pre]]]; try discriminate Heq.
    + cbn [app] in Heq. injection Heq as _ _ _ _ _ <- <-.
      eexists. reflexivity.
    + cbn [app] in Heq. injection Heq as _ _ _ Heq.
      apply (IH _ _ _ _ _ _ _ Heq).
Qed.

(* ---------------------------------------------------------------- *)
(** *** C5: a failure to write a record (the amended claim) *)

(** C5, amended: a failed write never stops the scan, it only decides what
    the task of that address still does.  [queryDNS] returns the error of
    its primary step, and only that one; every answer the task obtains is
    handed to [insertIntoDB], whatever inserts failed before.  After a
    primary step without error all additional domains are queried and
    their records written, also past an additional record that could not
    be written; after a failed primary step (a failed write of the primary
    record included) the task makes no further query.  Every failed write
    is logged: the one of an additional record by the line [Error querying
    additional DNS: ...] that follows it at once in the trace; the one of
    the primary record is the last event of the task, its error is what
    [queryDNS] returns, and the goroutine logs it as [Error querying DNS:
    ...] in its next step and is then at the receive that releases its
    slot, with [main], the channel, the wait group and the table as they
    were.  A goroutine started on the task and given the steps leaves
    exactly this in the trace. *)
Theorem insert_failure_contained (E : Env) (s : Store E) (ip : IP)
        (domain domains : string) (dictionary : list string) (e : error) :
  fst (run E (primary_step E ip domain dictionary) s) = e ->
  let t := events_of E (queryDNS E ip domain domains dictionary) s in
  let q1 := question_of E (primary_name E ip domain dictionary) in
  fst (run E (queryDNS E ip domain domains dictionary) s) = e
  /\ List.length (inserts t) = answered t
  /\ (e = None ->
      forall d, In d (additional_domains domains) ->
                In (Fqdn E d, server_of E ip) (exchanges t))
  /\ (e <> None ->
      exchanges t = [(Fqdn E (primary_name E ip domain dictionary), server_of E ip)])
  /\ (e = None ->
      exists answers t',
        t = EvExchange q1 (server_of E ip) (Ok answers)
            :: EvInsert (ip_String E ip) domain (dnsQuestionToString q1)
                        (dnsRRToString answers) None :: t'
        /\ additional_events E ip (additional_domains domains) t')
  /\ (forall pre i d q a err post,
         t = (pre ++ EvInsert i d q a (Some err) :: post)%list ->
         (e = Some err /\ post = [])
         \/ (e = None
             /\ exists post',
                 post = EvPrintf ("Error querying additional DNS: " ++ err ++ LF)
                        :: post'))
  /\ (forall f st i a err,
         nth_error (goroutines E st) i = Some (a, GQuery (Ret (Some err))) ->
         exists st',
           step E f (RunGoroutine i) st = Some st'
           /\ pc E st' = pc E st
           /\ table E (store E st') = table E (store E st)
           /\ goroutines E st' = set_goroutine i GRelease (goroutines E st)
           /\ semaphore E st' = semaphore E st
           /\ wg E st' = wg E st
           /\ trace E (store E st')
              = (trace E (store E st)
                 ++ [EvPrintf ("Error querying DNS: " ++ err ++ LF)])%list)
  /\ (forall f st i a,
         nth_error (goroutines E st) i
         = Some (a, GQuery (queryDNS E ip domain domains dictionary)) ->
         store E st = s ->
         exists n st',
           exec E f (repeat (RunGoroutine i) n) st = Some st'
           /\ pc E st' = pc E st
           /\ goroutines E st' = set_goroutine i GRelease (goroutines E st)
           /\ semaphore E st' = semaphore E st
           /\ wg E st' = wg E st
           /\ table E (store E st')
              = (table E s ++ rows_of E (queryDNS E ip domain domains dictionary) s)%list
           /\ trace E (store E st') = (trace E s ++ t ++ goroutine_log e)%list).
Proof.
  intros He t q1.
  assert (Hgo : forall f st i a err,
             nth_error (goroutines E st) i = Some (a, GQuery (Ret (Some err))) ->
             exists st',
               step E f (RunGoroutine i) st = Some st'
               /\ pc E st' = pc E st
               /\ table E (store E st') = table E (store E st)
               /\ goroutines E st' = set_goroutine i GRelease (goroutines E st)
               /\ semaphore E st' = semaphore E st
               /\ wg E st' = wg E st
               /\ trace E (store E st')
                  = (trace E (store E st)
                     ++ [EvPrintf ("Error querying DNS: " ++ err ++ LF)])%list).
  { intros f st i a err Hi.
    destruct (goroutine_logs E f i a (Some err) st Hi)
      as (st' & Hs & Hpc & Hg & Hsem & Hwg & _ & Htab & Htr).
    exists st'. repeat split; assumption. }
  assert (Hres : fst (run E (queryDNS E ip domain domains dictionary) s) = e).
  { rewrite queryDNS_run.
    destruct (run E (primary_step E ip domain dictionary) s) as [e0 s1].
    cbn [fst] in He. subst e0. destruct e; reflexivity. }
  assert (Hrun : forall f st i a,
             nth_error (goroutines E st) i
             = Some (a, GQuery (queryDNS E ip domain domains dictionary)) ->
             store E st = s ->
             exists n st',
               exec E f (repeat (RunGoroutine i) n) st = Some st'
               /\ pc E st' = pc E st
               /\ goroutines E st' = set_goroutine i GRelease (goroutines E st)
               /\ semaphore E st' = semaphore E st
               /\ wg E st' = wg E st
               /\ table E (store E st')
                  = (table E s
                     ++ rows_of E (queryDNS E ip domain domains dictionary) s)%list
               /\ trace E (store E st') = (trace E s ++ t ++ goroutine_log e)%list).
  { intros f st i a Hi Hs.
    destruct (goroutine_runs_task E f i a _ st Hi)
      as (n & st1 & Hex1 & Hpc1 & Hg1 & Hsem1 & Hwg1 & Hst1).
    rewrite Hs, Hres in *.
    destruct (goroutine_logs E f i a e st1) as
      (st2 & Hs2 & Hpc2 & Hg2 & Hsem2 & Hwg2 & _ & Htab2 & Htr2).
    { rewrite Hg1. apply (nth_error_set_goroutine i _ _ a _ Hi). }
    exists (n + 1)%nat, st2. rewrite repeat_app. cbn [repeat].
    split; [apply (exec_snoc E f _ _ st st1 st2 Hex1 Hs2)|].
    rewrite Hpc2, Hg2, Hsem2, Hwg2, Htab2, Htr2, Hpc1, Hg1, Hsem1, Hwg1, Hst1.
    rewrite set_goroutine_twice, trace_run, <- app_assoc.
    rewrite (proj1 (table_run E (queryDNS E ip domain domains dictionary) s)).
    repeat split. }
  destruct e as [err|].
  - destruct (primary_failure_shape E s ip domain domains dictionary err He)
      as (Hr & _ & Hex & Hans).
    assert (Hev : t = events_of E (primary_step E ip domain dictionary) s)
      by (unfold t, events_of; rewrite Hr; reflexivity).
    split; [exact Hres|]. split; [exact Hans|].
    split; [discriminate|]. split; [intros _; exact Hex|].
    split; [discriminate|]. split; [|split; [exact Hgo | exact Hrun]].
    intros pre i d q a err' post Heq. left. rewrite Hev in Heq.
    destruct (primary_step_shape E ip domain dictionary s)
      as [(x & _ & _ & Ht) | (answers & _ & Ht)]; rewrite Ht in Heq.
    + destruct pre as [|e1 [|e2 pre]]; discriminate Heq.
    + rewrite He in Heq.
      destruct pre as [|e1 [|e2 pre]]; try discriminate Heq.
      * cbn [app] in Heq. injection Heq as _ _ _ _ _ Herr Hpost.
        subst post. rewrite Herr. split; reflexivity.
      * cbn [app] in Heq. injection Heq as _ _ Heq.
        destruct pre; discriminate Heq.
  - destruct (primary_success_shape E s ip domain domains dictionary He)
      as (_ & answers & t' & Ht & Hadd).
    fold t q1 in Ht.
    split; [exact Hres|]. split; [|split; [|split; [|split; [|split]]]].
    + rewrite Ht. cbn [inserts answered List.length].
      rewrite (additional_events_answered E ip _ _ Hadd). reflexivity.
    + intros _ d Hd. rewrite Ht. cbn [exchanges]. right.
      rewrite (additional_events_exchanges E ip _ _ Hadd).
      apply in_map_iff. exists d. split; [reflexivity | exact Hd].
    + intros Hn. contradiction.
    + intros _. exists answers, t'. split; assumption.
    + intros pre i d q a err post Heq. right. split; [reflexivity|].
      rewrite Ht in Heq.
      destruct pre as [|e1 [|e2 pre]]; try discriminate Heq.
      cbn [app] in Heq. injection Heq as _ _ Heq.
      apply (additional_events_failed_insert E ip _ _ Hadd _ _ _ _ _ _ _ Heq).
    + split; [exact Hgo | exact Hrun].
Qed.

Lemma insert_failure_contained_witness :
  inserts (events_of Sample.second_insert_fails
             (queryDNS Sample.second_insert_fails [1; 2; 3; 4] "example.com"
                       "a.example,b.example" [])
             (Sample.store0 Sample.second_insert_fails 0%nat))
  = [("1.2.3.4", "example.com", "tok-1.2.3.4.example.com. A", EmptyString, None);
     ("1.2.3.4", "a.example", "a.example. A", EmptyString, Some "database is locked");
     ("1.2.3.4", "b.example", "b.example. A", EmptyString, None)]
  /\ In ("b.example.", "1.2.3.4:53")
        (exchanges (events_of Sample.second_insert_fails
                      (queryDNS Sample.second_insert_fails [1; 2; 3; 4]
                                "example.com" "a.example,b.example" [])
                      (Sample.store0 Sample.second_insert_fails 0%nat))).
Proof.
  split; [vm_compute; reflexivity|].
  destruct (insert_failure_contained Sample.second_insert_fails
              (Sample.store0 Sample.second_insert_fails 0%nat) [1; 2; 3; 4]
              "example.com" "a.example,b.example" [] None)
    as (_ & _ & Hall & _).
  - vm_compute. reflexivity.
  - apply (Hall eq_refl "b.example"). vm_compute. right. left. reflexivity.
Defined.

(* ================================================================== *)
(** * The scan as a whole *)

(* ---------------------------------------------------------------- *)
(** *** A loop that ends visits no address twice *)

Local Open Scope list_scope.
Local Open Scope Z_scope.

Lemma nth_visited k : forall i ip d,
  (i < k)%nat -> nth i (visited k ip) d = Nat.iter i inc ip.
Proof.
  induction k as [|k IH]; intros i ip d Hi; [lia|].
  cbn [visited]. destruct i as [|i]; [reflexivity|].
  cbn [nth]. rewrite IH by lia. rewrite Nat.iter_succ_r. reflexivity.
Qed.

Lemma firstn_visited k : forall n ip,
  (k <= n)%nat -> firstn k (visited n ip) = visited k ip.
Proof.
  induction k as [|k IH]; intros n ip Hk; [reflexivity|].
  destruct n as [|n]; [lia|]. cbn [visited firstn].
  rewrite IH by lia. reflexivity.
Qed.

Lemma iter_inc_period i j start :
  Nat.iter i inc start = Nat.iter j inc start ->
  forall m, Nat.iter (m + i) inc start = Nat.iter (m + j) inc start.
Proof.
  intros H m. induction m as [|m IH]; [exact H|].
  cbn [Nat.add]. rewrite !Nat.iter_succ, IH. reflexivity.
Qed.

(** When the loop has come to the same address twice it never leaves the
    network. *)
Lemma repeat_stays_inside ipnet start n i j :
  (i < j)%nat -> (j <= n)%nat ->
  Nat.iter i inc start = Nat.iter j inc start ->
  (forall k, (k < n)%nat -> Contains ipnet (Nat.iter k inc start) = true) ->
  forall k, Contains ipnet (Nat.iter k inc start) = true.
Proof.
  intros Hij Hjn Heq Hin k.
  induction k as [k IH] using lt_wf_ind.
  destruct (Nat.lt_ge_cases k n) as [Hk | Hk]; [apply Hin, Hk|].
  replace k with ((k - j) + j)%nat by lia.
  rewrite <- (iter_inc_period i j start Heq (k - j)).
  apply IH. lia.
Qed.

Lemma enumerate_NoDup ipnet fuel start addrs :
  enumerate fuel ipnet start = Some addrs -> NoDup addrs.
Proof.
  intros Hen.
  destruct (enumerate_is_visited ipnet fuel start addrs Hen) as (Hv & Hin & Hout).
  set (n := List.length addrs) in *.
  assert (Hk : forall k, (k < n)%nat -> Contains ipnet (Nat.iter k inc start) = true).
  { intros k Hlt. rewrite Forall_forall in Hin.
    rewrite <- (nth_visited n k start [] Hlt), <- Hv.
    apply Hin, nth_In. exact Hlt. }
  assert (Hno : forall i j, (i < j)%nat -> (j < n)%nat ->
                            Nat.iter i inc start <> Nat.iter j inc start).
  { intros i j Hij Hj Heq.
    pose proof (repeat_stays_inside ipnet start n i j Hij (Nat.lt_le_incl _ _ Hj)
                  Heq Hk n) as Hc.
    rewrite Hc in Hout. discriminate Hout. }
  apply (proj2 (NoDup_nth addrs [])). fold n. intros i j Hi Hj Heq.
  rewrite Hv, !nth_visited in Heq by assumption.
  destruct (Nat.lt_trichotomy i j) as [Hlt | [He | Hgt]]; [|exact He|].
  - exfalso. apply (Hno i j Hlt Hj Heq).
  - exfalso. apply (Hno j i Hgt Hi). symmetry. exact Heq.
Qed.

(** The addresses handed out so far are the first addresses of the
    enumeration. *)
Lemma dispatched_prefix ipnet fuel start addrs k :
  enumerate fuel ipnet start = Some addrs ->
  Forall (fun ip => Contains ipnet ip = true) (visited k start) ->
  (k <= List.length addrs)%nat /\ visited k start = firstn k addrs.
Proof.
  intros Hen Hin.
  destruct (enumerate_is_visited ipnet fuel start addrs Hen) as (Hv & _ & Hout).
  assert (Hk : (k <= List.length addrs)%nat).
  { destruct (Nat.le_gt_cases k (List.length addrs)) as [H | H]; [exact H|].
    exfalso. rewrite Forall_forall in Hin.
    rewrite <- (nth_visited k _ start [] H) in Hout.
    rewrite Hin in Hout; [discriminate Hout|].
    apply nth_In. rewrite visited_length. exact H. }
  split; [exact Hk|]. rewrite Hv at 1. rewrite firstn_visited by exact Hk.
  reflexivity.
Qed.

Local Open Scope string_scope.

(* ---------------------------------------------------------------- *)
(** *** Every goroutine works on its own address *)

Section OwnAddress.

Variable E : Env.
Variable f : Flags.
Variable s0 : Store E.
Variable dictionary : list string.

Lemma asked_more t t1 a :
  asked E f dictionary t a -> asked E f dictionary (t ++ t1)%list a.
Proof.
  intros [r Hr]. exists r. apply in_or_app. left. exact Hr.
Qed.

(** What a step of a goroutine adds to the trace: the first request of
    [queryDNS] adds the primary exchange. *)
Lemma step_goroutine_trace i st st' :
  step_goroutine E i st = Some st' ->
  exists t1,
    trace E (store E st') = (trace E (store E st) ++ t1)%list
    /\ forall a,
        nth_error (goroutines E st) i
        = Some (a, GQuery (queryDNS E a (flag_domain f) (flag_domains f)
                                    dictionary)) ->
        asked E f dictionary t1 a.
Proof.
  unfold step_goroutine.
  destruct (nth_error (goroutines E st) i) as [[a g]|]; [|discriminate].
  intros H. destruct g as [p | | |].
  - destruct p as [[err|] | q srv k | ip d q an k | m k];
      cbv beta iota zeta in H.
    + injection H as H; subst st'. eexists. split; [reflexivity|].
      intros a' Ha. discriminate Ha.
    + injection H as H; subst st'. exists []. rewrite app_nil_r.
      split; [reflexivity|]. intros a' Ha. discriminate Ha.
    + cbn [step_prog] in H. unfold do_Exchange in H.
      destruct (client_Exchange E (world E (store E st)) q srv) as [r w1].
      injection H as H; subst st'. cbn [store trace].
      eexists. split; [reflexivity|].
      intros a' Ha. injection Ha as <- -> -> _.
      exists r. left. reflexivity.
    + cbn [step_prog] in H.
      pose proof (do_insertIntoDB_grows E ip d q an (store E st)) as Hg.
      destruct (do_insertIntoDB E ip d q an (store E st)) as [e s1].
      destruct Hg as [Ht _]. cbn [fst snd] in Ht.
      injection H as H; subst st'. cbn [store].
      eexists. split; [exact Ht|]. intros a' Ha. discriminate Ha.
    + cbn [step_prog] in H. injection H as H; subst st'.
      cbn [store do_Printf trace]. eexists. split; [reflexivity|].
      intros a' Ha. discriminate Ha.
  - destruct (0 <? semaphore E st)%Z; [|discriminate].
    injection H as H; subst st'. exists []. rewrite app_nil_r.
    split; [reflexivity|]. intros a' Ha. discriminate Ha.
  - injection H as H; subst st'. exists []. rewrite app_nil_r.
    split; [reflexivity|]. intros a' Ha. discriminate Ha.
  - discriminate.
Qed.

Lemma own_address_step c st st' :
  own_address_inv E f s0 dictionary st -> step E f c st = Some st' ->
  own_address_inv E f s0 dictionary st'.
Proof.
  intros [(t & Ht & Hall) Hpc] Hstep. destruct c as [|i]; cbn [step] in Hstep.
  - unfold step_main in Hstep.
    destruct (pc E st) as [dictionary' ipnet ip | | | |]; try discriminate Hstep.
    + subst dictionary'. destruct (Contains ipnet ip).
      * destruct (semaphore E st <? flag_goroutines f)%Z; [|discriminate Hstep].
        injection Hstep as Hstep; subst st'.
        split; [|reflexivity]. cbn [store goroutines].
        exists t. split; [exact Ht|].
        apply Forall_app. split; [exact Hall|].
        constructor; [left; reflexivity | constructor].
      * injection Hstep as Hstep; subst st'.
        split; [exists t; split; assumption | exact I].
    + destruct (wg E st =? 0)%Z; [|discriminate Hstep].
      injection Hstep as Hstep; subst st'.
      split; [exists t; split; assumption | exact I].
  - destruct (step_goroutine_trace i st st' Hstep) as (t1 & Ht1 & Hfirst).
    destruct (step_goroutine_cases E i st st' Hstep)
      as (a & g & g' & Hi & Hgs & Hpc' & Hcase).
    split; [|rewrite Hpc'; exact Hpc].
    exists (t ++ t1)%list. rewrite Ht1, Ht, <- app_assoc.
    split; [reflexivity|]. rewrite Hgs.
    assert (Hold : works_on_own_address E f dictionary t (a, g)).
    { rewrite Forall_forall in Hall. apply Hall, (nth_error_In _ _ Hi). }
    assert (Hnew : asked E f dictionary (t ++ t1)%list a).
    { destruct Hold as [Hq | Hasked]; [|apply asked_more, Hasked].
      cbn [fst snd] in Hq. subst g.
      destruct (Hfirst a Hi) as [r Hr]. exists r. apply in_or_app.
      right. exact Hr. }
    apply (Forall_set_goroutine _ i g' _ a g Hi).
    + eapply Forall_impl; [|exact Hall].
      intros x [Hx | Hx]; [left; exact Hx | right; apply asked_more, Hx].
    + right. exact Hnew.
Qed.

Lemma own_address_reachable ipnet start st :
  main_start E f = MLoop dictionary ipnet start ->
  reachable E f s0 st -> own_address_inv E f s0 dictionary st.
Proof.
  intros Hstart [sched Hex].
  assert (H0 : own_address_inv E f s0 dictionary (main_init E f s0)).
  { split.
    - exists []. rewrite app_nil_r. split; [reflexivity | constructor].
    - cbn [main_init pc]. rewrite Hstart. reflexivity. }
  revert Hex H0. generalize (main_init E f s0).
  induction sched as [|c sched IH]; intros st1 Hex H1.
  - injection Hex as Hex; subst st. exact H1.
  - cbn [exec] in Hex. destruct (step E f c st1) as [st2|] eqn:Hs;
      [|discriminate Hex].
    apply (IH st2 Hex). apply (own_address_step c st1); assumption.
Qed.

End OwnAddress.

(* ---------------------------------------------------------------- *)
(** *** C2: the scheduler *)

(** C2: with a limit [N >= 1], in every state of every run, whatever the
    schedule: at most [N] goroutines are inside [queryDNS]; the addresses
    handed to goroutines are the addresses the loop went through, in order
    and one goroutine per iteration, all of them in the network; once the
    loop is left they are exactly the enumerated addresses; [main] has
    returned only if every goroutine has exited, whether its task failed or
    not; until [main] returns some step can always be taken; and every
    goroutine works on the address it was started for: it is still at its
    call of [queryDNS] for that address or the primary query for that
    address has been sent, so that at the return of [main] every
    dispatched address has been queried.  For every enumerated address
    sequence [addrs]: no address occurs twice in it; the addresses
    dispatched so far are its first ones, each once; when [main] has
    returned they are all of [addrs]; no schedule from the state goes on
    for more than a fixed number of steps; a run from the state that can
    take no further step has [main] returned, one goroutine started for
    each address of [addrs] and every goroutine exited; and the state can
    be continued to the return of [main].  So every run, continued for as
    long as a step can be taken, ends, and ends with [main] returned after
    each address of [addrs] was dispatched exactly once and every task has
    finished. *)
Theorem scheduler_bounded_and_complete (E : Env) (f : Flags) (s0 : Store E)
        (dictionary : list string) (ipnet : IPNet) (start : IP) (st : State E) :
  (1 <= flag_goroutines f)%Z ->
  main_start E f = MLoop dictionary ipnet start ->
  reachable E f s0 st ->
  (Z.of_nat (executing E st) <= flag_goroutines f)%Z
  /\ dispatched E st = visited (List.length (dispatched E st)) start
  /\ Forall (fun ip => Contains ipnet ip = true) (dispatched E st)
  /\ (pc E st = MWait \/ pc E st = MReturned ->
      enumerate (S (List.length (dispatched E st))) ipnet start
      = Some (dispatched E st))
  /\ (pc E st = MReturned -> forallb is_exited (goroutines E st) = true)
  /\ (pc E st <> MReturned -> exists c st', step E f c st = Some st')
  /\ (exists t,
         trace E (store E st) = (trace E s0 ++ t)%list
         /\ Forall (works_on_own_address E f dictionary t) (goroutines E st)
         /\ (pc E st = MReturned ->
             Forall (asked E f dictionary t) (dispatched E st)))
  /\ (forall fuel addrs,
         enumerate fuel ipnet start = Some addrs ->
         NoDup addrs
         /\ dispatched E st = firstn (List.length (dispatched E st)) addrs
         /\ (pc E st = MReturned -> dispatched E st = addrs)
         /\ (forall sched st',
                exec E f sched st = Some st' ->
                (List.length sched
                 <= List.length addrs * (3 * additional_count f + 6) + 2)%nat)
         /\ (forall sched st',
                exec E f sched st = Some st' ->
                (forall c, step E f c st' = None) ->
                pc E st' = MReturned
                /\ dispatched E st' = addrs
                /\ forallb is_exited (goroutines E st') = true)
         /\ (exists sched st',
                exec E f sched st = Some st' /\ pc E st' = MReturned)).
Proof.
  intros HN Hstart Hreach.
  pose proof (inv_reachable E f ipnet start dictionary s0 st Hstart Hreach) as Hinv.
  pose proof (inv_progress E f ipnet start st HN Hinv) as Hprog.
  pose proof (inv_returned E f ipnet start st Hinv) as Hret.
  destruct (own_address_reachable E f s0 dictionary ipnet start st Hstart Hreach)
    as [(t & Ht & Hown) _].
  pose proof Hinv as (Hsem & Hwg & Hcap & Hdisp & Hin & Hpc).
  assert (Hlen : List.length (dispatched E st) = List.length (goroutines E st))
    by (unfold dispatched; apply length_map).
  rewrite Hlen.
  split; [|split; [exact Hdisp | split; [exact Hin | split; [|split; [|split;
    [exact Hprog | split]]]]]].
  - change (Z.of_nat (executing E st)) with (count is_querying (goroutines E st)).
    pose proof (querying_le_slots (goroutines E st)). lia.
  - intros [Hp | Hp]; rewrite Hp in Hpc; [exact Hpc | apply Hpc].
  - intros Hp. apply Hret, Hp.
  - exists t. split; [exact Ht|]. split; [exact Hown|].
    intros Hp. destruct (Hret Hp) as [_ Hex].
    unfold dispatched. rewrite Forall_map.
    rewrite forallb_forall in Hex. rewrite Forall_forall in Hown |- *.
    intros g Hg. specialize (Hex g Hg). unfold is_exited in Hex.
    destruct (Hown g Hg) as [Hq | Ha]; [|exact Ha].
    rewrite Hq in Hex. discriminate Hex.
  - intros fuel addrs Hen.
    split; [apply (enumerate_NoDup ipnet fuel start addrs Hen)|].
    split; [|split; [|split; [|split]]].
    + rewrite Hdisp at 1. rewrite Hdisp in Hin.
      apply (dispatched_prefix ipnet fuel start addrs _ Hen Hin).
    + intros Hp. destruct (Hret Hp) as [Hen' _].
      apply (enumerate_unique ipnet _ fuel start _ _ Hen' Hen).
    + intros sched st' Hex. destruct Hreach as [sched0 Hex0].
      assert (Hall : exec E f (sched0 ++ sched) (main_init E f s0) = Some st')
        by (rewrite exec_app, Hex0; exact Hex).
      pose proof (run_bound_exec E f _ _ _ _
                    (run_bound_init E f s0 dictionary ipnet start fuel addrs
                                    Hstart Hen) Hall) as Hb.
      rewrite length_app in Hb. unfold task_bound in Hb. lia.
    + intros sched st' Hex Hstuck. destruct Hreach as [sched0 Hex0].
      assert (Hreach' : reachable E f s0 st')
        by (exists (sched0 ++ sched)%list; rewrite exec_app, Hex0; exact Hex).
      pose proof (inv_reachable E f ipnet start dictionary s0 st' Hstart Hreach')
        as Hinv'.
      assert (Hp : pc E st' = MReturned).
      { assert (Hdec : pc E st' = MReturned \/ pc E st' <> MReturned)
          by (destruct (pc E st'); auto; right; discriminate).
        destruct Hdec as [Hp | Hp]; [exact Hp|]. exfalso.
        destruct (inv_progress E f ipnet start st' HN Hinv' Hp) as (c & st2 & Hs).
        rewrite Hstuck in Hs. discriminate Hs. }
      destruct (inv_returned E f ipnet start st' Hinv' Hp) as [Hen' Hexited].
      split; [exact Hp|]. split; [|exact Hexited].
      apply (enumerate_unique ipnet _ fuel start _ _ Hen' Hen).
    + destruct (run_bound_reachable E f s0 dictionary ipnet start fuel addrs st
                  Hstart Hen Hreach) as [n Hb].
      apply (run_completes E f ipnet start HN n st Hinv Hb).
Qed.

Lemma scheduler_bounded_and_complete_witness :
  (Z.of_nat (executing Sample.all_ok Sample.two_started) <= 2)%Z
  /\ dispatched Sample.all_ok Sample.two_started = [[10; 0; 0; 8]; [10; 0; 0; 9]]%Z
  /\ exists sched st',
      exec Sample.all_ok Sample.scan30 sched Sample.two_started = Some st'
      /\ pc Sample.all_ok st' = MReturned.
Proof.
  destruct (scheduler_bounded_and_complete Sample.all_ok Sample.scan30
              (Sample.store0 Sample.all_ok 0%nat) []
              (snd (cidr_v4 10 0 0 8 30)) [10; 0; 0; 8]%Z Sample.two_started)
    as (Hexec & Hdisp & _ & _ & _ & _ & _ & Hall).
  - vm_compute. discriminate.
  - vm_compute. reflexivity.
  - apply after_reached. vm_compute. reflexivity.
  - split; [exact Hexec|]. split; [rewrite Hdisp; vm_compute; reflexivity|].
    destruct (Hall 5%nat
                [[10; 0; 0; 8]; [10; 0; 0; 9]; [10; 0; 0; 10]; [10; 0; 0; 11]]%Z)
      as (_ & _ & _ & _ & _ & Hdone); [vm_compute; reflexivity | exact Hdone].
Defined.

(* ---------------------------------------------------------------- *)
(** *** The records of a scan *)

Lemma main_start_block (E : Env) (f : Flags) dictionary a b c d p :
  (0 <= flag_goroutines f)%Z ->
  BuildDictionary E "dictionary.txt" = Ok dictionary ->
  initializeDB E (flag_db f) = None ->
  ParseCIDR E (flag_network f) = Ok (cidr_v4 a b c d p) ->
  main_start E f
  = MLoop dictionary (snd (cidr_v4 a b c d p)) (loop_start (cidr_v4 a b c d p)).
Proof.
  intros HN Hd Hdb Hp. unfold main_start. rewrite Hd, Hdb, Hp.
  unfold cidr_v4, loop_start. cbn [fst snd].
  destruct (Z.ltb_spec (flag_goroutines f) 0); [lia | reflexivity].
Qed.

(** When the counter of the wait group is zero every goroutine has
    exited, and then no insert is pending. *)
Lemma all_exited_when_zero (E : Env) (f : Flags) ipnet start (st : State E) :
  scheduler_inv E f ipnet start st -> wg E st = 0%Z ->
  forallb is_exited (goroutines E st) = true.
Proof.
  intros (_ & Hwg & _) Hz. rewrite Hz in Hwg. symmetry in Hwg.
  apply count_zero_none in Hwg.
  rewrite forallb_forall in Hwg |- *. intros g Hg.
  specialize (Hwg g Hg). unfold alive in Hwg.
  rewrite negb_involutive in Hwg. exact Hwg.
Qed.

(** As long as the addresses ahead are in the network the loop can be
    taken through them one at a time, each goroutine run to its exit
    before the next is started. *)
Lemma loop_dispatches (E : Env) (f : Flags) ipnet dictionary :
  (1 <= flag_goroutines f)%Z ->
  forall k st ip,
    pc E st = MLoop dictionary ipnet ip ->
    semaphore E st = 0%Z -> wg E st = 0%Z ->
    Forall (fun x => Contains ipnet x = true) (visited k ip) ->
    exists sched st',
      exec E f sched st = Some st'
      /\ pc E st' = MLoop dictionary ipnet (Nat.iter k inc ip)
      /\ semaphore E st' = 0%Z /\ wg E st' = 0%Z
      /\ List.length (goroutines E st') = (List.length (goroutines E st) + k)%nat.
Proof.
  intros HN k. induction k as [|k IH]; intros st ip Hpc Hsem Hwg Hin.
  - exists [], st. cbn [exec Nat.iter nat_rect]. rewrite Nat.add_0_r.
    repeat split; assumption.
  - cbn [visited] in Hin. inversion_clear Hin as [|? ? HC Hin'].
    set (g := GQuery (queryDNS E ip (flag_domain f) (flag_domains f) dictionary)).
    set (st1 := mkState E (MLoop dictionary ipnet (inc ip))
                        (goroutines E st ++ [(ip, g)])%list
                        (semaphore E st + 1)%Z (wg E st + 1)%Z (store E st)).
    assert (Hs1 : step E f RunMain st = Some st1).
    { cbn [step]. unfold step_main. rewrite Hpc, HC.
      assert (Hlt : (semaphore E st <? flag_goroutines f)%Z = true)
        by (apply Z.ltb_lt; lia).
      rewrite Hlt. reflexivity. }
    destruct (goroutine_runs_to_exit E f (List.length (goroutines E st)) ip
                (queryDNS E ip (flag_domain f) (flag_domains f) dictionary) st1)
      as (n & st2 & Hex2 & Hpc2 & Hg2 & Hsem2 & Hwg2).
    { cbn [st1 goroutines]. rewrite nth_error_app2 by lia.
      rewrite Nat.sub_diag. reflexivity. }
    { cbn [st1 semaphore]. lia. }
    destruct (IH st2 (inc ip)) as (sched & st' & Hex & Hpc' & Hsem' & Hwg' & Hlen').
    { rewrite Hpc2. reflexivity. }
    { rewrite Hsem2. cbn [st1 semaphore]. lia. }
    { rewrite Hwg2. cbn [st1 wg]. lia. }
    { exact Hin'. }
    exists (RunMain :: repeat (RunGoroutine (List.length (goroutines E st))) n
              ++ sched)%list, st'.
    cbn [exec]. rewrite Hs1, exec_app, Hex2.
    split; [exact Hex|]. rewrite Nat.iter_succ_r.
    split; [exact Hpc'|]. split; [exact Hsem'|]. split; [exact Hwg'|].
    rewrite Hlen', Hg2, set_goroutine_length. cbn [st1 goroutines].
    rewrite length_app. cbn [List.length]. lia.
Qed.

Section Records.

Variable E : Env.
Variable f : Flags.
Variable s0 : Store E.
Hypothesis Hok : all_succeed E.

(** The rows of the table never outnumber the records of the goroutines
    started, and they are exactly those once every goroutine has
    exited. *)
Lemma rows_of_reachable st :
  reachable E f s0 st ->
  (List.length (table E (store E st))
   <= List.length (table E s0)
      + List.length (goroutines E st) * (1 + additional_count f))%nat
  /\ (forallb is_exited (goroutines E st) = true ->
      List.length (table E (store E st))
      = (List.length (table E s0)
         + List.length (goroutines E st) * (1 + additional_count f))%nat).
Proof.
  intros Hreach.
  destruct (records_reachable E Hok f s0 st Hreach) as (m & Hp & Hcount).
  split; [lia|]. intros Hex.
  rewrite (pending_all_exited _ m Hp Hex) in Hcount. lia.
Qed.

End Records.

(** When every query is answered and every insert succeeds, a scan of the
    IPv4 block [a.b.c.d/p], [1 <= p <= 32], with a limit of at least one
    goroutine puts exactly [A * (1 + D)] rows into the table, [A =
    2^(32-p)] the number of addresses of the block and [D] the number of
    additional domains.  [main] comes to its loop at the masked address;
    no schedule runs for more than [A * (3 D + 6) + 2] steps; in every
    state the table has at most [A * (1 + D)] rows more than at the start,
    and the state can be continued to the return of [main]; and whenever
    [main] has returned, the goroutines were started for the [A] addresses
    of the block in ascending order and the table has grown by exactly [A *
    (1 + D)] rows. *)
Theorem block_scan_record_count (E : Env) (f : Flags) (s0 : Store E)
        (dictionary : list string) (a b c d p : Z) :
  all_succeed E ->
  (1 <= flag_goroutines f)%Z ->
  is_byte a -> is_byte b -> is_byte c -> is_byte d -> (1 <= p <= 32)%Z ->
  BuildDictionary E "dictionary.txt" = Ok dictionary ->
  initializeDB E (flag_db f) = None ->
  ParseCIDR E (flag_network f) = Ok (cidr_v4 a b c d p) ->
  let A := Z.to_nat (2 ^ (32 - p)) in
  let D := additional_count f in
  let base := (ip_val [a; b; c; d] / 2 ^ (32 - p) * 2 ^ (32 - p))%Z in
  main_start E f
  = MLoop dictionary (snd (cidr_v4 a b c d p)) (loop_start (cidr_v4 a b c d p))
  /\ (forall sched st,
         exec E f sched (main_init E f s0) = Some st ->
         (List.length sched <= A * (3 * D + 6) + 2)%nat)
  /\ (forall st,
         reachable E f s0 st ->
         (List.length (table E (store E st))
          <= List.length (table E s0) + A * (1 + D))%nat
         /\ (exists sched st',
                exec E f sched st = Some st' /\ pc E st' = MReturned)
         /\ (pc E st = MReturned ->
             dispatched E st = map ip_of_val (Zrange base A)
             /\ List.length (table E (store E st))
                = (List.length (table E s0) + A * (1 + D))%nat)).
Proof.
  intros Hok HN Ha Hb Hc Hd Hp Hdict Hdb Hparse A D base.
  assert (Hp' : (0 <= p <= 32)%Z) by lia.
  assert (Hstart := main_start_block E f dictionary a b c d p
                      ltac:(lia) Hdict Hdb Hparse).
  assert (Hen := enumerate_block a b c d p Ha Hb Hc Hd Hp' ltac:(lia)).
  fold A base in Hen.
  set (ipnet := snd (cidr_v4 a b c d p)) in *.
  set (start := loop_start (cidr_v4 a b c d p)) in *.
  set (addrs := map ip_of_val (Zrange base A)) in *.
  assert (Hlen : List.length addrs = A)
    by (unfold addrs; rewrite length_map, Zrange_length; reflexivity).
  split; [exact Hstart|]. split.
  - intros sched st Hex.
    pose proof (run_bound_exec E f _ _ _ _
                  (run_bound_init E f s0 dictionary ipnet start _ addrs
                                  Hstart Hen) Hex) as Hbound.
    rewrite Hlen in Hbound. unfold task_bound in Hbound. fold D in Hbound. lia.
  - intros st Hreach.
    pose proof (inv_reachable E f ipnet start dictionary s0 st Hstart Hreach)
      as Hinv.
    destruct (rows_of_reachable E f s0 Hok st Hreach) as [Hle Heq].
    fold D in Hle, Heq.
    assert (Hg : (List.length (goroutines E st) <= A)%nat).
    { pose proof Hinv as (_ & _ & _ & Hdisp & Hin & _).
      rewrite Hdisp in Hin. rewrite <- Hlen.
      apply (dispatched_prefix ipnet _ start addrs _ Hen Hin). }
    split; [nia|]. split.
    + destruct (run_bound_reachable E f s0 dictionary ipnet start _ addrs st
                  Hstart Hen Hreach) as [n Hn].
      apply (run_completes E f ipnet start HN n st Hinv Hn).
    + intros Hret.
      destruct (inv_returned E f ipnet start st Hinv Hret) as [Hen' Hex].
      assert (Hd' : dispatched E st = addrs)
        by (apply (enumerate_unique ipnet _ _ start _ _ Hen' Hen)).
      split; [exact Hd'|]. rewrite (Heq Hex).
      replace (List.length (goroutines E st)) with A; [reflexivity|].
      rewrite <- Hlen, <- Hd'. unfold dispatched. rewrite length_map. reflexivity.
Qed.

Lemma block_scan_record_count_witness :
  pc Sample.all_ok Sample.finished = MReturned
  /\ List.length (table Sample.all_ok (store Sample.all_ok Sample.finished))
     = 8%nat.
Proof.
  assert (Hret : pc Sample.all_ok Sample.finished = MReturned)
    by (vm_compute; reflexivity).
  split; [exact Hret|].
  destruct (block_scan_record_count Sample.all_ok Sample.scan30
              (Sample.store0 Sample.all_ok 0%nat) [] 10 0 0 8 30)
    as (_ & _ & Hall); try (unfold is_byte; lia).
  - repeat split; intros; try reflexivity. eexists. reflexivity.
  - vm_compute. discriminate.
  - reflexivity.
  - reflexivity.
  - vm_compute. reflexivity.
  - destruct (Hall Sample.finished) as (_ & _ & Hcount);
      [apply after_reached; vm_compute; reflexivity|].
    destruct (Hcount Hret) as [_ Hrows]. rewrite Hrows. reflexivity.
Defined.

(* ---------------------------------------------------------------- *)
(** *** C8: the number of records of a full scan *)

(** C8 at the network 0.0.0.0/0 (more generally [a.b.c.d/0]), with every
    query answered, every insert successful and a limit of at least one
    goroutine: the scan does not stop at [A * (1 + D)] records, [A = 2^32].
    [main] never leaves its dispatch loop, so it never returns.  For every
    number [k] there is a run that has started a goroutine for each of the
    first [k] addresses the loop goes through from 0.0.0.0, let each come to
    its end and written [k * (1 + D)] rows; taking [k] above [2^32], the
    table gets more than [A * (1 + D)] rows. *)
Theorem whole_space_scan_overruns (E : Env) (f : Flags) (s0 : Store E)
        (dictionary : list string) (a b c d : Z) :
  all_succeed E ->
  (1 <= flag_goroutines f)%Z ->
  BuildDictionary E "dictionary.txt" = Ok dictionary ->
  initializeDB E (flag_db f) = None ->
  ParseCIDR E (flag_network f) = Ok (cidr_v4 a b c d 0) ->
  let D := additional_count f in
  (forall st,
      reachable E f s0 st ->
      (exists ip, pc E st = MLoop dictionary (snd (cidr_v4 a b c d 0)) ip)
      /\ pc E st <> MReturned)
  /\ (forall k,
         exists st,
           reachable E f s0 st
           /\ dispatched E st = visited k [0; 0; 0; 0]%Z
           /\ forallb is_exited (goroutines E st) = true
           /\ List.length (table E (store E st))
              = (List.length (table E s0) + k * (1 + D))%nat)
  /\ (exists st,
         reachable E f s0 st
         /\ (List.length (table E s0) + Z.to_nat 4294967296 * (1 + D)
             < List.length (table E (store E st)))%nat).
Proof.
  intros Hok HN Hdict Hdb Hparse D.
  assert (Hstart := main_start_block E f dictionary a b c d 0
                      ltac:(lia) Hdict Hdb Hparse).
  rewrite loop_start_slash0 in Hstart.
  set (ipnet := snd (cidr_v4 a b c d 0)) in *.
  assert (Hloop : forall st,
             reachable E f s0 st ->
             exists ip, pc E st = MLoop dictionary ipnet ip).
  { intros st Hreach.
    destruct (own_address_reachable E f s0 dictionary ipnet _ st Hstart Hreach)
      as [_ Hdic].
    pose proof (inv_reachable E f ipnet _ dictionary s0 st Hstart Hreach)
      as (_ & _ & _ & _ & _ & Hpc).
    destruct (pc E st) as [dictionary' ipnet' ip | | | |]; try contradiction.
    - destruct Hpc as [-> _]. subst dictionary'. exists ip. reflexivity.
    - unfold ipnet in Hpc. rewrite enumerate_slash0 in Hpc by reflexivity.
      discriminate Hpc.
    - destruct Hpc as [Hpc _]. unfold ipnet in Hpc.
      rewrite enumerate_slash0 in Hpc by reflexivity. discriminate Hpc. }
  assert (Hmany : forall k,
             exists st,
               reachable E f s0 st
               /\ dispatched E st = visited k [0; 0; 0; 0]%Z
               /\ forallb is_exited (goroutines E st) = true
               /\ List.length (table E (store E st))
                  = (List.length (table E s0) + k * (1 + D))%nat).
  { intros k.
    destruct (loop_dispatches E f ipnet dictionary HN k (main_init E f s0)
                [0; 0; 0; 0]%Z)
      as (sched & st & Hex & _ & _ & Hwg & Hlen);
      [cbn [main_init pc]; exact Hstart | reflexivity | reflexivity
      | apply visited_slash0; reflexivity |].
    cbn [main_init goroutines List.length Nat.add] in Hlen.
    assert (Hreach : reachable E f s0 st) by (exists sched; exact Hex).
    pose proof (inv_reachable E f ipnet _ dictionary s0 st Hstart Hreach) as Hinv.
    pose proof (all_exited_when_zero E f ipnet _ st Hinv Hwg) as Hexited.
    exists st. split; [exact Hreach|]. split; [|split; [exact Hexited|]].
    - destruct Hinv as (_ & _ & _ & Hdisp & _). rewrite Hdisp, Hlen. reflexivity.
    - destruct (rows_of_reachable E f s0 Hok st Hreach) as [_ Heq].
      rewrite (Heq Hexited), Hlen. reflexivity. }
  split; [|split; [exact Hmany|]].
  - intros st Hreach. destruct (Hloop st Hreach) as [ip Hip].
    split; [exists ip; exact Hip | rewrite Hip; discriminate].
  - generalize (Z.to_nat 4294967296). intros n.
    destruct (Hmany (S n)) as (st & Hreach & _ & _ & Hrows).
    exists st. split; [exact Hreach|]. rewrite Hrows. lia.
Qed.

Lemma whole_space_scan_overruns_witness :
  exists st,
    reachable Sample.all_ok (Sample.flags "0.0.0.0/0" "b.example" 2)
              (Sample.store0 Sample.all_ok 0%nat) st
    /\ dispatched Sample.all_ok st = visited 5 [0; 0; 0; 0]%Z
    /\ List.length (table Sample.all_ok (store Sample.all_ok st)) = 10%nat.
Proof.
  destruct (whole_space_scan_overruns Sample.all_ok
              (Sample.flags "0.0.0.0/0" "b.example" 2)
              (Sample.store0 Sample.all_ok 0%nat) [] 0 0 0 0)
    as (_ & Hmany & _).
  - repeat split; intros; try reflexivity. eexists. reflexivity.
  - vm_compute. discriminate.
  - reflexivity.
  - reflexivity.
  - vm_compute. reflexivity.
  - destruct (Hmany 5%nat) as (st & Hreach & Hdisp & _ & Hrows).
    exists st. split; [exact Hreach|]. split; [exact Hdisp | exact Hrows].
Defined.

(* ---------------------------------------------------------------- *)
(** *** The channel and the wait group, statement by statement *)

Lemma slots_le_alive l : (count holds_slot l <= count alive l)%Z.
Proof.
  induction l as [|[a g] l IH]; [unfold count; cbn; lia|].
  rewrite !count_cons.
  destruct g; cbn [holds_slot alive is_exited snd negb Z.b2z]; lia.
Qed.

Section Accounting.

Variable E : Env.
Variable f : Flags.

Lemma exec_fine_app s1 : forall s2 fs,
  exec_fine E f (s1 ++ s2) fs
  = match exec_fine E f s1 fs with
    | Some fs1 => exec_fine E f s2 fs1
    | None => None
    end.
Proof.
  induction s1 as [|c s1 IH]; intros s2 fs; [reflexivity|].
  cbn [app exec_fine]. destruct (step_fine E f c fs); [apply IH | reflexivity].
Qed.

(** An iteration of the dispatch loop is the send, [wg.Add(1)] and the
    [go] statement one after the other; the other steps are the same in
    both models.  So every state of the scan is a state of the
    statement-level model, with [main] at the loop test. *)
Lemma fine_covers_step c st st' :
  step E f c st = Some st' ->
  exists sched,
    exec_fine E f sched (mkFine E AtSend st) = Some (mkFine E AtSend st').
Proof.
  intros Hstep. destruct c as [|i]; cbn [step] in Hstep.
  - unfold step_main in Hstep.
    destruct (pc E st) as [dictionary ipnet ip | | | |] eqn:Hpc;
      try discriminate Hstep.
    + destruct (Contains ipnet ip) eqn:HC.
      * destruct (semaphore E st <? flag_goroutines f)%Z eqn:Hlt;
          [|discriminate Hstep].
        injection Hstep as Hstep; subst st'.
        exists [RunMain; RunMain; RunMain].
        cbn [exec_fine step_fine]. unfold step_main_fine at 1.
        cbn [at_state stage]. rewrite Hpc, HC, Hlt.
        unfold step_main_fine at 1. cbn [at_state stage pc]. rewrite ?Hpc.
        unfold step_main_fine at 1. cbn [at_state stage pc]. rewrite ?Hpc.
        cbn [goroutines semaphore wg store]. reflexivity.
      * injection Hstep as Hstep; subst st'. exists [RunMain].
        cbn [exec_fine step_fine]. unfold step_main_fine.
        cbn [at_state stage]. rewrite Hpc, HC. reflexivity.
    + destruct (wg E st =? 0)%Z eqn:Hz; [|discriminate Hstep].
      injection Hstep as Hstep; subst st'. exists [RunMain].
      cbn [exec_fine step_fine]. unfold step_main_fine.
      cbn [at_state stage]. rewrite Hpc, Hz. reflexivity.
  - exists [RunGoroutine i]. cbn [exec_fine step_fine at_state stage].
    rewrite Hstep. reflexivity.
Qed.

Lemma fine_covers_coarse (s0 : Store E) st :
  reachable E f s0 st -> reachable_fine E f s0 (mkFine E AtSend st).
Proof.
  intros [sched Hex]. unfold reachable_fine, fine_init.
  revert Hex. generalize (main_init E f s0).
  induction sched as [|c sched IH]; intros st0 Hex.
  - injection Hex as Hex; subst st. exists []. reflexivity.
  - cbn [exec] in Hex. destruct (step E f c st0) as [st1|] eqn:Hs;
      [|discriminate Hex].
    destruct (fine_covers_step c st0 st1 Hs) as [s1 H1].
    destruct (IH st1 Hex) as [s2 H2].
    exists (s1 ++ s2)%list. rewrite exec_fine_app, H1. exact H2.
Qed.

Lemma accounting_init (s0 : Store E) : accounting_inv E f (fine_init E f s0).
Proof.
  unfold accounting_inv, fine_init, main_init. cbn.
  repeat split; try lia. destruct (main_start E f); auto.
Qed.

Lemma accounting_step c fs fs' :
  accounting_inv E f fs -> step_fine E f c fs = Some fs' ->
  accounting_inv E f fs'.
Proof.
  destruct fs as [sg st]. unfold accounting_inv. cbn [at_state stage].
  intros (Hsem & Hwg & Hcap & Hpc) Hstep.
  destruct c as [|i]; cbn [step_fine at_state stage] in Hstep.
  - unfold step_main_fine in Hstep. cbn [at_state stage] in Hstep.
    destruct (pc E st) as [dictionary ipnet ip | | | |] eqn:Hp;
      try discriminate Hstep.
    + destruct sg.
      * destruct (Contains ipnet ip).
        -- destruct (Z.ltb_spec (semaphore E st) (flag_goroutines f));
             [|discriminate Hstep].
           injection Hstep as Hstep; subst fs'.
           cbn [at_state stage pc goroutines semaphore wg sent_ahead added_ahead]
             in *.
           rewrite ?Hp. repeat split; lia.
        -- injection Hstep as Hstep; subst fs'.
           cbn [at_state stage pc goroutines semaphore wg sent_ahead added_ahead]
             in *.
           repeat split; assumption.
      * injection Hstep as Hstep; subst fs'.
        cbn [at_state stage pc goroutines semaphore wg sent_ahead added_ahead]
          in *.
        rewrite ?Hp. repeat split; lia.
      * injection Hstep as Hstep; subst fs'.
        cbn [at_state stage pc goroutines semaphore wg sent_ahead added_ahead]
          in *.
        rewrite !count_app. unfold count at 2 4. cbn.
        repeat split; lia.
    + destruct (Z.eqb_spec (wg E st) 0) as [Hz | Hz]; [|discriminate Hstep].
      injection Hstep as Hstep; subst fs'. subst sg.
      cbn [at_state stage pc goroutines semaphore wg sent_ahead added_ahead] in *.
      repeat split; assumption.
  - destruct (step_goroutine E i st) as [st'|] eqn:Hs; [|discriminate Hstep].
    injection Hstep as Hstep; subst fs'. cbn [at_state stage].
    destruct (step_goroutine_cases E i st st' Hs)
      as (a & g & g' & Hi & Hgs & Hpc' & Hcase).
    assert (Hslot := count_set holds_slot i g' _ a g Hi).
    assert (Halive := count_set alive i g' _ a g Hi).
    assert (Hmem := fun HP => count_member alive _ i a g Hi HP).
    pose proof (count_nonneg alive (goroutines E st)) as Hnn.
    rewrite Hgs, Hpc', Hslot, Halive. clear Hslot Halive.
    destruct Hcase as [(p & -> & _ & -> & _ & Hs' & Hw')
                      | [(r & -> & -> & _ & Hs' & Hw')
                        | [(-> & -> & _ & Hpos & Hs' & Hw')
                          | (-> & -> & _ & Hs' & Hw')]]];
      rewrite Hs', Hw'; cbn [holds_slot alive is_exited snd negb Z.b2z];
      specialize (Hmem eq_refl);
      (split; [lia|]); (split; [lia|]); (split; [lia|]);
      destruct (pc E st); try assumption;
      destruct Hpc as [Hsg Hz]; destruct sg; try discriminate Hsg;
      cbn [added_ahead] in Hwg; lia.
Qed.

Lemma accounting_reachable (s0 : Store E) fs :
  reachable_fine E f s0 fs -> accounting_inv E f fs.
Proof.
  intros [sched Hex]. revert Hex. generalize (accounting_init s0).
  generalize (fine_init E f s0).
  induction sched as [|c sched IH]; intros fs0 H0 Hex.
  - injection Hex as Hex; subst fs. exact H0.
  - cbn [exec_fine] in Hex. destruct (step_fine E f c fs0) as [fs1|] eqn:Hs;
      [|discriminate Hex].
    apply (IH fs1); [apply (accounting_step c fs0); assumption | exact Hex].
Qed.

End Accounting.

(** In every state of a scan, with the send to the channel, [wg.Add(1)]
    and the [go] statement of [main] taken as separate steps and under
    every schedule: the channel holds one token for each goroutine that
    was started and has not yet received from it, and one more while
    [main] is between its send and the [go] statement; the counter of the
    wait group is the number of goroutines that have not yet called
    [Done], and one more while [main] is between [wg.Add(1)] and the [go]
    statement.  So the channel never holds more than its capacity, the
    counter is never negative and never more than one below the number of
    tokens, a goroutine that comes to its receive always finds a token (the
    receive does not block), [wg.Done()] never takes the counter below
    zero, and when [main] has returned from [wg.Wait()] every goroutine
    started has exited. *)
Theorem channel_and_wait_group_accounting (E : Env) (f : Flags) (s0 : Store E)
        (fs : FineState E) :
  reachable_fine E f s0 fs ->
  let st := at_state E fs in
  semaphore E st
  = (count holds_slot (goroutines E st) + sent_ahead (stage E fs))%Z
  /\ wg E st = (count alive (goroutines E st) + added_ahead (stage E fs))%Z
  /\ (0 <= semaphore E st <= Z.max 0 (flag_goroutines f))%Z
  /\ (0 <= wg E st)%Z
  /\ (semaphore E st <= wg E st + 1)%Z
  /\ (forall i a,
         nth_error (goroutines E st) i = Some (a, GRelease) ->
         exists fs', step_fine E f (RunGoroutine i) fs = Some fs'
                     /\ semaphore E (at_state E fs') = (semaphore E st - 1)%Z)
  /\ (forall i a,
         nth_error (goroutines E st) i = Some (a, GDone) ->
         exists fs', step_fine E f (RunGoroutine i) fs = Some fs'
                     /\ wg E (at_state E fs') = (wg E st - 1)%Z
                     /\ (0 <= wg E (at_state E fs'))%Z)
  /\ (pc E st = MReturned -> forallb is_exited (goroutines E st) = true).
Proof.
  intros Hreach st.
  pose proof (accounting_reachable E f s0 fs Hreach) as (Hsem & Hwg & Hcap & Hpc).
  fold st in Hsem, Hwg, Hcap, Hpc.
  pose proof (count_nonneg holds_slot (goroutines E st)) as H1.
  pose proof (count_nonneg alive (goroutines E st)) as H2.
  pose proof (slots_le_alive (goroutines E st)) as H3.
  assert (Hsa : (0 <= sent_ahead (stage E fs) <= 1)%Z)
    by (destruct (stage E fs); cbn; lia).
  assert (Haa : (0 <= added_ahead (stage E fs) <= sent_ahead (stage E fs))%Z)
    by (destruct (stage E fs); cbn; lia).
  split; [exact Hsem|]. split; [exact Hwg|].
  split; [lia|]. split; [lia|]. split; [lia|]. split; [|split].
  - intros i a Hi.
    pose proof (count_member holds_slot _ i a GRelease Hi eq_refl) as Hm.
    cbn [step_fine]. fold st. unfold step_goroutine. rewrite Hi.
    destruct (Z.ltb_spec 0 (semaphore E st)); [|lia].
    eexists. split; reflexivity.
  - intros i a Hi.
    pose proof (count_member alive _ i a GDone Hi eq_refl) as Hm.
    cbn [step_fine]. fold st. unfold step_goroutine. rewrite Hi.
    eexists. split; [reflexivity|]. cbn [at_state wg]. split; [reflexivity | lia].
  - intros Hp. rewrite Hp in Hpc. destruct Hpc as [Hsg Hz].
    rewrite Hsg in Hwg. cbn [added_ahead] in Hwg.
    assert (Hc : count alive (goroutines E st) = 0%Z) by lia.
    apply count_zero_none in Hc.
    rewrite forallb_forall in Hc |- *. intros g Hg.
    specialize (Hc g Hg). unfold alive in Hc.
    rewrite negb_involutive in Hc. exact Hc.
Qed.

Lemma channel_and_wait_group_accounting_witness :
  stage Sample.all_ok sample_token_sent = AtAdd
  /\ goroutines Sample.all_ok (at_state Sample.all_ok sample_token_sent) = []
  /\ semaphore Sample.all_ok (at_state Sample.all_ok sample_token_sent) = 1%Z
  /\ wg Sample.all_ok (at_state Sample.all_ok sample_token_sent) = 0%Z.
Proof.
  destruct (channel_and_wait_group_accounting Sample.all_ok Sample.scan30
              (Sample.store0 Sample.all_ok 0%nat) sample_token_sent)
    as (Hsem & Hwg & _).
  - exists [RunMain]. reflexivity.
  - split; [reflexivity|]. split; [reflexivity|].
    split; [rewrite Hsem; reflexivity | rewrite Hwg; reflexivity].
Defined.
